(** * SSIM-X (ssimx.cpp): a shallow embedding of the scoring pipeline

    The program compares two decoded images and prints one dissimilarity
    score.  This development embeds [main], [rgb2lab] and [grid_artifacts]
    of [src/ssimx/ssimx.cpp] and proves properties of them.

    Conventions of the embedding.

    - [double] values are idealised as exact rationals ([Q], compared with
      [==]); rounding is not modelled.  The one place where the program can
      divide by zero, the final normalisation, is modelled with explicit
      non-finite values ([xdouble]).
    - A floating-point [cv::Mat] is a pair of dimensions and a total sample
      function [px m y x c] (row, column, channel); only samples inside the
      dimensions are ever meaningful.
    - An 8-bit [cv::Mat] as produced by the decoder is a [Raster]: a flat,
      row-major list of pixels, so that [at<T>(i)] and [release()] can be
      written as the code has them.
    - The OpenCV and libm primitives that the program only calls
      ([GaussianBlur], [resize], [pow]) are the operations of the class
      [CvLib], together with the laws of them that the proofs use. *)

From Stdlib Require Import QArith Qabs Qminmax Qround Lqa Lia ZArith List Bool
  Sorting.Sorted Sorting.Permutation.
From Stdlib Require Ascii String.
Import ListNotations.

Open Scope Q_scope.

(** ** Constants and weight tables (ssimx.cpp, lines 91-135) *)

Definition C1 : Q := 0.0001.
Definition C2 : Q := 0.0004.

Definition scale_weights : list (list Q) :=
  [ [0.0448; 0.2856; 0.3001; 0.2363; 0.1333; 0.1  ];
    [0.015;  0.0448; 0.2856; 0.3001; 0.3363; 0.25 ];
    [0.015;  0.0448; 0.2856; 0.3001; 0.3363; 0.25 ];
    [0.0448; 0.2856; 0.3001; 0.2363; 0.1333; 0.1  ] ].

Definition chroma_weight : Q := 0.2.

Definition mscale_weights : list (list Q) :=
  [ [0.2;  0.3;  0.25; 0.2; 0.12; 0.05];
    [0.01; 0.05; 0.2;  0.3; 0.35; 0.35];
    [0.01; 0.05; 0.2;  0.3; 0.35; 0.35];
    [0.2;  0.3;  0.25; 0.2; 0.12; 0.05] ].

Definition min_weight : list Q := [0.1; 0.005; 0.005; 0.005].

Definition extra_edges_weight : list Q := [1.5; 0.1; 0.1; 0.5].

Definition worst_grid_weight : list (list Q) :=
  [ [1.0; 0.1; 0.1; 0.5];     (* on ssim heatmap *)
    [1.0; 0.1; 0.1; 0.5] ].   (* on extra_edges heatmap *)

(** [t[i]] and [t[i][j]] of a constant table.  Every index the program uses
    is inside the table (channels below 4, scales below 6, variants below
    2); the default is never read. *)
Definition idx1 (t : list Q) (i : nat) : Q := nth i t 0.
Definition idx2 (t : list (list Q)) (i j : nat) : Q := nth j (nth i t []) 0.

(** ** Floating-point matrices *)

Record Mat : Type := mkMat {
  rows : nat;
  cols : nat;
  px : nat -> nat -> nat -> Q   (* row, column, channel *)
}.

(** A [cv::Scalar]: four doubles, indexed by channel. *)
Definition Scalar : Type := nat -> Q.
Definition scalar4 (a b c d : Q) : Scalar := fun i => nth i [a; b; c; d] 0.

(** Two matrices with the same dimensions and the same samples inside. *)
Definition mat_eqv (a b : Mat) : Prop :=
  rows a = rows b /\ cols a = cols b /\
  forall y x c, (y < rows a)%nat -> (x < cols a)%nat -> px a y x c == px b y x c.

(** Every sample of channel [c] inside the matrix equals [v]. *)
Definition uniform (m : Mat) (c : nat) (v : Q) : Prop :=
  forall y x, (y < rows m)%nat -> (x < cols m)%nat -> px m y x c == v.

(** *** Element-wise operations, named after the OpenCV calls *)

(** [multiply(a, b, dst, scale)]: [dst = scale * a * b]. *)
Definition multiply (a b : Mat) (scale : Q) : Mat :=
  mkMat (rows a) (cols a) (fun y x c => scale * (px a y x c * px b y x c)).

(** [addWeighted(a, alpha, b, beta, gamma, dst)]. *)
Definition addWeighted (a : Mat) (alpha : Q) (b : Mat) (beta gamma : Q) : Mat :=
  mkMat (rows a) (cols a)
        (fun y x c => px a y x c * alpha + px b y x c * beta + gamma).

(** [m += s] for a [Scalar] [s]. *)
Definition add_scalar (m : Mat) (s : Scalar) : Mat :=
  mkMat (rows m) (cols m) (fun y x c => px m y x c + s c).

(** [a += b] for matrices. *)
Definition mat_add (a b : Mat) : Mat :=
  mkMat (rows a) (cols a) (fun y x c => px a y x c + px b y x c).

(** [a - b]. *)
Definition mat_sub (a b : Mat) : Mat :=
  mkMat (rows a) (cols a) (fun y x c => px a y x c - px b y x c).

(** [abs(m)]. *)
Definition mat_abs (m : Mat) : Mat :=
  mkMat (rows m) (cols m) (fun y x c => Qabs (px m y x c)).

(** [max(m, v)] for a double [v]. *)
Definition mat_max (m : Mat) (v : Q) : Mat :=
  mkMat (rows m) (cols m) (fun y x c => Qmax (px m y x c) v).

(** [s - m] for a [Scalar] [s]. *)
Definition scalar_sub (s : Scalar) (m : Mat) : Mat :=
  mkMat (rows m) (cols m) (fun y x c => s c - px m y x c).

(** [cv::pow(m, 2, dst)]. *)
Definition cv_pow2 (m : Mat) : Mat :=
  mkMat (rows m) (cols m) (fun y x c => px m y x c ^ 2).

(** [a /= b]. *)
Definition mat_div (a b : Mat) : Mat :=
  mkMat (rows a) (cols a) (fun y x c => px a y x c / px b y x c).

(** [m(Rect(x0, y0, w, h))]: a region of interest. *)
Definition roi (m : Mat) (x0 y0 w h : nat) : Mat :=
  mkMat h w (fun y x c => px m (y0 + y) (x0 + x) c).

(** Sum of [f 0 .. f (n-1)]. *)
Fixpoint sumQ (n : nat) (f : nat -> Q) : Q :=
  match n with
  | O => 0
  | S k => sumQ k f + f k
  end.

Definition of_nat (n : nat) : Q := inject_Z (Z.of_nat n).

(** [mean(m)[c]]: the average of channel [c] over the whole matrix. *)
Definition mean (m : Mat) (c : nat) : Q :=
  sumQ (rows m) (fun y => sumQ (cols m) (fun x => px m y x c))
  / of_nat (rows m * cols m).

(** The samples of channel [c] in row-major order ([split] then scan). *)
Definition samples (m : Mat) (c : nat) : list Q :=
  flat_map (fun y => map (fun x => px m y x c) (seq 0 (cols m))) (seq 0 (rows m)).

(** [minMaxLoc(m_c, &minVal)].  OpenCV rejects an empty matrix; the program
    never passes one (see [resize_dim_quarter]), so the value chosen for
    it here is never used. *)
Definition minVal (m : Mat) (c : nat) : Q :=
  match samples m c with
  | [] => 0
  | v :: l => fold_left Qmin l v
  end.

(** ** The score accumulator: the two doubles [score] and [score_max] *)

Record Acc : Type := mkAcc { score : Q; score_max : Q }.

(** [score += w * v; score_max += w]. *)
Definition accumulate (a : Acc) (w v : Q) : Acc :=
  mkAcc (score a + w * v) (score_max a + w).

(** ** grid_artifacts (ssimx.cpp, lines 159-186) *)

(** [std::multiset<double>::insert]: the set is kept in ascending order and
    a new value goes after the values equal to it. *)
Fixpoint ms_insert (v : Q) (s : list Q) : list Q :=
  match s with
  | [] => [v]
  | h :: t => if Qlt_le_dec v h then v :: s else h :: ms_insert v t
  end.

(** The insertion loops of lines 166-170 and 177-181, for one channel:
    [means] lists the row (or column) averages in loop order. *)
Definition ms_of (means : list Q) : list Q :=
  fold_left (fun s v => ms_insert v s) means [].

Definition row_means (errormap : Mat) (i : nat) : list Q :=
  map (fun y => mean (roi errormap 0 y (cols errormap) 1) i) (seq 0 (rows errormap)).

Definition col_means (errormap : Mat) (i : nat) : list Q :=
  map (fun x => mean (roi errormap x 0 1 (rows errormap)) i) (seq 0 (cols errormap)).

(** [int k = 0; for (const double& s : set) { if (k++ >= limit) { ...s...;
    break; } }]: the value at which the loop stops, if it stops at one. *)
Fixpoint stop_at (k limit : nat) (s : list Q) : option Q :=
  match s with
  | [] => None
  | v :: t => if (limit <=? k)%nat then Some v else stop_at (S k) limit t
  end.

(** One pass of lines 171-174 (or 182-185) for channel [i]: [n] is
    [errormap.rows] (or [errormap.cols]) and [set] the channel's multiset. *)
Definition grid_channel (twice : nat) (n : nat) (set : list Q) (i : nat)
    (a : Acc) : Acc :=
  let w := idx2 worst_grid_weight twice i in
  let a' := match stop_at 0 (n / 50) set with
            | Some s => mkAcc (score a + w * s) (score_max a)
            | None => a
            end in
  mkAcc (score a') (score_max a' + w).

(** [for (unsigned int i = 0; i < nChan; i++) body]. *)
Definition for_chan (nChan : nat) (body : nat -> Acc -> Acc) (a : Acc) : Acc :=
  fold_left (fun acc i => body i acc) (seq 0 nChan) a.

Definition grid_artifacts (errormap : Mat) (nChan : nat) (a : Acc)
    (twice : nat) : Acc :=
  let a1 := for_chan nChan
              (fun i => grid_channel twice (rows errormap)
                          (ms_of (row_means errormap i)) i) a in
  for_chan nChan
    (fun i => grid_channel twice (cols errormap)
                (ms_of (col_means errormap i)) i) a1.

(** ** The library primitives the program calls *)

(** [cvRound]: round to the nearest integer, ties to the even one. *)
Definition cvRound (v : Q) : Z :=
  let f := Qfloor v in
  match Qcompare (v - inject_Z f) (1 # 2) with
  | Lt => f
  | Gt => (f + 1)%Z
  | Eq => if Z.even f then f else (f + 1)%Z
  end.

(** The size [resize] gives to a dimension [n] when it is called with an
    empty [Size()] and the factor [f]:
    [saturate_cast<int>(n * f)], which is [cvRound]. *)
Definition resize_dim (f : Q) (n : nat) : nat :=
  Z.to_nat (cvRound (of_nat n * f)).

(** OpenCV and libm are outside the repository: the program fixes how they
    are called, not how they work.  The laws are the facts about them the
    proofs below rely on; [RefLib] further down is an instance.

    - [GaussianBlur src ksize sigma] keeps the dimensions, reads only the
      samples inside [src] (borders are reflected), and is a weighted
      average with non-negative weights of sum one, so that the square of
      a blurred sample is at most the blurred square (Jensen).
    - [resize src f] is [resize(src, dst, Size(), f, f, INTER_AREA)]: the
      dimensions are [resize_dim], and every output sample is an average of
      input samples of the same channel, so a uniform channel stays
      uniform. *)
Class CvLib : Type := {
  libm_pow : Q -> Q -> Q;
  GaussianBlur : Mat -> nat * nat -> Q -> Mat;
  resize : Mat -> Q -> Mat;
  GaussianBlur_rows : forall m k s, rows (GaussianBlur m k s) = rows m;
  GaussianBlur_cols : forall m k s, cols (GaussianBlur m k s) = cols m;
  GaussianBlur_ext : forall a b k s,
      mat_eqv a b -> mat_eqv (GaussianBlur a k s) (GaussianBlur b k s);
  GaussianBlur_sq : forall m k s y x c,
      (y < rows m)%nat -> (x < cols m)%nat ->
      px (GaussianBlur m k s) y x c ^ 2 <= px (GaussianBlur (cv_pow2 m) k s) y x c;
  resize_rows : forall m f, rows (resize m f) = resize_dim f (rows m);
  resize_cols : forall m f, cols (resize m f) = resize_dim f (cols m);
  resize_uniform : forall m f c v, uniform m c v -> uniform (resize m f) c v
}.

(** Two more facts about the OpenCV primitives: the blur is linear, and an
    area-averaged sample is not above the samples it averages. *)
Class CvAverage (cv : CvLib) : Prop := {
  GaussianBlur_linear : forall a b alpha beta k s y x c,
      rows b = rows a -> cols b = cols a ->
      (y < rows a)%nat -> (x < cols a)%nat ->
      px (GaussianBlur (addWeighted a alpha b beta 0) k s) y x c
      == alpha * px (GaussianBlur a k s) y x c + beta * px (GaussianBlur b k s) y x c;
  resize_le : forall m f c v,
      (forall y x, (y < rows m)%nat -> (x < cols m)%nat -> px m y x c <= v) ->
      forall y x, (y < rows (resize m f))%nat -> (x < cols (resize m f))%nat ->
                  px (resize m f) y x c <= v
}.

(** ** The multi-scale loop of [main] (ssimx.cpp, lines 336-461) *)

Section Scoring.

Context {cv : CvLib}.

Definition sC1 : Scalar := scalar4 C1 C1 C1 C1.

(** [Size(11, 11)] and sigma [1.5], the same at every call. *)
Definition ksize : nat * nat := (11%nat, 11%nat).
Definition sigma : Q := 1.5.

(** Lines 348-354: what [mu1_mu2] holds after line 354. *)
Definition ssim_numerator (img1 img2 mu1 mu2 : Mat) : Mat :=
  let img1_img2 := multiply img1 img2 1 in
  let sigma12 := GaussianBlur img1_img2 ksize sigma in
  let mu1_mu2 := multiply mu1 mu2 2 in
  let sigma12 := addWeighted sigma12 2 mu1_mu2 (-1) C2 in
  let mu1_mu2 := add_scalar mu1_mu2 sC1 in
  multiply mu1_mu2 sigma12 1.

(** Lines 359 and 380: [edgediff] after line 380. *)
Definition edge_map (img1 img2 mu1 mu2 : Mat) : Mat :=
  let edgediff :=
    mat_max (mat_sub (mat_abs (mat_sub img2 mu2)) (mat_abs (mat_sub img1 mu1))) 0 in
  scalar_sub (scalar4 1 1 1 1) edgediff.

(** Lines 382-387. *)
Definition edge_artifacts (img1 img2 mu1 mu2 : Mat) (nChan : nat) (a : Acc) : Acc :=
  let edgediff := edge_map img1 img2 mu1 mu2 in
  let a := for_chan nChan
             (fun i a => accumulate a (idx1 extra_edges_weight i) (mean edgediff i)) a in
  grid_artifacts edgediff nChan a 1.

(** Lines 390-391 and 397-411: what [mu1] holds after line 411.  The squares
    are taken of the buffers of this scale, before they are resized. *)
Definition ssim_denominator (img1 img2 mu1 mu2 : Mat) : Mat :=
  let img1_sq := cv_pow2 img1 in
  let img2_sq := cv_pow2 img2 in
  let mu1 := cv_pow2 mu1 in
  let mu2 := cv_pow2 mu2 in
  let mu1 := mat_add mu1 mu2 in
  let sigma1_sq := GaussianBlur img1_sq ksize sigma in
  let sigma2_sq := GaussianBlur img2_sq ksize sigma in
  let sigma1_sq := addWeighted sigma1_sq 1 sigma2_sq 1 0 in
  let sigma1_sq := addWeighted sigma1_sq 1 mu1 (-1) C2 in
  let mu1 := add_scalar mu1 sC1 in
  multiply mu1 sigma1_sq 1.

(** Lines 345-355 and 390-416: [ssim_map] at one scale. *)
Definition ssim_map (img1 img2 : Mat) : Mat :=
  let mu1 := GaussianBlur img1 ksize sigma in
  let mu2 := GaussianBlur img2 ksize sigma in
  mat_div (ssim_numerator img1 img2 mu1 mu2) (ssim_denominator img1 img2 mu1 mu2).

(** Lines 440-444. *)
Definition average_ssim (ssim : Mat) (nChan scale : nat) (a : Acc) : Acc :=
  for_chan nChan
    (fun i a =>
       let cw := if (0 <? i)%nat then chroma_weight else 1.0 in
       mkAcc (score a + cw * mean ssim i * idx2 scale_weights i scale)
             (score_max a + cw * idx2 scale_weights i scale)) a.

(** Lines 447-456. *)
Definition worst_ssim (ssim : Mat) (nChan scale : nat) (a : Acc) : Acc :=
  let small := resize ssim 0.25 in
  for_chan nChan
    (fun i a =>
       mkAcc (score a + idx1 min_weight i * minVal small i * idx2 mscale_weights i scale)
             (score_max a + idx1 min_weight i * idx2 mscale_weights i scale)) a.

(** One iteration of the loop body after the size test (lines 343-456).  The
    debug images of lines 362-378 and 421-437 are written to files and do
    not touch [score], [score_max] or the buffers. *)
Definition scale_iteration (scale : nat) (img1 img2 : Mat) (nChan : nat)
    (a : Acc) : Mat * Mat * Acc :=
  let mu1 := GaussianBlur img1 ksize sigma in
  let mu2 := GaussianBlur img2 ksize sigma in
  let num := ssim_numerator img1 img2 mu1 mu2 in
  let a := if (scale =? 0)%nat then edge_artifacts img1 img2 mu1 mu2 nChan a else a in
  let den := ssim_denominator img1 img2 mu1 mu2 in
  let img1' := resize img1 0.5 in
  let img2' := resize img2 0.5 in
  let ssim := mat_div num den in
  let a := if (scale =? 0)%nat then grid_artifacts ssim nChan a 0 else a in
  let a := average_ssim ssim nChan scale a in
  let a := worst_ssim ssim nChan scale a in
  (img1', img2', a).

(** [for (int scale = 0; scale < 6; scale++) { if (img1.cols < 8 ||
    img1.rows < 8) break; ... }], started at [scale] with [left = 6 - scale]
    iterations left.  The result is the value of [scale] when the loop is
    left, which is the number of iterations done, and the accumulator. *)
Fixpoint scale_loop (left scale : nat) (img1 img2 : Mat) (nChan : nat)
    (a : Acc) : nat * Acc :=
  match left with
  | O => (scale, a)
  | S left' =>
      if (cols img1 <? 8)%nat || (rows img1 <? 8)%nat then (scale, a)
      else
        let '(img1', img2', a') := scale_iteration scale img1 img2 nChan a in
        scale_loop left' (S scale) img1' img2' nChan a'
  end.

(** Lines 336-457: [score = 0, score_max = 0] and the loop. *)
Definition multi_scale (img1 img2 : Mat) (nChan : nat) : nat * Acc :=
  scale_loop 6 0 img1 img2 nChan (mkAcc 0 0).

End Scoring.

(** ** The final normalisation (ssimx.cpp, lines 459-461) *)

(** A double that may be infinite or not a number.  Only the quotient of
    line 459 can be one in this embedding. *)
Inductive xdouble : Type :=
| Finite (q : Q)
| PosInf
| NegInf
| NaN.

(** [a / b] in IEEE arithmetic.  A zero divisor here is [+0.0]: [score]
    starts at [+0.0], and a sum is [-0.0] only when both terms are. *)
Definition xdiv (a b : Q) : xdouble :=
  if Qeq_bool b 0 then
    match Qcompare a 0 with
    | Gt => PosInf
    | Lt => NegInf
    | Eq => NaN
    end
  else Finite (a / b).

Definition xsub (a : xdouble) (b : Q) : xdouble :=
  match a with
  | Finite q => Finite (q - b)
  | other => other
  end.

(** [a < b] and [a > b] against a finite [b]; false on [NaN]. *)
Definition xlt (a : xdouble) (b : Q) : bool :=
  match a with
  | Finite q => negb (Qle_bool b q)
  | NegInf => true
  | PosInf | NaN => false
  end.

Definition xgt (a : xdouble) (b : Q) : bool :=
  match a with
  | Finite q => negb (Qle_bool q b)
  | PosInf => true
  | NegInf | NaN => false
  end.

(** Lines 459-461. *)
Definition final_score (a : Acc) : xdouble :=
  let score := xsub (xdiv (score_max a) (score a)) 1 in
  let score := if xlt score 0 then Finite 0 else score in
  let score := if xgt score 1 then Finite 1 else score in
  score.

(** ** 8-bit rasters: the decoded inputs [img1_temp] and [img2_temp] *)

(** A continuous 8-bit matrix: [r_data] lists the pixels row by row, each
    pixel the list of its [r_channels] samples. *)
Record Raster : Type := mkRaster {
  r_rows : nat;
  r_cols : nat;
  r_channels : nat;
  r_data : list (list Z)
}.

(** What the decoder hands over: as many pixels as the dimensions say, each
    with the raster's channel count, every sample an unsigned byte. *)
Definition well_formed (r : Raster) : Prop :=
  length (r_data r) = (r_rows r * r_cols r)%nat /\
  Forall (fun p => length p = r_channels r /\
                   Forall (fun s => (0 <= s < 256)%Z) p) (r_data r).

(** [m.release()]: the buffer is given back; the header keeps its type and
    has no rows, no columns and no data any more. *)
Definition release (r : Raster) : Raster :=
  mkRaster 0 0 (r_channels r) [].

(** [m.at<uchar>(i)] on a one-channel matrix: the byte of pixel [i].  [at]
    does no bounds check; reading where the matrix has no data (past its
    end, or anywhere in a released matrix, whose data pointer is null) is
    undefined behaviour, [None] here. *)
Definition at_uchar (r : Raster) (i : nat) : option Z :=
  match nth_error (r_data r) i with
  | Some (v :: _) => Some v
  | _ => None
  end.

(** Sample [c] of the pixel in row [y], column [x]. *)
Definition sample_at (r : Raster) (y x c : nat) : Z :=
  nth c (nth (y * r_cols r + x) (r_data r) []) 0%Z.

(** [cvtColor(m, m, COLOR_RGB2RGBA)]: an opaque alpha is appended. *)
Definition cvtColor_RGB2RGBA (r : Raster) : Raster :=
  mkRaster (r_rows r) (r_cols r) 4 (map (fun p => p ++ [255%Z]) (r_data r)).

(** Storing an [int] into a [uchar]. *)
Definition to_uchar (v : Z) : Z := v mod 256.

(** [(p[3] * c + (255 - p[3]) * 128) / 255] in [int] arithmetic, stored
    back into a [uchar]. *)
Definition blend_sample (alpha c : Z) : Z :=
  to_uchar (Z.quot (alpha * c + (255 - alpha) * 128) 255).

(** Lines 286-289 for one [Vec4b]: the three assignments in order. *)
Definition blend_pixel (p : list Z) : list Z :=
  match p with
  | [p0; p1; p2; p3] =>
      let p0 := blend_sample p3 p0 in
      let p1 := blend_sample p3 p1 in
      let p2 := blend_sample p3 p2 in
      [p0; p1; p2; p3]
  | _ => p
  end.

(** Lines 285-290: [for (i = 0; i < pixels; i++)] over the flat pixels. *)
Definition blend_gray (r : Raster) (pixels : nat) : Raster :=
  mkRaster (r_rows r) (r_cols r) (r_channels r)
           (map blend_pixel (firstn pixels (r_data r)) ++ skipn pixels (r_data r)).

(** [LUT(src, lut, dst)]: every sample of every channel is looked up. *)
Definition LUT (src : Raster) (lut : Z -> Q) : Mat :=
  mkMat (r_rows src) (r_cols src) (fun y x c => lut (sample_at src y x c)).

(** [Mat(rows, cols, CV_64FC1)]: allocated, contents indeterminate until
    written.  Lines 328-329 are to write every sample before any is read;
    zero stands for the indeterminate contents. *)
Definition uninitialised (r c : nat) : Mat := mkMat r c (fun _ _ _ => 0).

(** [m.at<double>(i) = v] on a one-channel matrix. *)
Definition set_at (m : Mat) (i : nat) (v : Q) : Mat :=
  mkMat (rows m) (cols m)
        (fun y x c => if ((y * cols m + x =? i) && (x <? cols m) && (c =? 0))%nat
                      then v else px m y x c).

(** Lines 328 and 329: [for (i = 0; i < pixels; i++) dst.at<double>(i) =
    src.at<uchar>(i) / 255.0], from [i] on with [n] iterations to go. *)
Fixpoint gray_fill (n i : nat) (src : Raster) (dst : Mat) : option Mat :=
  match n with
  | O => Some dst
  | S n' =>
      match at_uchar src i with
      | None => None
      | Some v => gray_fill n' (S i) src (set_at dst i (inject_Z v / 255.0))
      end
  end.

(** ** The front of [main]: validation and normalisation (lines 250-334) *)

Inductive error : Type :=
| DimensionMismatch         (* lines 250-255 *)
| ImageTooSmall             (* lines 257-260 *)
| ChannelMismatch           (* lines 265-270 *)
| UnsupportedChannelCount.  (* lines 331-334 *)

(** How a run ends: the score is printed and [main] returns 0; one message
    is written to stderr and [main] returns -1; or the run has undefined
    behaviour. *)
Inductive outcome : Type :=
| Printed (s : xdouble)
| Rejected (e : error)
| Undefined.

Section Main.

Context {cv : CvLib}.

(** Lines 302-305. *)
Definition sRGB_gamma_LUT (i : Z) : Q :=
  let c := inject_Z i / 255.0 in
  if Qle_bool c 0.04045 then c / 12.92
  else libm_pow ((c + 0.055) / 1.055) 2.4.

(** Lines 140-157.  Every literal of [rgb2lab] carries the suffix [f]: it
    is the single-precision number nearest to its decimal text, and enters
    the [double] arithmetic with that value.  The rationals below are
    these values, each an integer over a power of two
    ([0.39181818181818181818f] is 13147237 / 2^25 = 0.39181819558...);
    [1.0f / 3.0f] is the single-precision quotient, 11184811 / 2^25. *)
Definition rgb2lab (p : Q * Q * Q) : Q * Q * Q :=
  let '(p0, p1, p2) := p in
  let epsilon := (9509543 # 1073741824) in
  let s := (9256395 # 67108864) in
  let k := (2041325 # 262144) in
  let fx := p2 * (3640121 # 8388608) + p1 * (12623103 # 33554432)
            + p0 * (3184891 # 16777216) in
  let fy := p2 * (14272237 # 67108864) + p1 * (11998263 # 16777216)
            + p0 * (9687165 # 134217728) in
  let fz := p2 * (9531505 # 536870912) + p1 * (14690247 # 134217728)
            + p0 * (14640457 # 16777216) in
  let X := if Qle_bool fx epsilon then k * fx
           else libm_pow fx (11184811 # 33554432) - s in
  let Y := if Qle_bool fy epsilon then k * fy
           else libm_pow fy (11184811 # 33554432) - s in
  let Z := if Qle_bool fz epsilon then k * fz
           else libm_pow fz (11184811 # 33554432) - s in
  (Y * (9730785 # 8388608),
   (13147237 # 33554432) + (9532509 # 4194304) * (X - Y),
   (4114231 # 8388608) + (15252015 # 16777216) * (Y - Z)).

(** Lines 320-321 and 324-325: [rgb2lab] on the first three channels of
    every pixel; a fourth channel is left as it is. *)
Definition lab_all (m : Mat) : Mat :=
  mkMat (rows m) (cols m)
        (fun y x c =>
           let '(l, a, b) := rgb2lab (px m y x 0%nat, px m y x 1%nat, px m y x 2%nat) in
           match c with
           | 0%nat => l
           | 1%nat => a
           | 2%nat => b
           | _ => px m y x c
           end).

(** Lines 250-278: the checks on the decoded pair and the promotion of a
    three-channel image compared with a four-channel one. *)
Definition validate (img1_temp img2_temp : Raster) : error + Raster * Raster :=
  if negb ((r_cols img1_temp =? r_cols img2_temp)%nat
           && (r_rows img1_temp =? r_rows img2_temp)%nat)
  then inl DimensionMismatch
  else if ((r_cols img1_temp <? 8) || (r_rows img1_temp <? 8))%nat
  then inl ImageTooSmall
  else
    let img1_temp_channels := r_channels img1_temp in
    let img2_temp_channels := r_channels img2_temp in
    if negb (img1_temp_channels =? img2_temp_channels)%nat then
      if ((img1_temp_channels <? 3) || (img2_temp_channels <? 3))%nat
      then inl ChannelMismatch
      else
        let img1_temp := if (img1_temp_channels =? 3)%nat
                         then cvtColor_RGB2RGBA img1_temp else img1_temp in
        let img2_temp := if (img2_temp_channels =? 3)%nat
                         then cvtColor_RGB2RGBA img2_temp else img2_temp in
        inr (img1_temp, img2_temp)
    else inr (img1_temp, img2_temp).

(** The result of lines 280-334: the two normalised buffers, an error, or
    undefined behaviour. *)
Inductive normalised : Type :=
| Buffers (img1 img2 : Mat)
| NormError (e : error)
| NormUndefined.

(** Lines 280-334, statement by statement. *)
Definition normalise (img1_temp img2_temp : Raster) : normalised :=
  let nChan := r_channels img1_temp in
  let pixels := (r_rows img1_temp * r_cols img1_temp)%nat in
  let img1_temp := if (nChan =? 4)%nat then blend_gray img1_temp pixels else img1_temp in
  let img2_temp := if (nChan =? 4)%nat then blend_gray img2_temp pixels else img2_temp in
  let img1 := if (1 <? nChan)%nat then LUT img1_temp sRGB_gamma_LUT
              else uninitialised (r_rows img1_temp) (r_cols img1_temp) in
  let img2 := if (1 <? nChan)%nat then LUT img2_temp sRGB_gamma_LUT
              else uninitialised (r_rows img1_temp) (r_cols img1_temp) in
  let img1_temp := release img1_temp in
  let img2_temp := release img2_temp in
  if (nChan =? 3)%nat then Buffers (lab_all img1) (lab_all img2)
  else if (nChan =? 4)%nat then Buffers (lab_all img1) (lab_all img2)
  else if (nChan =? 1)%nat then
    match gray_fill pixels 0 img1_temp img1 with
    | None => NormUndefined
    | Some img1 =>
        match gray_fill pixels 0 img2_temp img2 with
        | None => NormUndefined
        | Some img2 => Buffers img1 img2
        end
    end
  else NormError UnsupportedChannelCount.

(** [main] from line 250 on, given the two decoded images. *)
Definition main (img1_temp img2_temp : Raster) : outcome :=
  match validate img1_temp img2_temp with
  | inl e => Rejected e
  | inr (img1_temp, img2_temp) =>
      match normalise img1_temp img2_temp with
      | NormError e => Rejected e
      | NormUndefined => Undefined
      | Buffers img1 img2 =>
          let nChan := r_channels img1_temp in
          Printed (final_score (snd (multi_scale img1 img2 nChan)))
      end
  end.

End Main.

(** ** The choice of the decoder (ssimx.cpp, lines 238-248)

    [extension = path.substr(path.find_last_of(".") + 1)]: the part after
    the last dot; without a dot [find_last_of] gives [npos], the largest
    [size_t], the addition wraps to 0 and the extension is the whole path.
    [readAvif] is called when the extension is [avif], [imread] otherwise. *)

Section Paths.

Import Ascii String.
Local Open Scope string_scope.

(** [std::string::npos] and [size_t] arithmetic of the x64 builds. *)
Definition npos : Z := (2 ^ 64 - 1)%Z.
Definition size_t (v : Z) : Z := (v mod 2 ^ 64)%Z.

(** The index of the last [ch] of [s], if there is one. *)
Fixpoint last_index (s : string) (ch : ascii) : option nat :=
  match s with
  | EmptyString => None
  | String a r =>
      match last_index r ch with
      | Some i => Some (S i)
      | None => if Ascii.eqb a ch then Some 0%nat else None
      end
  end.

(** [s.find_last_of(ch)] for a one-character argument. *)
Definition find_last_of (s : string) (ch : ascii) : Z :=
  match last_index s ch with
  | Some i => Z.of_nat i
  | None => npos
  end.

Fixpoint drop (n : nat) (s : string) : string :=
  match n, s with
  | O, _ => s
  | S n', String _ r => drop n' r
  | S _, EmptyString => EmptyString
  end.

(** [s.substr(pos)]: from [pos] to the end; [std::out_of_range] is thrown
    when [pos] is past the end, [None] here. *)
Definition substr (s : string) (pos : Z) : option string :=
  if (Z.of_nat (length s) <? pos)%Z then None else Some (drop (Z.to_nat pos) s).

(** Lines 241-242. *)
Definition extension (path : string) : option string :=
  substr path (size_t (find_last_of path "." + 1)).

Inductive reader : Type := ReadAvif | Imread.

(** Lines 244-248, for one of the two paths. *)
Definition reader_for (path : string) : option reader :=
  match extension path with
  | None => None
  | Some e => Some (if String.eqb e "avif" then ReadAvif else Imread)
  end.

Fixpoint has (ch : ascii) (s : string) : bool :=
  match s with
  | EmptyString => false
  | String a r => Ascii.eqb a ch || has ch r
  end.

End Paths.

(** ** A reference implementation of the library primitives

    A rational stand-in for OpenCV, used to run the model on concrete
    images: an 11x11 separable blur whose taps are the Gaussian of sigma 1.5
    rounded to four decimals and normalised, with reflected borders, and a
    resize that averages square blocks. *)

Module Ref.

(** [exp(-d^2 / 4.5)] for [d = -5 .. 5], times 10000 and rounded. *)
Definition kernel : list Z :=
  [39; 286; 1353; 4111; 8007; 10000; 8007; 4111; 1353; 286; 39]%Z.

Definition kernel_sum : Z := fold_right Z.add 0%Z kernel.

(** The taps of the 2-D kernel: weight, row offset, column offset. *)
Definition taps : list (Q * (Z * Z)) :=
  flat_map
    (fun i =>
       map (fun j =>
              (inject_Z (nth i kernel 0%Z * nth j kernel 0%Z)
               / inject_Z (kernel_sum * kernel_sum),
               (Z.of_nat i - 5, Z.of_nat j - 5)%Z))
           (seq 0 11))
    (seq 0 11).

(** [BORDER_REFLECT_101]: [gfedcb|abcdefgh|gfedcba]. *)
Definition reflect101 (n : nat) (p : Z) : nat :=
  if (n <=? 1)%nat then 0%nat
  else
    let period := (2 * Z.of_nat n - 2)%Z in
    let q := (p mod period)%Z in
    Z.to_nat (if (q <? Z.of_nat n)%Z then q else (period - q)%Z).

(** A weighted sum of samples around [(y, x)]. *)
Definition filter (t : list (Q * (Z * Z))) (m : Mat) (y x c : nat) : Q :=
  fold_right
    (fun tap acc =>
       let '(w, (dy, dx)) := tap in
       w * px m (reflect101 (rows m) (Z.of_nat y + dy))
                (reflect101 (cols m) (Z.of_nat x + dx)) c + acc)
    0 t.

(** The program asks for one kernel size and one sigma only; the two
    arguments are not looked at. *)
Definition blur (m : Mat) (k : nat * nat) (s : Q) : Mat :=
  mkMat (rows m) (cols m) (filter taps m).

(** The side of the block one output sample averages: [1 / f], at least 1. *)
Definition block (f : Q) : nat := Nat.max 1 (Z.to_nat (cvRound (/ f))).

Definition area (m : Mat) (f : Q) : Mat :=
  let k := block f in
  mkMat (resize_dim f (rows m)) (resize_dim f (cols m))
        (fun y x c =>
           sumQ k (fun dy => sumQ k (fun dx =>
             px m (Nat.min (y * k + dy) (rows m - 1))
                  (Nat.min (x * k + dx) (cols m - 1)) c))
           / of_nat (k * k)).

(** [pow] is not rational; the stand-in keeps the base.  No property below
    depends on it. *)
Definition pow (x y : Q) : Q := x.

End Ref.

(** ** Notions used to state the properties *)

(** The buffers a valid input pair is normalised to: equal dimensions of at
    least 8 by 8 and one, three or four channels. *)
Definition valid_buffers (img1 img2 : Mat) (nChan : nat) : Prop :=
  (8 <= rows img1)%nat /\ (8 <= cols img1)%nat /\
  rows img2 = rows img1 /\ cols img2 = cols img1 /\
  (nChan = 1 \/ nChan = 3 \/ nChan = 4)%nat.

(** The same for the decoded rasters. *)
Definition valid_input (r1 r2 : Raster) : Prop :=
  well_formed r1 /\ well_formed r2 /\
  r_rows r2 = r_rows r1 /\ r_cols r2 = r_cols r1 /\
  r_channels r2 = r_channels r1 /\
  (8 <= r_rows r1)%nat /\ (8 <= r_cols r1)%nat /\
  (r_channels r1 = 1 \/ r_channels r1 = 3 \/ r_channels r1 = 4)%nat.

(** The number of loop iterations as a function of the dimensions alone:
    [left] bounds it, and it stops at the first halving that leaves a
    dimension below 8. *)
Fixpoint scales_from (left r c : nat) : nat :=
  match left with
  | O => O
  | S left' =>
      if ((c <? 8) || (r <? 8))%nat then O
      else S (scales_from left' (resize_dim 0.5 r) (resize_dim 0.5 c))
  end.

Definition scales_for (r c : nat) : nat := scales_from 6 r c.

(** The weight one iteration at [scale] adds to [score_max]. *)
Definition scale_weight (nChan scale : nat) : Q :=
  sumQ nChan (fun i => (if (0 <? i)%nat then chroma_weight else 1.0)
                       * idx2 scale_weights i scale)
  + sumQ nChan (fun i => idx1 min_weight i * idx2 mscale_weights i scale).

(** The weight the edge and grid detectors add at scale 0. *)
Definition detector_weight (nChan : nat) : Q :=
  sumQ nChan (idx1 extra_edges_weight)
  + (sumQ nChan (idx2 worst_grid_weight 1) + sumQ nChan (idx2 worst_grid_weight 1))
  + (sumQ nChan (idx2 worst_grid_weight 0) + sumQ nChan (idx2 worst_grid_weight 0)).

(** The whole of [score_max] after [n] iterations. *)
Definition total_weight (nChan n : nat) : Q :=
  match n with
  | O => 0
  | S _ => detector_weight nChan + sumQ n (scale_weight nChan)
  end.

(** [score] and [score_max] agree. *)
Definition balanced (a : Acc) : Prop := score a == score_max a.

(** [n / 50] rounded up. *)
Definition ceil50 (n : nat) : nat := ((n + 49) / 50)%nat.

(** Equality of two optional doubles. *)
Definition opt_eqv (a b : option Q) : Prop :=
  match a, b with
  | Some u, Some v => u == v
  | None, None => True
  | _, _ => False
  end.

(** What an optional double adds to a sum: nothing when it is absent. *)
Definition or_zero (o : option Q) : Q :=
  match o with
  | Some v => v
  | None => 0
  end.

(** The value [grid_artifacts] weighs for the rows (columns) of channel
    [i]: where the scan of the ascending multiset stops. *)
Definition worst_row (errormap : Mat) (i : nat) : option Q :=
  stop_at 0 (rows errormap / 50) (ms_of (row_means errormap i)).

Definition worst_col (errormap : Mat) (i : nat) : option Q :=
  stop_at 0 (cols errormap / 50) (ms_of (col_means errormap i)).

(** The element of rank [r] of an ascending list, counting from one. *)
Definition rank_from_1 (r : nat) (s : list Q) : option Q :=
  match r with
  | O => None
  | S k => nth_error s k
  end.

(** The same, counting from zero. *)
Definition rank_from_0 (r : nat) (s : list Q) : option Q := nth_error s r.

(** A 50 by 8 map whose row averages and column averages are all
    different: sample [(y, x)] is [y + 100 x] in every channel. *)
Definition ramp_50x8 : Mat :=
  mkMat 50 8 (fun y x _ => of_nat y + 100 * of_nat x).

(** A flat raster: every sample is [v]. *)
Definition flat_raster (r c ch : nat) (v : Z) : Raster :=
  mkRaster r c ch (repeat (repeat v ch) (r * c)).

(** A raster whose pixels are all [p]. *)
Definition tiled_raster (r c : nat) (p : list Z) : Raster :=
  mkRaster r c (length p) (repeat p (r * c)).

(** A flat buffer. *)
Definition flat_mat (r c : nat) (v : Q) : Mat := mkMat r c (fun _ _ _ => v).

(** The size of a dimension [n] at scale [s]. *)
Definition dim_at (s n : nat) : nat := Nat.iter s (resize_dim 0.5) n.

(** The buffer of scale [s]: the input halved [s] times. *)
Definition pyramid {cv : CvLib} (img : Mat) (s : nat) : Mat :=
  Nat.iter s (fun m => resize m 0.5) img.

(** What one iteration at [scale] adds to [score_max]. *)
Definition iteration_weight (nChan scale : nat) : Q :=
  (if (scale =? 0)%nat then detector_weight nChan else 0) + scale_weight nChan scale.

(** [score_max / score - 1] with a negative value raised to 0 and a value
    above 1 lowered to 1. *)
Definition clamped_ratio (a : Acc) : Q :=
  Qmax 0 (Qmin 1 (score_max a / score a - 1)).

(** The value printed is [v]. *)
Definition prints (a : Acc) (v : Q) : Prop :=
  exists q, final_score a = Finite q /\ q == v.

(** The channel count [main] works with: that of the first image after a
    three-channel image has been promoted against a different count. *)
Definition final_channels (r1 r2 : Raster) : nat :=
  if (negb (r_channels r1 =? r_channels r2) && (r_channels r1 =? 3))%nat
  then 4%nat else r_channels r1.

(** The pair passes the checks of lines 250-270. *)
Definition accepted (r1 r2 : Raster) : Prop :=
  r_cols r1 = r_cols r2 /\ r_rows r1 = r_rows r2 /\
  (8 <= r_cols r1)%nat /\ (8 <= r_rows r1)%nat /\
  (r_channels r1 = r_channels r2 \/
   (3 <= r_channels r1)%nat /\ (3 <= r_channels r2)%nat).

(** [score] is not above [score_max]. *)
Definition bounded (a : Acc) : Prop := score a <= score_max a.

(** Every sample of channel [c] inside the matrix is at most [v]. *)
Definition at_most (m : Mat) (c : nat) (v : Q) : Prop :=
  forall y x, (y < rows m)%nat -> (x < cols m)%nat -> px m y x c <= v.

(** What [cvRound (n * 0.5)] comes to. *)
Definition half (n : nat) : nat :=
  if (n mod 4 =? 3)%nat then (n / 2 + 1)%nat else (n / 2)%nat.

(** The smallest dimension that is good for 1, 2, ..., 6 scales. *)
Definition thresholds : list nat := [8; 15; 30; 59; 118; 235]%nat.

Definition scales_of (n : nat) : nat :=
  length (filter (fun t => (t <=? n)%nat) thresholds).

(** The loop counter on one dimension. *)
Fixpoint count_halvings (left n : nat) : nat :=
  match left with
  | O => O
  | S left' => if (n <? 8)%nat then O else S (count_halvings left' (half n))
  end.

(** ** Sums, averages and minima *)

Lemma sumQ_ext (n : nat) (f g : nat -> Q) :
  (forall i, (i < n)%nat -> f i == g i) -> sumQ n f == sumQ n g.
Proof.
  induction n as [|n IH]; intros H; simpl.
  - reflexivity.
  - rewrite IH by (intros; apply H; lia). rewrite (H n) by lia. reflexivity.
Qed.

Lemma of_nat_S (n : nat) : of_nat (S n) == of_nat n + 1.
Proof.
  unfold of_nat. rewrite Nat2Z.inj_succ, <- Z.add_1_r, inject_Z_plus. reflexivity.
Qed.

Lemma of_nat_pos (n : nat) : (0 < n)%nat -> 0 < of_nat n.
Proof.
  intros H. unfold of_nat. change 0 with (inject_Z 0).
  rewrite <- Zlt_Qlt. lia.
Qed.

Lemma of_nat_mult (a b : nat) : of_nat (a * b) == of_nat a * of_nat b.
Proof. unfold of_nat. rewrite Nat2Z.inj_mul, inject_Z_mult. reflexivity. Qed.

Lemma sumQ_const (n : nat) (f : nat -> Q) (v : Q) :
  (forall i, (i < n)%nat -> f i == v) -> sumQ n f == of_nat n * v.
Proof.
  induction n as [|n IH]; intros H.
  - simpl. unfold of_nat. simpl. ring.
  - simpl sumQ. rewrite IH by (intros; apply H; lia).
    rewrite (H n) by lia. rewrite of_nat_S. ring.
Qed.

Lemma mean_uniform (m : Mat) (c : nat) (v : Q) :
  uniform m c v -> (0 < rows m)%nat -> (0 < cols m)%nat -> mean m c == v.
Proof.
  intros U Hr Hc. unfold mean.
  rewrite (sumQ_const (rows m) _ (of_nat (cols m) * v)).
  - rewrite of_nat_mult. field.
    split; intro E; [pose proof (of_nat_pos _ Hc) | pose proof (of_nat_pos _ Hr)];
      rewrite E in *; lra.
  - intros y Hy. apply sumQ_const. intros x Hx. apply U; assumption.
Qed.

Lemma uniform_roi (m : Mat) (c : nat) (v : Q) (x0 y0 w h : nat) :
  uniform m c v -> (y0 + h <= rows m)%nat -> (x0 + w <= cols m)%nat ->
  uniform (roi m x0 y0 w h) c v.
Proof.
  intros U Hh Hw y x Hy Hx. simpl in *. apply U; lia.
Qed.

Lemma fold_min_all (l : list Q) (v0 v : Q) :
  v0 == v -> Forall (fun u => u == v) l -> fold_left Qmin l v0 == v.
Proof.
  revert v0. induction l as [|u l IH]; intros v0 H0 HF; simpl.
  - assumption.
  - inversion HF as [|? ? Hu Hl]; subst. apply IH; [|assumption].
    rewrite H0, Hu. apply Q.min_id.
Qed.

Lemma samples_uniform (m : Mat) (c : nat) (v : Q) :
  uniform m c v -> Forall (fun u => u == v) (samples m c).
Proof.
  intros U. unfold samples. apply Forall_flat_map. apply Forall_forall.
  intros y Hy. apply in_seq in Hy. apply Forall_map. apply Forall_forall.
  intros x Hx. apply in_seq in Hx. apply U; lia.
Qed.

Lemma samples_nonempty (m : Mat) (c : nat) :
  (0 < rows m)%nat -> (0 < cols m)%nat -> samples m c <> [].
Proof.
  intros Hr Hc. unfold samples.
  destruct (rows m) as [|r]; [lia|]. destruct (cols m) as [|k]; [lia|].
  simpl. discriminate.
Qed.

Lemma minVal_uniform (m : Mat) (c : nat) (v : Q) :
  uniform m c v -> (0 < rows m)%nat -> (0 < cols m)%nat -> minVal m c == v.
Proof.
  intros U Hr Hc. unfold minVal.
  pose proof (samples_uniform m c v U) as HF.
  pose proof (samples_nonempty m c Hr Hc) as HN.
  destruct (samples m c) as [|u l]; [congruence|].
  inversion HF as [|? ? Hu Hl]; subst. apply fold_min_all; assumption.
Qed.

(** ** The multiset and the scan of [grid_artifacts] *)

Lemma ms_insert_perm (v : Q) (s : list Q) : Permutation (ms_insert v s) (v :: s).
Proof.
  induction s as [|h t IH]; simpl.
  - apply Permutation_refl.
  - destruct (Qlt_le_dec v h).
    + apply Permutation_refl.
    + eapply perm_trans; [apply perm_skip, IH | apply perm_swap].
Qed.

Lemma ms_insert_hd (v a : Q) (s : list Q) :
  HdRel Qle a s -> a <= v -> HdRel Qle a (ms_insert v s).
Proof.
  intros H Hav. destruct s as [|h t]; simpl.
  - constructor. assumption.
  - destruct (Qlt_le_dec v h); constructor; [assumption|].
    inversion H; assumption.
Qed.

Lemma ms_insert_sorted (v : Q) (s : list Q) :
  Sorted Qle s -> Sorted Qle (ms_insert v s).
Proof.
  induction 1 as [|h t Hs IH Hh]; simpl.
  - repeat constructor.
  - destruct (Qlt_le_dec v h) as [Hlt|Hle].
    + constructor; [constructor; assumption|]. constructor.
      apply Qlt_le_weak. assumption.
    + constructor; [assumption|]. apply ms_insert_hd; assumption.
Qed.

Lemma ms_fold_perm (l acc : list Q) :
  Permutation (fold_left (fun s v => ms_insert v s) l acc) (l ++ acc).
Proof.
  revert acc. induction l as [|v l IH]; intros acc; simpl.
  - apply Permutation_refl.
  - eapply perm_trans; [apply IH|].
    eapply perm_trans; [apply Permutation_app_head, ms_insert_perm|].
    apply Permutation_sym, Permutation_middle.
Qed.

Lemma ms_fold_sorted (l acc : list Q) :
  Sorted Qle acc -> Sorted Qle (fold_left (fun s v => ms_insert v s) l acc).
Proof.
  revert acc. induction l as [|v l IH]; intros acc H; simpl.
  - assumption.
  - apply IH, ms_insert_sorted, H.
Qed.

(** The multiset holds exactly the inserted averages, in ascending order. *)
Lemma ms_of_perm (l : list Q) : Permutation (ms_of l) l.
Proof.
  unfold ms_of. eapply perm_trans; [apply ms_fold_perm|].
  rewrite app_nil_r. apply Permutation_refl.
Qed.

Lemma ms_of_sorted (l : list Q) : Sorted Qle (ms_of l).
Proof. apply ms_fold_sorted. constructor. Qed.

Lemma ms_of_length (l : list Q) : length (ms_of l) = length l.
Proof. apply Permutation_length, ms_of_perm. Qed.

Lemma ms_of_Forall (P : Q -> Prop) (l : list Q) : Forall P l -> Forall P (ms_of l).
Proof.
  intros H. eapply Permutation_Forall; [apply Permutation_sym, ms_of_perm | exact H].
Qed.

(** The scan stops at the element of index [limit], counted from zero. *)
Lemma stop_at_nth_error (k limit : nat) (s : list Q) :
  (k <= limit)%nat -> stop_at k limit s = nth_error s (limit - k).
Proof.
  revert k. induction s as [|v t IH]; intros k Hk; simpl.
  - destruct (limit - k)%nat; reflexivity.
  - destruct (Nat.leb_spec limit k) as [Hle|Hlt].
    + replace (limit - k)%nat with 0%nat by lia. reflexivity.
    + rewrite IH by lia. destruct (limit - k)%nat as [|d] eqn:E; [lia|].
      simpl. f_equal. lia.
Qed.

Lemma stop_at_0 (limit : nat) (s : list Q) : stop_at 0 limit s = nth_error s limit.
Proof. rewrite stop_at_nth_error by lia. f_equal. lia. Qed.

Lemma div50_lt (n : nat) : (0 < n)%nat -> (n / 50 < n)%nat.
Proof. intros H. apply Nat.div_lt; lia. Qed.

Lemma row_means_length (m : Mat) (i : nat) : length (row_means m i) = rows m.
Proof. unfold row_means. rewrite length_map, length_seq. reflexivity. Qed.

Lemma col_means_length (m : Mat) (i : nat) : length (col_means m i) = cols m.
Proof. unfold col_means. rewrite length_map, length_seq. reflexivity. Qed.

(** With at least one row the scan always stops, at index [rows / 50]. *)
Lemma worst_row_nth (m : Mat) (i : nat) :
  (0 < rows m)%nat ->
  worst_row m i = Some (nth (rows m / 50) (ms_of (row_means m i)) 0).
Proof.
  intros H. unfold worst_row. rewrite stop_at_0.
  apply nth_error_nth'. rewrite ms_of_length, row_means_length.
  apply div50_lt, H.
Qed.

Lemma worst_col_nth (m : Mat) (i : nat) :
  (0 < cols m)%nat ->
  worst_col m i = Some (nth (cols m / 50) (ms_of (col_means m i)) 0).
Proof.
  intros H. unfold worst_col. rewrite stop_at_0.
  apply nth_error_nth'. rewrite ms_of_length, col_means_length.
  apply div50_lt, H.
Qed.

(** ** Loops over the channels *)

Lemma for_chan_S (n : nat) (body : nat -> Acc -> Acc) (a : Acc) :
  for_chan (S n) body a = body n (for_chan n body a).
Proof.
  unfold for_chan. rewrite seq_S, fold_left_app. reflexivity.
Qed.

(** A property kept by every iteration is kept by the loop. *)
Lemma for_chan_inv (P : Acc -> Prop) (n : nat) (body : nat -> Acc -> Acc) (a : Acc) :
  (forall i b, (i < n)%nat -> P b -> P (body i b)) -> P a -> P (for_chan n body a).
Proof.
  induction n as [|n IH]; intros H Ha.
  - exact Ha.
  - rewrite for_chan_S. apply H; [lia|]. apply IH; [|exact Ha].
    intros i b Hi. apply H. lia.
Qed.

(** A loop whose iteration [i] adds [ds i] to [score] and [dm i] to
    [score_max] adds their sums. *)
Lemma for_chan_sums (n : nat) (body : nat -> Acc -> Acc) (ds dm : nat -> Q) (a : Acc) :
  (forall i b, (i < n)%nat ->
     score (body i b) == score b + ds i /\ score_max (body i b) == score_max b + dm i) ->
  score (for_chan n body a) == score a + sumQ n ds /\
  score_max (for_chan n body a) == score_max a + sumQ n dm.
Proof.
  induction n as [|n IH]; intros H.
  - unfold for_chan. simpl. split; ring.
  - rewrite for_chan_S. destruct (H n (for_chan n body a)) as [Hs Hm]; [lia|].
    destruct IH as [IHs IHm]; [intros i b Hi; apply H; lia|].
    rewrite Hs, Hm, IHs, IHm. simpl. split; ring.
Qed.

Lemma grid_channel_spec (twice n : nat) (set : list Q) (i : nat) (a : Acc) :
  (n / 50 < length set)%nat ->
  score (grid_channel twice n set i a)
    == score a + idx2 worst_grid_weight twice i * nth (n / 50) set 0 /\
  score_max (grid_channel twice n set i a)
    == score_max a + idx2 worst_grid_weight twice i.
Proof.
  intros H. unfold grid_channel. rewrite stop_at_0.
  rewrite (nth_error_nth' set 0 H). simpl. split; reflexivity.
Qed.

(** ** The rank [grid_artifacts] selects *)

Lemma grid_channel_any (twice n : nat) (set : list Q) (i : nat) (a : Acc) :
  score (grid_channel twice n set i a)
    == score a + idx2 worst_grid_weight twice i * or_zero (nth_error set (n / 50)) /\
  score_max (grid_channel twice n set i a)
    == score_max a + idx2 worst_grid_weight twice i.
Proof.
  unfold grid_channel. rewrite stop_at_0.
  destruct (nth_error set (n / 50)); simpl; split; ring.
Qed.

(** C3, as the code has it.  For every map and every channel [i]: the row
    averages are held in ascending order (a sorted permutation of them),
    the value weighed by [worst_grid_weight[twice][i]] is the element at
    zero-based position [rows / 50] (integer division, so rank
    [rows / 50 + 1] counting from one), which exists as soon as the map has
    a row, the columns are treated the same way with [cols / 50], and
    these values are what [score] receives while [score_max] receives the
    weights. *)
Theorem grid_artifacts_rank (errormap : Mat) (nChan : nat) (a : Acc) (twice : nat) :
  (forall i,
     Sorted Qle (ms_of (row_means errormap i)) /\
     Permutation (ms_of (row_means errormap i)) (row_means errormap i) /\
     worst_row errormap i = nth_error (ms_of (row_means errormap i)) (rows errormap / 50) /\
     ((0 < rows errormap)%nat ->
      worst_row errormap i
      = Some (nth (rows errormap / 50) (ms_of (row_means errormap i)) 0))) /\
  (forall i,
     Sorted Qle (ms_of (col_means errormap i)) /\
     Permutation (ms_of (col_means errormap i)) (col_means errormap i) /\
     worst_col errormap i = nth_error (ms_of (col_means errormap i)) (cols errormap / 50) /\
     ((0 < cols errormap)%nat ->
      worst_col errormap i
      = Some (nth (cols errormap / 50) (ms_of (col_means errormap i)) 0))) /\
  score (grid_artifacts errormap nChan a twice)
    == score a
       + sumQ nChan (fun i => idx2 worst_grid_weight twice i
                              * or_zero (worst_row errormap i))
       + sumQ nChan (fun i => idx2 worst_grid_weight twice i
                              * or_zero (worst_col errormap i)) /\
  score_max (grid_artifacts errormap nChan a twice)
    == score_max a + sumQ nChan (idx2 worst_grid_weight twice)
       + sumQ nChan (idx2 worst_grid_weight twice).
Proof.
  split; [|split].
  - intros i. split; [apply ms_of_sorted|]. split; [apply ms_of_perm|].
    split; [apply stop_at_0 | apply worst_row_nth].
  - intros i. split; [apply ms_of_sorted|]. split; [apply ms_of_perm|].
    split; [apply stop_at_0 | apply worst_col_nth].
  - unfold grid_artifacts, worst_row, worst_col.
    set (a1 := for_chan nChan _ a).
    destruct (for_chan_sums nChan
                (fun i => grid_channel twice (cols errormap)
                            (ms_of (col_means errormap i)) i)
                (fun i => idx2 worst_grid_weight twice i
                          * or_zero (stop_at 0 (cols errormap / 50)
                                       (ms_of (col_means errormap i))))
                (idx2 worst_grid_weight twice) a1) as [Hs Hm].
    { intros i b _. rewrite stop_at_0. apply grid_channel_any. }
    destruct (for_chan_sums nChan
                (fun i => grid_channel twice (rows errormap)
                            (ms_of (row_means errormap i)) i)
                (fun i => idx2 worst_grid_weight twice i
                          * or_zero (stop_at 0 (rows errormap / 50)
                                       (ms_of (row_means errormap i))))
                (idx2 worst_grid_weight twice) a) as [Hs1 Hm1].
    { intros i b _. rewrite stop_at_0. apply grid_channel_any. }
    fold a1 in Hs1, Hm1. rewrite Hs, Hm, Hs1, Hm1. split; reflexivity.
Qed.

(** C3, as the claim has it, fails.  On the 50 by 8 ramp the code weighs the
    second smallest row average (351) and the smallest column average
    (49/2), [score] becoming 751/2.  The element of rank [ceil(n / 50)] is
    the smallest row average (350) when ranks count from one, and the
    second smallest column average (249/2) when they count from zero:
    under either reading rows or columns differ from the code. *)
Lemma grid_rank_ceiling_counterexample :
  score (grid_artifacts ramp_50x8 1 (mkAcc 0 0) 0) == 751 # 2 /\
  opt_eqv (worst_row ramp_50x8 0) (Some 351) /\
  opt_eqv (worst_col ramp_50x8 0) (Some (49 # 2)) /\
  opt_eqv (rank_from_1 (ceil50 (rows ramp_50x8)) (ms_of (row_means ramp_50x8 0)))
          (Some 350) /\
  opt_eqv (rank_from_0 (ceil50 (cols ramp_50x8)) (ms_of (col_means ramp_50x8 0)))
          (Some (249 # 2)) /\
  ~ (opt_eqv (worst_row ramp_50x8 0)
             (rank_from_1 (ceil50 (rows ramp_50x8)) (ms_of (row_means ramp_50x8 0))) /\
     opt_eqv (worst_col ramp_50x8 0)
             (rank_from_1 (ceil50 (cols ramp_50x8)) (ms_of (col_means ramp_50x8 0)))) /\
  ~ (opt_eqv (worst_row ramp_50x8 0)
             (rank_from_0 (ceil50 (rows ramp_50x8)) (ms_of (row_means ramp_50x8 0))) /\
     opt_eqv (worst_col ramp_50x8 0)
             (rank_from_0 (ceil50 (cols ramp_50x8)) (ms_of (col_means ramp_50x8 0)))).
Proof.
  repeat split; try (vm_compute; reflexivity).
  - intros [H _]. vm_compute in H. discriminate H.
  - intros [_ H]. vm_compute in H. discriminate H.
Qed.

(** ** Blending against mid-gray (lines 283-297) *)

Lemma blend_sample_exact (alpha c : Z) :
  (0 <= alpha < 256)%Z -> (0 <= c < 256)%Z ->
  blend_sample alpha c = ((alpha * c + (255 - alpha) * 128) / 255)%Z /\
  (0 <= blend_sample alpha c < 256)%Z.
Proof.
  intros Ha Hc. unfold blend_sample, to_uchar.
  assert (H0 : (0 <= alpha * c + (255 - alpha) * 128)%Z) by nia.
  assert (H1 : (alpha * c + (255 - alpha) * 128 <= 255 * 255)%Z) by nia.
  rewrite Z.quot_div_nonneg by lia.
  assert (H2 : (0 <= (alpha * c + (255 - alpha) * 128) / 255 <= 255)%Z).
  { split; [apply Z.div_pos; lia|].
    apply Z.div_le_upper_bound; lia. }
  rewrite Z.mod_small by lia. split; [reflexivity | lia].
Qed.

Lemma blend_sample_opaque (c : Z) : (0 <= c < 256)%Z -> blend_sample 255 c = c.
Proof.
  intros Hc. destruct (blend_sample_exact 255 c) as [E _]; [lia | exact Hc |].
  rewrite E. replace (255 * c + (255 - 255) * 128)%Z with (c * 255)%Z by lia.
  apply Z.div_mul. lia.
Qed.

Lemma blend_gray_data (r : Raster) :
  well_formed r ->
  r_data (blend_gray r (r_rows r * r_cols r)) = map blend_pixel (r_data r).
Proof.
  intros [Hlen _]. unfold blend_gray. simpl.
  rewrite <- Hlen, firstn_all, skipn_all, app_nil_r. reflexivity.
Qed.

Lemma well_formed_pixel4 (r : Raster) (i : nat) (p : list Z) :
  well_formed r -> r_channels r = 4%nat -> nth_error (r_data r) i = Some p ->
  exists c0 c1 c2 alpha,
    p = [c0; c1; c2; alpha] /\
    (0 <= c0 < 256)%Z /\ (0 <= c1 < 256)%Z /\ (0 <= c2 < 256)%Z /\
    (0 <= alpha < 256)%Z.
Proof.
  intros [_ HF] Hch Hp. apply nth_error_In in Hp.
  rewrite Forall_forall in HF. destruct (HF p Hp) as [Hl Hs].
  rewrite Hch in Hl.
  destruct p as [|c0 [|c1 [|c2 [|alpha [|? ?]]]]]; try discriminate Hl.
  exists c0, c1, c2, alpha.
  inversion Hs as [|? ? H0 Hs1]; subst.
  inversion Hs1 as [|? ? H1 Hs2]; subst.
  inversion Hs2 as [|? ? H2 Hs3]; subst.
  inversion Hs3 as [|? ? H3 Hs4]; subst.
  repeat split; lia.
Qed.

Section Blend.

Context {cv : CvLib}.

(** C8.  With four channels, both images are blended before the gamma
    look-up; in either image the three colour samples [c] of every pixel
    become [(alpha * c + (255 - alpha) * 128) / 255] with the pixel's own
    alpha, an exact integer quotient that is again a byte, the alpha sample
    stays, and an opaque pixel is left as it was. *)
Theorem alpha_blend (img1_temp img2_temp : Raster) :
  well_formed img1_temp -> well_formed img2_temp ->
  r_rows img2_temp = r_rows img1_temp -> r_cols img2_temp = r_cols img1_temp ->
  r_channels img1_temp = 4%nat -> r_channels img2_temp = 4%nat ->
  let pixels := (r_rows img1_temp * r_cols img1_temp)%nat in
  normalise img1_temp img2_temp
    = Buffers (lab_all (LUT (blend_gray img1_temp pixels) sRGB_gamma_LUT))
              (lab_all (LUT (blend_gray img2_temp pixels) sRGB_gamma_LUT)) /\
  forall r, r = img1_temp \/ r = img2_temp ->
  forall i p, nth_error (r_data r) i = Some p ->
  exists c0 c1 c2 alpha,
    p = [c0; c1; c2; alpha] /\
    nth_error (r_data (blend_gray r pixels)) i
      = Some [ ((alpha * c0 + (255 - alpha) * 128) / 255)%Z;
               ((alpha * c1 + (255 - alpha) * 128) / 255)%Z;
               ((alpha * c2 + (255 - alpha) * 128) / 255)%Z;
               alpha ] /\
    (0 <= (alpha * c0 + (255 - alpha) * 128) / 255 < 256)%Z /\
    (0 <= (alpha * c1 + (255 - alpha) * 128) / 255 < 256)%Z /\
    (0 <= (alpha * c2 + (255 - alpha) * 128) / 255 < 256)%Z /\
    (alpha = 255%Z -> nth_error (r_data (blend_gray r pixels)) i = Some p).
Proof.
  intros W1 W2 Hr Hc Ch1 Ch2 pixels. split.
  - unfold normalise. rewrite Ch1. reflexivity.
  - intros r Hsel i p Hp.
    assert (Wr : well_formed r) by (destruct Hsel; subst; assumption).
    assert (Cr : r_channels r = 4%nat) by (destruct Hsel; subst; assumption).
    assert (Hpix : pixels = (r_rows r * r_cols r)%nat).
    { destruct Hsel; subst r; unfold pixels; [reflexivity|]. rewrite Hr, Hc. reflexivity. }
    destruct (well_formed_pixel4 r i p Wr Cr Hp)
      as (c0 & c1 & c2 & alpha & -> & H0 & H1 & H2 & Ha).
    destruct (blend_sample_exact alpha c0 Ha H0) as [E0 B0].
    destruct (blend_sample_exact alpha c1 Ha H1) as [E1 B1].
    destruct (blend_sample_exact alpha c2 Ha H2) as [E2 B2].
    assert (Hb : nth_error (r_data (blend_gray r pixels)) i
                 = Some [blend_sample alpha c0; blend_sample alpha c1;
                         blend_sample alpha c2; alpha]).
    { rewrite Hpix, (blend_gray_data r Wr), nth_error_map, Hp. reflexivity. }
    exists c0, c1, c2, alpha. split; [reflexivity|].
    rewrite <- E0, <- E1, <- E2. repeat split; try assumption; try lia.
    intros ->. rewrite Hb, !blend_sample_opaque by assumption. reflexivity.
Qed.

End Blend.

(** ** Rejected inputs (lines 250-278 and 331-334) *)

Section Front.

Context {cv : CvLib}.

Lemma validate_same_channels (a b : Raster) :
  r_cols a = r_cols b -> r_rows a = r_rows b ->
  (8 <= r_cols a)%nat -> (8 <= r_rows a)%nat ->
  r_channels a = r_channels b ->
  validate a b = inr (a, b).
Proof.
  intros Hc Hr H8c H8r Hch. unfold validate.
  rewrite Hc, Hr, !Nat.eqb_refl. simpl.
  rewrite <- Hc, <- Hr.
  destruct (Nat.ltb_spec (r_cols a) 8); [lia|].
  destruct (Nat.ltb_spec (r_rows a) 8); [lia|]. simpl.
  rewrite Hch, Nat.eqb_refl. reflexivity.
Qed.

Lemma normalise_unsupported (a b : Raster) :
  r_channels a <> 1%nat -> r_channels a <> 3%nat -> r_channels a <> 4%nat ->
  normalise a b = NormError UnsupportedChannelCount.
Proof.
  intros H1 H3 H4. unfold normalise.
  destruct (Nat.eqb_spec (r_channels a) 4); [contradiction|].
  destruct (Nat.eqb_spec (r_channels a) 3); [contradiction|].
  destruct (Nat.eqb_spec (r_channels a) 1); [contradiction|].
  reflexivity.
Qed.

(** C6.  The checks are made in this order and the first that fails ends
    the run with its one error: different width or height; then a width or
    height below 8; then different channel counts with fewer than three on
    one side; then, after the promotion of a three-channel image, a channel
    count that is not 1, 3 or 4.  The first three leave [main] in
    [validate], the last in [normalise]: the scoring loop is not entered
    and no score is printed. *)
Theorem rejected_inputs (img1_temp img2_temp : Raster) :
  let w1 := r_cols img1_temp in
  let h1 := r_rows img1_temp in
  let c1 := r_channels img1_temp in
  let w2 := r_cols img2_temp in
  let h2 := r_rows img2_temp in
  let c2 := r_channels img2_temp in
  let nChan := if (negb (c1 =? c2) && (c1 =? 3))%nat then 4%nat else c1 in
  (w1 <> w2 \/ h1 <> h2 ->
   validate img1_temp img2_temp = inl DimensionMismatch /\
   main img1_temp img2_temp = Rejected DimensionMismatch) /\
  (w1 = w2 -> h1 = h2 -> (w1 < 8)%nat \/ (h1 < 8)%nat ->
   validate img1_temp img2_temp = inl ImageTooSmall /\
   main img1_temp img2_temp = Rejected ImageTooSmall) /\
  (w1 = w2 -> h1 = h2 -> (8 <= w1)%nat -> (8 <= h1)%nat ->
   c1 <> c2 -> (c1 < 3)%nat \/ (c2 < 3)%nat ->
   validate img1_temp img2_temp = inl ChannelMismatch /\
   main img1_temp img2_temp = Rejected ChannelMismatch) /\
  (w1 = w2 -> h1 = h2 -> (8 <= w1)%nat -> (8 <= h1)%nat ->
   c1 = c2 \/ (3 <= c1)%nat /\ (3 <= c2)%nat ->
   nChan <> 1%nat -> nChan <> 3%nat -> nChan <> 4%nat ->
   (exists a b, validate img1_temp img2_temp = inr (a, b) /\
                r_channels a = nChan /\
                normalise a b = NormError UnsupportedChannelCount) /\
   main img1_temp img2_temp = Rejected UnsupportedChannelCount) /\
  (forall e, main img1_temp img2_temp = Rejected e ->
             forall s, main img1_temp img2_temp <> Printed s).
Proof.
  intros w1 h1 c1 w2 h2 c2 nChan.
  split; [|split; [|split; [|split]]].
  - intros Hd.
    assert (E : validate img1_temp img2_temp = inl DimensionMismatch).
    { unfold validate. fold w1 h1 w2 h2.
      destruct (Nat.eqb_spec w1 w2); destruct (Nat.eqb_spec h1 h2);
        simpl; try reflexivity. destruct Hd; contradiction. }
    split; [exact E|]. unfold main. rewrite E. reflexivity.
  - intros Hw Hh Hs.
    assert (E : validate img1_temp img2_temp = inl ImageTooSmall).
    { unfold validate. fold w1 h1 w2 h2.
      rewrite <- Hw, <- Hh, !Nat.eqb_refl. simpl.
      destruct (Nat.ltb_spec w1 8); destruct (Nat.ltb_spec h1 8);
        simpl; try reflexivity. lia. }
    split; [exact E|]. unfold main. rewrite E. reflexivity.
  - intros Hw Hh H8w H8h Hc Hlt.
    assert (E : validate img1_temp img2_temp = inl ChannelMismatch).
    { unfold validate. fold w1 h1 w2 h2 c1 c2.
      rewrite <- Hw, <- Hh, !Nat.eqb_refl. simpl.
      destruct (Nat.ltb_spec w1 8); [lia|].
      destruct (Nat.ltb_spec h1 8); [lia|]. simpl.
      destruct (Nat.eqb_spec c1 c2); [contradiction|]. simpl.
      destruct (Nat.ltb_spec c1 3); destruct (Nat.ltb_spec c2 3);
        simpl; try reflexivity. lia. }
    split; [exact E|]. unfold main. rewrite E. reflexivity.
  - intros Hw Hh H8w H8h Hc N1 N3 N4.
    assert (E : exists a b, validate img1_temp img2_temp = inr (a, b) /\
                            r_channels a = nChan).
    { unfold validate. fold w1 h1 w2 h2 c1 c2.
      rewrite <- Hw, <- Hh, !Nat.eqb_refl. simpl.
      destruct (Nat.ltb_spec w1 8); [lia|].
      destruct (Nat.ltb_spec h1 8); [lia|]. simpl.
      unfold nChan.
      destruct (Nat.eqb_spec c1 c2) as [Heq|Hne]; simpl.
      - eexists _, _. split; reflexivity.
      - destruct Hc as [Hc|[Hc1 Hc2]]; [contradiction|].
        destruct (Nat.ltb_spec c1 3); [lia|].
        destruct (Nat.ltb_spec c2 3); [lia|]. simpl.
        destruct (Nat.eqb_spec c1 3); eexists _, _; split; reflexivity. }
    destruct E as (a & b & E & Ha).
    assert (En : normalise a b = NormError UnsupportedChannelCount)
      by (apply normalise_unsupported; rewrite Ha; assumption).
    split.
    + exists a, b. repeat split; assumption.
    + unfold main. rewrite E, En. reflexivity.
  - intros e He s Hs. rewrite He in Hs. discriminate Hs.
Qed.

(** ** Grayscale inputs (lines 311-316 and 327-330) *)

Lemma gray_fill_released (n i : nat) (src : Raster) (dst : Mat) :
  (0 < n)%nat -> gray_fill n i (release src) dst = None.
Proof.
  intros H. destruct n as [|n]; [lia|]. simpl.
  unfold at_uchar. simpl. destruct i; reflexivity.
Qed.

(** C7 fails on the code.  For every valid one-channel pair the buffers
    [img1_temp] and [img2_temp] are released (lines 315-316) before the
    loop of line 328 reads them: the first read, of pixel 0, is a read
    through a released matrix, so no buffer holding sample/255 is handed
    on and no score is printed. *)
Theorem grayscale_reads_released_buffer (img1_temp img2_temp : Raster) :
  valid_input img1_temp img2_temp -> r_channels img1_temp = 1%nat ->
  normalise img1_temp img2_temp = NormUndefined /\
  main img1_temp img2_temp = Undefined.
Proof.
  intros (W1 & W2 & Hr & Hc & Hch & H8r & H8c & _) H1.
  assert (En : normalise img1_temp img2_temp = NormUndefined).
  { unfold normalise. rewrite H1. simpl.
    rewrite gray_fill_released by nia. reflexivity. }
  split; [exact En|].
  unfold main. rewrite validate_same_channels by congruence.
  rewrite En. reflexivity.
Qed.

End Front.

(** ** The SSIM map and the edge penalty of one iteration *)

Section Iteration.

Context {cv : CvLib}.

Lemma sC1_below_4 (c : nat) : (c < 4)%nat -> sC1 c = C1.
Proof.
  intros H. unfold sC1, scalar4.
  destruct c as [|[|[|[|c]]]]; try reflexivity. lia.
Qed.

Lemma ones_below_4 (c : nat) : (c < 4)%nat -> scalar4 1 1 1 1 c = 1.
Proof.
  intros H. unfold scalar4.
  destruct c as [|[|[|[|c]]]]; try reflexivity. lia.
Qed.

Lemma scale_iteration_acc (scale : nat) (img1 img2 : Mat) (nChan : nat) (a : Acc) :
  snd (scale_iteration scale img1 img2 nChan a)
  = worst_ssim (ssim_map img1 img2) nChan scale
      (average_ssim (ssim_map img1 img2) nChan scale
         (if (scale =? 0)%nat
          then grid_artifacts (ssim_map img1 img2) nChan
                 (edge_artifacts img1 img2 (GaussianBlur img1 ksize sigma)
                    (GaussianBlur img2 ksize sigma) nChan a) 0
          else a)).
Proof.
  unfold scale_iteration, ssim_map. simpl.
  destruct (scale =? 0)%nat; reflexivity.
Qed.

(** The samples of the SSIM map, written out. *)
Lemma ssim_map_px (img1 img2 : Mat) (y x c : nat) :
  (c < 4)%nat ->
  let blur := fun m => px (GaussianBlur m ksize sigma) y x c in
  px (ssim_map img1 img2) y x c
  == ((2 * blur img1 * blur img2 + C1)
      * (2 * blur (multiply img1 img2 1) - 2 * blur img1 * blur img2 + C2))
     / ((blur img1 ^ 2 + blur img2 ^ 2 + C1)
        * (blur (cv_pow2 img1) + blur (cv_pow2 img2)
           - (blur img1 ^ 2 + blur img2 ^ 2) + C2)).
Proof.
  intros Hc blur.
  unfold ssim_map, ssim_numerator, ssim_denominator, mat_div, multiply,
    addWeighted, add_scalar, mat_add, cv_pow2.
  cbn [px rows cols]. rewrite (sC1_below_4 c Hc).
  unfold blur, multiply, cv_pow2.
  apply Qdiv_comp; ring.
Qed.

(** C4.  At the scale whose buffers are [img1] and [img2], every sample of
    the SSIM map that the iteration averages, minimises and (at scale 0)
    passes to the grid detector is the quotient

      (2 mu1 mu2 + C1) (2 blur(img1 img2) - 2 mu1 mu2 + C2)
      -----------------------------------------------------------------
      (mu1^2 + mu2^2 + C1) (blur(img1^2) + blur(img2^2) - (mu1^2 + mu2^2) + C2)

    with C1 = 0.0001, C2 = 0.0004 and mu1, mu2 the 11x11, sigma 1.5 blurs
    of the two buffers.  The first equation gives the operations one by
    one in the order the calls make them ([multiply] is [scale * (a * b)],
    [addWeighted] is [a * alpha + b * beta + gamma]); the second is the
    same quotient as the claim writes it. *)
Theorem ssim_map_formula (img1 img2 : Mat) (y x c : nat) :
  (c < 4)%nat ->
  let blur := fun m => px (GaussianBlur m (11%nat, 11%nat) 1.5) y x c in
  let mu1 := blur img1 in
  let mu2 := blur img2 in
  px (ssim_map img1 img2) y x c
  = (1 * ((2 * (mu1 * mu2) + 0.0001)
          * (blur (multiply img1 img2 1) * 2 + 2 * (mu1 * mu2) * -1 + 0.0004)))
    / (1 * ((mu1 ^ 2 + mu2 ^ 2 + 0.0001)
            * ((blur (cv_pow2 img1) * 1 + blur (cv_pow2 img2) * 1 + 0) * 1
               + (mu1 ^ 2 + mu2 ^ 2) * -1 + 0.0004)))
  /\ px (ssim_map img1 img2) y x c
     == ((2 * mu1 * mu2 + 0.0001)
         * (2 * blur (multiply img1 img2 1) - 2 * mu1 * mu2 + 0.0004))
        / ((mu1 ^ 2 + mu2 ^ 2 + 0.0001)
           * (blur (cv_pow2 img1) + blur (cv_pow2 img2) - (mu1 ^ 2 + mu2 ^ 2) + 0.0004))
  /\ forall scale nChan a,
       snd (scale_iteration scale img1 img2 nChan a)
       = worst_ssim (ssim_map img1 img2) nChan scale
           (average_ssim (ssim_map img1 img2) nChan scale
              (if (scale =? 0)%nat
               then grid_artifacts (ssim_map img1 img2) nChan
                      (edge_artifacts img1 img2 (GaussianBlur img1 ksize sigma)
                         (GaussianBlur img2 ksize sigma) nChan a) 0
               else a)).
Proof.
  intros Hc blur mu1 mu2. split; [|split].
  - unfold ssim_map, ssim_numerator, ssim_denominator, mat_div, multiply,
      addWeighted, add_scalar, mat_add, cv_pow2.
    cbn [px rows cols]. rewrite (sC1_below_4 c Hc). reflexivity.
  - rewrite (ssim_map_px img1 img2 y x c Hc).
    unfold mu1, mu2, blur, ksize, sigma, C1, C2. reflexivity.
  - intros scale nChan a. apply scale_iteration_acc.
Qed.

(** C5.  The edge map of the iteration has the dimensions of the image and
    is [1 - max(|img2 - mu2| - |img1 - mu1|, 0)] in every channel.  At
    scale 0 the average of each channel over the whole image, the sum of
    all its [rows * cols] samples divided by [rows * cols], is added with
    the weights 1.5, 0.1, 0.1, 0.5; then the same map goes to
    [grid_artifacts] with variant 1, before the grid detector and the
    averages run on the SSIM map.  At every other scale the iteration does
    nothing with it. *)
Theorem edge_penalty (img1 img2 : Mat) (nChan : nat) (a : Acc) :
  let mu1 := GaussianBlur img1 ksize sigma in
  let mu2 := GaussianBlur img2 ksize sigma in
  let E := edge_map img1 img2 mu1 mu2 in
  let S := ssim_map img1 img2 in
  let average := fun i =>
    sumQ (rows img2) (fun y => sumQ (cols img2) (fun x => px E y x i))
    / of_nat (rows img2 * cols img2) in
  (rows E = rows img2 /\ cols E = cols img2 /\
   (rows img2 = rows img1 -> cols img2 = cols img1 ->
    rows E = rows img1 /\ cols E = cols img1)) /\
  (forall y x c, (c < 4)%nat ->
     px E y x c
     = 1 - Qmax (Qabs (px img2 y x c - px mu2 y x c)
                 - Qabs (px img1 y x c - px mu1 y x c)) 0) /\
  extra_edges_weight = [1.5; 0.1; 0.1; 0.5] /\
  (forall i, mean E i = average i) /\
  (exists a_e,
     a_e = for_chan nChan
             (fun i b => mkAcc (score b + idx1 extra_edges_weight i * average i)
                               (score_max b + idx1 extra_edges_weight i)) a /\
     score a_e == score a + sumQ nChan (fun i => idx1 extra_edges_weight i * average i) /\
     score_max a_e == score_max a + sumQ nChan (idx1 extra_edges_weight) /\
     edge_artifacts img1 img2 mu1 mu2 nChan a = grid_artifacts E nChan a_e 1 /\
     snd (scale_iteration 0 img1 img2 nChan a)
     = worst_ssim S nChan 0
         (average_ssim S nChan 0
            (grid_artifacts S nChan (grid_artifacts E nChan a_e 1) 0))) /\
  (forall scale, scale <> 0%nat ->
     snd (scale_iteration scale img1 img2 nChan a)
     = worst_ssim S nChan scale (average_ssim S nChan scale a)).
Proof.
  intros mu1 mu2 E S average. split; [|split; [|split; [|split; [|split]]]].
  - split; [reflexivity|]. split; [reflexivity|]. intros Hr Hc. split; assumption.
  - intros y x c Hc. unfold E, edge_map, scalar_sub, mat_max, mat_sub, mat_abs.
    cbn [px rows cols]. rewrite (ones_below_4 c Hc). reflexivity.
  - reflexivity.
  - intros i. reflexivity.
  - exists (for_chan nChan
              (fun i b => accumulate b (idx1 extra_edges_weight i) (mean E i)) a).
    destruct (for_chan_sums nChan
                (fun i b => accumulate b (idx1 extra_edges_weight i) (mean E i))
                (fun i => idx1 extra_edges_weight i * mean E i)
                (idx1 extra_edges_weight) a) as [Hs Hm].
    { intros i b _. simpl. split; reflexivity. }
    split; [reflexivity|]. split; [exact Hs|]. split; [exact Hm|].
    split; [reflexivity|].
    rewrite scale_iteration_acc. reflexivity.
  - intros scale Hs. rewrite scale_iteration_acc.
    destruct (Nat.eqb_spec scale 0); [contradiction | reflexivity].
Qed.

End Iteration.

(** ** The loop over the scales *)

Lemma fold_left_ext {A B : Type} (f g : A -> B -> A) (l : list B) (a : A) :
  (forall x y, f x y = g x y) -> fold_left f l a = fold_left g l a.
Proof.
  intros H. revert a. induction l as [|y l IH]; intros a; simpl.
  - reflexivity.
  - rewrite H. apply IH.
Qed.

Lemma fold_left_map {A B C : Type} (f : A -> C -> A) (h : B -> C) (l : list B) (a : A) :
  fold_left f (map h l) a = fold_left (fun x y => f x (h y)) l a.
Proof.
  revert a. induction l as [|y l IH]; intros a; simpl.
  - reflexivity.
  - apply IH.
Qed.

Lemma scales_from_le (left r c : nat) : (scales_from left r c <= left)%nat.
Proof.
  revert r c. induction left as [|left IH]; intros r c; simpl.
  - lia.
  - destruct ((c <? 8) || (r <? 8))%nat; [lia|]. specialize (IH (resize_dim 0.5 r) (resize_dim 0.5 c)). lia.
Qed.

Lemma scales_from_pos (left r c : nat) :
  (8 <= r)%nat -> (8 <= c)%nat -> (1 <= scales_from (S left) r c)%nat.
Proof.
  intros Hr Hc. simpl.
  destruct (Nat.ltb_spec c 8); [lia|]. destruct (Nat.ltb_spec r 8); [lia|].
  simpl. lia.
Qed.

Lemma dim_at_S (s n : nat) : dim_at (S s) n = dim_at s (resize_dim 0.5 n).
Proof. unfold dim_at. apply Nat.iter_succ_r. Qed.

Lemma scales_from_spec (left r c : nat) :
  (forall s, (s < scales_from left r c)%nat ->
             (8 <= dim_at s r)%nat /\ (8 <= dim_at s c)%nat) /\
  ((scales_from left r c < left)%nat ->
   (dim_at (scales_from left r c) c < 8)%nat \/
   (dim_at (scales_from left r c) r < 8)%nat).
Proof.
  revert r c. induction left as [|left IH]; intros r c; cbn [scales_from].
  - split; intros; lia.
  - destruct (Nat.ltb_spec c 8) as [Hc|Hc]; cbn [orb].
    { split; [intros; lia|]. intros _. left. exact Hc. }
    destruct (Nat.ltb_spec r 8) as [Hr|Hr]; cbn [orb].
    { split; [intros; lia|]. intros _. right. exact Hr. }
    destruct (IH (resize_dim 0.5 r) (resize_dim 0.5 c)) as [IH1 IH2]. split.
    + intros [|s] Hs; [simpl; lia|]. rewrite !dim_at_S. apply IH1. lia.
    + intros Hlt. rewrite !dim_at_S. apply IH2. lia.
Qed.

Section Loop.

Context {cv : CvLib}.

Lemma pyramid_S (img : Mat) (s : nat) :
  pyramid img (S s) = pyramid (resize img 0.5) s.
Proof. unfold pyramid. apply Nat.iter_succ_r. Qed.

Lemma pyramid_rows (img : Mat) (s : nat) : rows (pyramid img s) = dim_at s (rows img).
Proof.
  induction s as [|s IH]; [reflexivity|].
  unfold pyramid, dim_at in *. simpl. rewrite resize_rows, IH. reflexivity.
Qed.

Lemma pyramid_cols (img : Mat) (s : nat) : cols (pyramid img s) = dim_at s (cols img).
Proof.
  induction s as [|s IH]; [reflexivity|].
  unfold pyramid, dim_at in *. simpl. rewrite resize_cols, IH. reflexivity.
Qed.

(** The loop leaves with [scale] advanced by the number of scales the
    dimensions allow. *)
Lemma scale_loop_fst (left scale : nat) (img1 img2 : Mat) (nChan : nat) (a : Acc) :
  fst (scale_loop left scale img1 img2 nChan a)
  = (scale + scales_from left (rows img1) (cols img1))%nat.
Proof.
  revert scale img1 img2 a. induction left as [|left IH]; intros scale img1 img2 a; simpl.
  - lia.
  - destruct ((cols img1 <? 8) || (rows img1 <? 8))%nat; simpl; [lia|].
    rewrite IH, resize_rows, resize_cols. lia.
Qed.

(** Its accumulator is the one obtained by running the iterations one after
    the other on the successive halvings of the two buffers. *)
Lemma scale_loop_snd (left scale : nat) (img1 img2 : Mat) (nChan : nat) (a : Acc) :
  snd (scale_loop left scale img1 img2 nChan a)
  = fold_left
      (fun b k => snd (scale_iteration (scale + k) (pyramid img1 k) (pyramid img2 k) nChan b))
      (seq 0 (scales_from left (rows img1) (cols img1))) a.
Proof.
  revert scale img1 img2 a. induction left as [|left IH]; intros scale img1 img2 a.
  - reflexivity.
  - cbn [scale_loop scales_from].
    destruct ((cols img1 <? 8) || (rows img1 <? 8))%nat; [reflexivity|].
    cbn [scale_iteration]. rewrite IH, resize_rows, resize_cols.
    cbn [seq fold_left]. rewrite <- seq_shift, fold_left_map.
    rewrite Nat.add_0_r.
    rewrite (fold_left_ext
               (fun b k => snd (scale_iteration (scale + S k) (pyramid img1 (S k))
                                  (pyramid img2 (S k)) nChan b))
               (fun b k => snd (scale_iteration (S scale + k)
                                  (pyramid (resize img1 0.5) k)
                                  (pyramid (resize img2 0.5) k) nChan b))).
    + f_equal.
    + intros b k. rewrite !pyramid_S, Nat.add_succ_r. reflexivity.
Qed.

End Loop.

(** ** What [score_max] receives *)

Lemma for_chan_score_max (n : nat) (body : nat -> Acc -> Acc) (dm : nat -> Q) (a : Acc) :
  (forall i b, score_max (body i b) == score_max b + dm i) ->
  score_max (for_chan n body a) == score_max a + sumQ n dm.
Proof.
  intros H. induction n as [|n IH].
  - unfold for_chan. simpl. ring.
  - rewrite for_chan_S, H, IH. simpl. ring.
Qed.

Lemma grid_channel_score_max (twice n : nat) (set : list Q) (i : nat) (a : Acc) :
  score_max (grid_channel twice n set i a)
  == score_max a + idx2 worst_grid_weight twice i.
Proof.
  unfold grid_channel. destruct (stop_at 0 (n / 50) set); reflexivity.
Qed.

Lemma grid_artifacts_score_max (errormap : Mat) (nChan : nat) (a : Acc) (twice : nat) :
  score_max (grid_artifacts errormap nChan a twice)
  == score_max a + (sumQ nChan (idx2 worst_grid_weight twice)
                    + sumQ nChan (idx2 worst_grid_weight twice)).
Proof.
  unfold grid_artifacts.
  rewrite (for_chan_score_max nChan _ (idx2 worst_grid_weight twice))
    by (intros; apply grid_channel_score_max).
  rewrite (for_chan_score_max nChan _ (idx2 worst_grid_weight twice))
    by (intros; apply grid_channel_score_max).
  ring.
Qed.

Section Weights.

Context {cv : CvLib}.

Lemma edge_artifacts_score_max (img1 img2 mu1 mu2 : Mat) (nChan : nat) (a : Acc) :
  score_max (edge_artifacts img1 img2 mu1 mu2 nChan a)
  == score_max a + sumQ nChan (idx1 extra_edges_weight)
     + (sumQ nChan (idx2 worst_grid_weight 1) + sumQ nChan (idx2 worst_grid_weight 1)).
Proof.
  unfold edge_artifacts. rewrite grid_artifacts_score_max.
  rewrite (for_chan_score_max nChan _ (idx1 extra_edges_weight))
    by (intros; reflexivity).
  ring.
Qed.

Lemma average_ssim_score_max (ssim : Mat) (nChan scale : nat) (a : Acc) :
  score_max (average_ssim ssim nChan scale a)
  == score_max a
     + sumQ nChan (fun i => (if (0 <? i)%nat then chroma_weight else 1.0)
                            * idx2 scale_weights i scale).
Proof.
  unfold average_ssim. apply for_chan_score_max. intros; reflexivity.
Qed.

Lemma worst_ssim_score_max (ssim : Mat) (nChan scale : nat) (a : Acc) :
  score_max (worst_ssim ssim nChan scale a)
  == score_max a
     + sumQ nChan (fun i => idx1 min_weight i * idx2 mscale_weights i scale).
Proof.
  unfold worst_ssim. apply for_chan_score_max. intros; reflexivity.
Qed.

(** Whatever the buffers hold, one iteration adds [iteration_weight]. *)
Lemma iteration_score_max (scale : nat) (img1 img2 : Mat) (nChan : nat) (a : Acc) :
  score_max (snd (scale_iteration scale img1 img2 nChan a))
  == score_max a + iteration_weight nChan scale.
Proof.
  rewrite scale_iteration_acc, worst_ssim_score_max, average_ssim_score_max.
  unfold iteration_weight, scale_weight, detector_weight.
  destruct (scale =? 0)%nat.
  - rewrite grid_artifacts_score_max, edge_artifacts_score_max. ring.
  - ring.
Qed.

Lemma fold_score_max (P1 P2 : nat -> Mat) (nChan scale m : nat) (a : Acc) :
  score_max (fold_left
               (fun b k => snd (scale_iteration (scale + k) (P1 k) (P2 k) nChan b))
               (seq 0 m) a)
  == score_max a + sumQ m (fun k => iteration_weight nChan (scale + k)).
Proof.
  induction m as [|m IH].
  - simpl. ring.
  - rewrite seq_S, fold_left_app. cbn [fold_left Nat.add].
    rewrite iteration_score_max, IH. simpl. ring.
Qed.

Lemma sum_iteration_weight (nChan n : nat) :
  sumQ n (iteration_weight nChan) == total_weight nChan n.
Proof.
  destruct n as [|n]; [reflexivity|].
  unfold total_weight. induction n as [|n IH].
  - simpl. unfold iteration_weight. simpl. ring.
  - change (sumQ (S (S n)) (iteration_weight nChan))
      with (sumQ (S n) (iteration_weight nChan) + iteration_weight nChan (S n)).
    rewrite IH. unfold iteration_weight at 1. simpl. ring.
Qed.

Lemma multi_scale_score_max (img1 img2 : Mat) (nChan : nat) :
  score_max (snd (multi_scale img1 img2 nChan))
  == total_weight nChan (scales_for (rows img1) (cols img1)).
Proof.
  unfold multi_scale. rewrite scale_loop_snd, fold_score_max. simpl score_max.
  rewrite <- sum_iteration_weight. unfold scales_for.
  rewrite (sumQ_ext _ _ (iteration_weight nChan)) by (intros; reflexivity).
  ring.
Qed.

(** C10.  [score_max] after the loop is [total_weight nChan n]: the edge
    and grid weights of scale 0 plus the average and minimum weights of the
    [n] scales done, where [n] is fixed by the dimensions of the first
    buffer.  No sample enters it, so another pair of the same dimensions and
    channel count ends with the same [score_max]. *)
Theorem score_max_depends_on_shape (img1 img2 img1' img2' : Mat) (nChan : nat) :
  rows img1' = rows img1 -> cols img1' = cols img1 ->
  fst (multi_scale img1 img2 nChan) = scales_for (rows img1) (cols img1) /\
  score_max (snd (multi_scale img1 img2 nChan))
  == total_weight nChan (scales_for (rows img1) (cols img1)) /\
  score_max (snd (multi_scale img1' img2' nChan))
  == score_max (snd (multi_scale img1 img2 nChan)).
Proof.
  intros Hr Hc. split; [|split].
  - unfold multi_scale. rewrite scale_loop_fst. reflexivity.
  - apply multi_scale_score_max.
  - rewrite !multi_scale_score_max, Hr, Hc. reflexivity.
Qed.

End Weights.

(** ** The final normalisation *)

Lemma total_weight_pos (nChan n : nat) :
  (nChan = 1 \/ nChan = 3 \/ nChan = 4)%nat -> (1 <= n <= 6)%nat ->
  0 < total_weight nChan n.
Proof.
  intros Hc Hn.
  assert (E : (n = 1 \/ n = 2 \/ n = 3 \/ n = 4 \/ n = 5 \/ n = 6)%nat) by lia.
  destruct Hc as [Hc|[Hc|Hc]]; destruct E as [E|[E|[E|[E|[E|E]]]]]; subst;
    vm_compute; reflexivity.
Qed.

(** Lines 460-461 on a finite value. *)
Lemma clamp_finite (r : Q) :
  exists q,
    (let score := Finite r in
     let score := if xlt score 0 then Finite 0 else score in
     if xgt score 1 then Finite 1 else score) = Finite q /\
    0 <= q /\ q <= 1 /\ q == Qmax 0 (Qmin 1 r).
Proof.
  cbn zeta. cbn [xlt].
  destruct (Qle_bool 0 r) eqn:L; cbn [negb].
  - apply Qle_bool_iff in L. cbn [xgt].
    destruct (Qle_bool r 1) eqn:U; cbn [negb].
    + apply Qle_bool_iff in U. exists r.
      split; [reflexivity|]. split; [exact L|]. split; [exact U|].
      rewrite (Q.min_r 1 r U), (Q.max_r 0 r L). reflexivity.
    + assert (U' : 1 < r).
      { apply Qnot_le_lt. intros H. apply Qle_bool_iff in H. congruence. }
      exists 1.
      split; [reflexivity|]. split; [lra|]. split; [lra|].
      rewrite (Q.min_l 1 r) by lra. rewrite Q.max_r by lra. reflexivity.
  - assert (L' : r < 0).
    { apply Qnot_le_lt. intros H. apply Qle_bool_iff in H. congruence. }
    exists 0.
    split; [reflexivity|]. split; [lra|]. split; [lra|].
    rewrite (Q.min_r 1 r) by lra. rewrite Q.max_l by lra. reflexivity.
Qed.

Lemma final_score_range (a : Acc) :
  0 < score_max a ->
  exists q, final_score a = Finite q /\ 0 <= q /\ q <= 1 /\
            (score a == 0 -> q == 1) /\
            (~ score a == 0 -> q == clamped_ratio a).
Proof.
  intros Hm. unfold final_score, xdiv, clamped_ratio.
  destruct (Qeq_bool (score a) 0) eqn:E.
  - apply Qeq_bool_eq in E.
    apply Qgt_alt in Hm. rewrite Hm. simpl.
    exists 1. repeat split; lra.
  - apply Qeq_bool_neq in E. cbn [xsub].
    destruct (clamp_finite (score_max a / score a - 1)) as (q & Hq & H0 & H1 & Hc).
    exists q. split; [exact Hq|]. split; [exact H0|]. split; [exact H1|].
    split; [intros H; contradiction | intros _; exact Hc].
Qed.

Section Final.

Context {cv : CvLib}.

Lemma multi_scale_score_max_pos (img1 img2 : Mat) (nChan : nat) :
  valid_buffers img1 img2 nChan -> 0 < score_max (snd (multi_scale img1 img2 nChan)).
Proof.
  intros (Hr & Hc & _ & _ & Hn).
  rewrite multi_scale_score_max. apply total_weight_pos; [exact Hn|].
  unfold scales_for. split; [apply scales_from_pos; assumption | apply scales_from_le].
Qed.

End Final.

(** ** Identical buffers *)

Lemma sq_nonneg (v : Q) : 0 <= v ^ 2.
Proof.
  change (v ^ 2) with (v * v).
  destruct (Qlt_le_dec v 0) as [H|H].
  - setoid_replace (v * v) with ((- v) * (- v)) by ring.
    apply Qmult_le_0_compat; lra.
  - apply Qmult_le_0_compat; assumption.
Qed.

Lemma cvRound_ge_floor (v : Q) : (Qfloor v <= cvRound v)%Z.
Proof.
  unfold cvRound. destruct (Qcompare (v - inject_Z (Qfloor v)) (1 # 2)); try lia.
  destruct (Z.even (Qfloor v)); lia.
Qed.

(** A dimension of at least 8 leaves at least two rows or columns in the
    quarter-size map: [minMaxLoc] is never given an empty matrix. *)
Lemma resize_dim_quarter (n : nat) : (8 <= n)%nat -> (2 <= resize_dim 0.25 n)%nat.
Proof.
  intros H. unfold resize_dim.
  assert (H2 : (2 <= Qfloor (of_nat n * 0.25))%Z).
  { change 2%Z with (Qfloor 2). apply Qfloor_resp_le.
    assert (H8 : 8 <= of_nat n).
    { unfold of_nat. change 8 with (inject_Z 8). rewrite <- Zle_Qle. lia. }
    lra. }
  pose proof (cvRound_ge_floor (of_nat n * 0.25)). lia.
Qed.

Lemma fold_left_inv {A B : Type} (P : A -> Prop) (f : A -> B -> A) (l : list B) (a : A) :
  (forall x y, In y l -> P x -> P (f x y)) -> P a -> P (fold_left f l a).
Proof.
  revert a. induction l as [|y l IH]; intros a H Ha; simpl.
  - exact Ha.
  - apply IH.
    + intros x z Hz. apply H. right. exact Hz.
    + apply H; [left; reflexivity | exact Ha].
Qed.

Lemma balanced_step (a : Acc) (w v : Q) :
  balanced a -> v == 1 -> score a + w * v == score_max a + w.
Proof. unfold balanced. intros Ha Hv. rewrite Ha, Hv. ring. Qed.

Lemma row_means_uniform (m : Mat) (i : nat) :
  uniform m i 1 -> (0 < cols m)%nat -> Forall (fun v => v == 1) (row_means m i).
Proof.
  intros U Hc. unfold row_means. apply Forall_map, Forall_forall.
  intros y Hy. apply in_seq in Hy. apply mean_uniform; simpl; try lia.
  apply uniform_roi; [exact U | lia | lia].
Qed.

Lemma col_means_uniform (m : Mat) (i : nat) :
  uniform m i 1 -> (0 < rows m)%nat -> Forall (fun v => v == 1) (col_means m i).
Proof.
  intros U Hr. unfold col_means. apply Forall_map, Forall_forall.
  intros x Hx. apply in_seq in Hx. apply mean_uniform; simpl; try lia.
  apply uniform_roi; [exact U | lia | lia].
Qed.

Lemma nth_Forall (P : Q -> Prop) (l : list Q) (k : nat) :
  Forall P l -> (k < length l)%nat -> P (nth k l 0).
Proof.
  intros H Hk. rewrite Forall_forall in H. apply H, nth_In, Hk.
Qed.

(** On a map that is 1 everywhere the selected row and column values are 1
    and [grid_artifacts] keeps [score] and [score_max] together. *)
Lemma worst_row_uniform (m : Mat) (i : nat) :
  uniform m i 1 -> (0 < rows m)%nat -> (0 < cols m)%nat ->
  opt_eqv (worst_row m i) (Some 1).
Proof.
  intros U Hr Hc. rewrite worst_row_nth by exact Hr. simpl.
  apply nth_Forall.
  - apply ms_of_Forall, row_means_uniform; assumption.
  - rewrite ms_of_length, row_means_length. apply div50_lt, Hr.
Qed.

Lemma worst_col_uniform (m : Mat) (i : nat) :
  uniform m i 1 -> (0 < rows m)%nat -> (0 < cols m)%nat ->
  opt_eqv (worst_col m i) (Some 1).
Proof.
  intros U Hr Hc. rewrite worst_col_nth by exact Hc. simpl.
  apply nth_Forall.
  - apply ms_of_Forall, col_means_uniform; assumption.
  - rewrite ms_of_length, col_means_length. apply div50_lt, Hc.
Qed.

Lemma grid_channel_balanced (twice n : nat) (set : list Q) (i : nat) (a : Acc) :
  Forall (fun v => v == 1) set -> (n / 50 < length set)%nat ->
  balanced a -> balanced (grid_channel twice n set i a).
Proof.
  intros HF Hn Ha. destruct (grid_channel_spec twice n set i a Hn) as [Hs Hm].
  unfold balanced. rewrite Hs, Hm.
  apply balanced_step; [exact Ha|]. apply nth_Forall; assumption.
Qed.

Lemma grid_artifacts_balanced (m : Mat) (nChan : nat) (a : Acc) (twice : nat) :
  (forall i, (i < nChan)%nat -> uniform m i 1) ->
  (0 < rows m)%nat -> (0 < cols m)%nat ->
  balanced a -> balanced (grid_artifacts m nChan a twice).
Proof.
  intros U Hr Hc Ha. unfold grid_artifacts.
  apply for_chan_inv.
  - intros i b Hi Hb. apply grid_channel_balanced; [| |exact Hb].
    + apply ms_of_Forall, col_means_uniform; [apply U, Hi | exact Hr].
    + rewrite ms_of_length, col_means_length. apply div50_lt, Hc.
  - apply for_chan_inv; [|exact Ha].
    intros i b Hi Hb. apply grid_channel_balanced; [| |exact Hb].
    + apply ms_of_Forall, row_means_uniform; [apply U, Hi | exact Hc].
    + rewrite ms_of_length, row_means_length. apply div50_lt, Hr.
Qed.

Section Identical.

Context {cv : CvLib}.

Lemma ssim_map_rows (img1 img2 : Mat) : rows (ssim_map img1 img2) = rows img1.
Proof. unfold ssim_map, ssim_numerator. simpl. apply GaussianBlur_rows. Qed.

Lemma ssim_map_cols (img1 img2 : Mat) : cols (ssim_map img1 img2) = cols img1.
Proof. unfold ssim_map, ssim_numerator. simpl. apply GaussianBlur_cols. Qed.

Lemma blur_square (img : Mat) (y x c : nat) :
  (y < rows img)%nat -> (x < cols img)%nat ->
  px (GaussianBlur (multiply img img 1) ksize sigma) y x c
  == px (GaussianBlur (cv_pow2 img) ksize sigma) y x c.
Proof.
  intros Hy Hx.
  assert (E : mat_eqv (multiply img img 1) (cv_pow2 img)).
  { split; [reflexivity|]. split; [reflexivity|].
    intros y' x' c' _ _. simpl. ring. }
  destruct (GaussianBlur_ext _ _ ksize sigma E) as (_ & _ & H).
  apply H; rewrite ?GaussianBlur_rows, ?GaussianBlur_cols; simpl; assumption.
Qed.

(** Every SSIM value of a buffer against itself is 1. *)
Lemma ssim_identical (img : Mat) (c : nat) :
  (c < 4)%nat -> uniform (ssim_map img img) c 1.
Proof.
  intros Hc y x Hy Hx. rewrite ssim_map_rows in Hy. rewrite ssim_map_cols in Hx.
  rewrite (ssim_map_px img img y x c Hc). cbv zeta.
  rewrite (blur_square img y x c Hy Hx).
  pose proof (GaussianBlur_sq img ksize sigma y x c Hy Hx) as J.
  pose proof (sq_nonneg (px (GaussianBlur img ksize sigma) y x c)) as N.
  set (mu := px (GaussianBlur img ksize sigma) y x c) in *.
  set (b := px (GaussianBlur (cv_pow2 img) ksize sigma) y x c) in *.
  unfold C1, C2.
  assert (P1 : 0 < mu ^ 2 + mu ^ 2 + 0.0001) by lra.
  assert (P2 : 0 < b + b - (mu ^ 2 + mu ^ 2) + 0.0004) by lra.
  field. split; intro Z; rewrite Z in *; lra.
Qed.

(** The edge map of a buffer against itself is 1: no edge is introduced. *)
Lemma edge_identical (img mu : Mat) (c : nat) :
  (c < 4)%nat -> uniform (edge_map img img mu mu) c 1.
Proof.
  intros Hc y x _ _. unfold edge_map, scalar_sub, mat_max, mat_sub, mat_abs.
  cbn [px rows cols]. rewrite (ones_below_4 c Hc).
  setoid_replace (Qabs (px img y x c - px mu y x c) - Qabs (px img y x c - px mu y x c))
    with 0 by ring.
  rewrite Q.max_id. ring.
Qed.

Lemma edge_artifacts_balanced (img mu : Mat) (nChan : nat) (a : Acc) :
  (0 < rows img)%nat -> (0 < cols img)%nat -> (nChan <= 4)%nat ->
  balanced a -> balanced (edge_artifacts img img mu mu nChan a).
Proof.
  intros Hr Hc Hn Ha. unfold edge_artifacts.
  apply grid_artifacts_balanced; try assumption.
  - intros i Hi. apply edge_identical. lia.
  - apply for_chan_inv; [|exact Ha].
    intros i b Hi Hb. unfold balanced, accumulate. simpl.
    apply balanced_step; [exact Hb|].
    apply mean_uniform; try assumption. apply edge_identical. lia.
Qed.

Lemma iteration_balanced (scale : nat) (img : Mat) (nChan : nat) (a : Acc) :
  (8 <= rows img)%nat -> (8 <= cols img)%nat -> (nChan <= 4)%nat ->
  balanced a -> balanced (snd (scale_iteration scale img img nChan a)).
Proof.
  intros Hr Hc Hn Ha. rewrite scale_iteration_acc.
  assert (Sr : rows (ssim_map img img) = rows img) by apply ssim_map_rows.
  assert (Sc : cols (ssim_map img img) = cols img) by apply ssim_map_cols.
  assert (U : forall i, (i < nChan)%nat -> uniform (ssim_map img img) i 1)
    by (intros i Hi; apply ssim_identical; lia).
  unfold worst_ssim. apply for_chan_inv.
  { intros i b Hi Hb. unfold balanced. simpl.
    setoid_replace (idx1 min_weight i * minVal (resize (ssim_map img img) 0.25) i
                    * idx2 mscale_weights i scale)
      with (idx1 min_weight i * idx2 mscale_weights i scale
            * minVal (resize (ssim_map img img) 0.25) i) by ring.
    apply balanced_step; [exact Hb|].
    apply minVal_uniform.
    - apply resize_uniform, U, Hi.
    - rewrite resize_rows, Sr. pose proof (resize_dim_quarter _ Hr). lia.
    - rewrite resize_cols, Sc. pose proof (resize_dim_quarter _ Hc). lia. }
  unfold average_ssim. apply for_chan_inv.
  { intros i b Hi Hb. unfold balanced. simpl.
    set (cw := if (0 <? i)%nat then chroma_weight else 1.0).
    setoid_replace (cw * mean (ssim_map img img) i * idx2 scale_weights i scale)
      with (cw * idx2 scale_weights i scale * mean (ssim_map img img) i) by ring.
    apply balanced_step; [exact Hb|].
    apply mean_uniform; [apply U, Hi | lia | lia]. }
  destruct (scale =? 0)%nat; [|exact Ha].
  apply grid_artifacts_balanced; [exact U | lia | lia |].
  apply edge_artifacts_balanced; try assumption; lia.
Qed.

Lemma multi_scale_balanced (img : Mat) (nChan : nat) :
  (nChan <= 4)%nat -> balanced (snd (multi_scale img img nChan)).
Proof.
  intros Hn. unfold multi_scale. rewrite scale_loop_snd.
  destruct (scales_from_spec 6 (rows img) (cols img)) as [S1 _].
  apply fold_left_inv; [|unfold balanced; reflexivity].
  intros b k Hk Hb. apply in_seq in Hk.
  destruct (S1 k) as [Hr Hc]; [lia|].
  apply iteration_balanced; try assumption;
    rewrite ?pyramid_rows, ?pyramid_cols; assumption.
Qed.

Lemma balanced_final (a : Acc) :
  balanced a -> 0 < score_max a ->
  exists q, final_score a = Finite q /\ q == 0.
Proof.
  intros Hb Hm.
  destruct (final_score_range a Hm) as (q & Hq & _ & _ & _ & Hc).
  exists q. split; [exact Hq|].
  unfold balanced in Hb.
  assert (Hs : ~ score a == 0) by (intros Z; rewrite Z in Hb; rewrite <- Hb in Hm; lra).
  rewrite (Hc Hs). unfold clamped_ratio.
  assert (E : score_max a / score a - 1 == 0).
  { rewrite <- Hb. field. exact Hs. }
  rewrite E. rewrite Q.min_r by lra. rewrite Q.max_id. reflexivity.
Qed.

End Identical.

(** ** The reference primitives satisfy the laws *)

Lemma reflect101_lt (n : nat) (p : Z) : (0 < n)%nat -> (Ref.reflect101 n p < n)%nat.
Proof.
  intros Hn. unfold Ref.reflect101.
  destruct (Nat.leb_spec n 1) as [H1|H1]; [lia|].
  assert (Hp : (0 < 2 * Z.of_nat n - 2)%Z) by lia.
  pose proof (Z.mod_pos_bound p (2 * Z.of_nat n - 2) Hp) as Hq.
  destruct (Z.ltb_spec (p mod (2 * Z.of_nat n - 2)) (Z.of_nat n)); lia.
Qed.

Lemma filter_ext (t : list (Q * (Z * Z))) (a b : Mat) (y x c : nat) :
  mat_eqv a b -> (y < rows a)%nat -> (x < cols a)%nat ->
  Ref.filter t a y x c == Ref.filter t b y x c.
Proof.
  intros (Hr & Hc & H) Hy Hx. induction t as [|[w [dy dx]] t IH]; simpl.
  - reflexivity.
  - rewrite IH, <- Hr, <- Hc. rewrite H; [reflexivity | |];
      apply reflect101_lt; lia.
Qed.

(** The weighted spread around any value [mean] is not negative. *)
Lemma filter_spread (t : list (Q * (Z * Z))) (m : Mat) (y x c : nat) (mean : Q) :
  Forall (fun tap => 0 <= fst tap) t ->
  0 <= Ref.filter t (cv_pow2 m) y x c - 2 * mean * Ref.filter t m y x c
       + mean ^ 2 * fold_right (fun tap acc => fst tap + acc) 0 t.
Proof.
  induction 1 as [|[w [dy dx]] t Hw HF IH]; simpl in *.
  - setoid_replace (0 - 2 * mean * 0 + mean * mean * 0) with 0 by ring. lra.
  - set (v := px m (Ref.reflect101 (rows m) (Z.of_nat y + dy))
                   (Ref.reflect101 (cols m) (Z.of_nat x + dx)) c) in *.
    set (A := Ref.filter t m y x c) in *.
    set (B := Ref.filter t (cv_pow2 m) y x c) in *.
    set (W := fold_right (fun tap acc => fst tap + acc) 0 t) in *.
    assert (Hs : 0 <= w * (v - mean) ^ 2)
      by (apply Qmult_le_0_compat; [exact Hw | apply sq_nonneg]).
    setoid_replace (w * (v * v) + B - 2 * mean * (w * v + A) + mean * mean * (w + W))
      with ((B - 2 * mean * A + mean * mean * W) + w * (v - mean) ^ 2) by ring.
    lra.
Qed.

Lemma taps_nonneg : Forall (fun tap => 0 <= fst tap) Ref.taps.
Proof.
  apply Forall_forall. intros tap Hin.
  assert (H : forallb (fun tap => Qle_bool 0 (fst tap)) Ref.taps = true)
    by (vm_compute; reflexivity).
  rewrite forallb_forall in H. apply Qle_bool_iff, H, Hin.
Qed.

Lemma taps_sum : fold_right (fun tap acc => fst tap + acc) 0 Ref.taps == 1.
Proof. vm_compute. reflexivity. Qed.

Lemma blur_jensen (m : Mat) (k : nat * nat) (s : Q) (y x c : nat) :
  (y < rows m)%nat -> (x < cols m)%nat ->
  px (Ref.blur m k s) y x c ^ 2 <= px (Ref.blur (cv_pow2 m) k s) y x c.
Proof.
  intros _ _. unfold Ref.blur. cbn [px].
  pose proof (filter_spread Ref.taps m y x c (Ref.filter Ref.taps m y x c) taps_nonneg) as H.
  rewrite taps_sum in H.
  set (A := Ref.filter Ref.taps m y x c) in *.
  set (B := Ref.filter Ref.taps (cv_pow2 m) y x c) in *.
  setoid_replace (B - 2 * A * A + A ^ 2 * 1) with (B - A ^ 2) in H by ring.
  lra.
Qed.

Lemma blur_ext (a b : Mat) (k : nat * nat) (s : Q) :
  mat_eqv a b -> mat_eqv (Ref.blur a k s) (Ref.blur b k s).
Proof.
  intros E. pose proof E as (Hr & Hc & _).
  split; [exact Hr|]. split; [exact Hc|].
  intros y x c Hy Hx. apply filter_ext; assumption.
Qed.

Lemma cvRound_zero (v : Q) : v == 0 -> cvRound v = 0%Z.
Proof.
  intros H. unfold cvRound.
  assert (F : Qfloor v = 0%Z) by (rewrite H; reflexivity).
  rewrite F.
  assert (L : Qcompare (v - inject_Z 0) (1 # 2) = Lt).
  { apply Qlt_alt. rewrite H. reflexivity. }
  rewrite L. reflexivity.
Qed.

Lemma resize_dim_0 (f : Q) : resize_dim f 0 = 0%nat.
Proof.
  unfold resize_dim. rewrite cvRound_zero; [reflexivity|].
  unfold of_nat. simpl. ring.
Qed.

Lemma area_uniform (m : Mat) (f : Q) (c : nat) (v : Q) :
  uniform m c v -> uniform (Ref.area m f) c v.
Proof.
  intros U y x Hy Hx. unfold Ref.area in *. cbn [px rows cols] in *.
  assert (Hr : (0 < rows m)%nat).
  { destruct (rows m); [rewrite resize_dim_0 in Hy; lia | lia]. }
  assert (Hc : (0 < cols m)%nat).
  { destruct (cols m); [rewrite resize_dim_0 in Hx; lia | lia]. }
  assert (Hk : (0 < Ref.block f)%nat) by (unfold Ref.block; lia).
  rewrite (sumQ_const _ _ (of_nat (Ref.block f) * v)).
  - rewrite of_nat_mult. field.
    intro Z. pose proof (of_nat_pos _ Hk) as P. rewrite Z in P. lra.
  - intros dy _. apply sumQ_const. intros dx _. apply U; lia.
Qed.

(** The reference library. *)
#[export] Instance RefLib : CvLib := {|
  libm_pow := Ref.pow;
  GaussianBlur := Ref.blur;
  resize := Ref.area;
  GaussianBlur_rows := fun _ _ _ => eq_refl;
  GaussianBlur_cols := fun _ _ _ => eq_refl;
  GaussianBlur_ext := blur_ext;
  GaussianBlur_sq := blur_jensen;
  resize_rows := fun _ _ => eq_refl;
  resize_cols := fun _ _ => eq_refl;
  resize_uniform := area_uniform
|}.

(** ** The grayscale loop on a buffer that has not been released

    Lines 328-329 themselves are as the specification has them: run on the
    decoded raster they write sample/255 into every pixel.  It is the
    [release()] of lines 315-316, ahead of them, that takes the raster
    away. *)

Lemma at_uchar_nth (r : Raster) (i : nat) (v : Z) :
  at_uchar r i = Some v -> nth 0 (nth i (r_data r) []) 0%Z = v.
Proof.
  unfold at_uchar. intros H.
  destruct (nth_error (r_data r) i) as [[|u p]|] eqn:E; try discriminate H.
  injection H as ->. rewrite (nth_error_nth _ _ _ E). reflexivity.
Qed.

Lemma gray_fill_spec (n : nat) :
  forall (i : nat) (src : Raster) (dst : Mat),
  (forall j, (i <= j < i + n)%nat -> exists v, at_uchar src j = Some v) ->
  exists m,
    gray_fill n i src dst = Some m /\ rows m = rows dst /\ cols m = cols dst /\
    forall y x c,
      px m y x c
      = if ((i <=? y * cols dst + x) && (y * cols dst + x <? i + n)
            && (x <? cols dst) && (c =? 0))%nat
        then inject_Z (nth 0 (nth (y * cols dst + x) (r_data src) []) 0%Z) / 255.0
        else px dst y x c.
Proof.
  induction n as [|n IH]; intros i src dst H.
  - exists dst. repeat split. intros y x c.
    destruct (Nat.leb_spec i (y * cols dst + x));
      destruct (Nat.ltb_spec (y * cols dst + x) (i + 0)); simpl; try reflexivity. lia.
  - destruct (H i) as [v Hv]; [lia|]. cbn [gray_fill]. rewrite Hv.
    destruct (IH (S i) src (set_at dst i (inject_Z v / 255.0))) as (m & Hm & Hr & Hc & Hp).
    { intros j Hj. apply H. lia. }
    exists m. split; [exact Hm|]. split; [exact Hr|]. split; [exact Hc|].
    intros y x c. rewrite Hp. cbn [set_at cols px].
    rewrite <- (at_uchar_nth src i v Hv).
    destruct (Nat.leb_spec (S i) (y * cols dst + x));
      destruct (Nat.ltb_spec (y * cols dst + x) (S i + n));
      destruct (Nat.leb_spec i (y * cols dst + x));
      destruct (Nat.ltb_spec (y * cols dst + x) (i + S n));
      destruct (Nat.eqb_spec (y * cols dst + x) i);
      destruct (Nat.ltb_spec x (cols dst));
      destruct (Nat.eqb_spec c 0);
      cbn [andb]; try reflexivity; try lia.
    subst. reflexivity.
Qed.

Lemma well_formed_gray_at (r : Raster) (j : nat) :
  well_formed r -> r_channels r = 1%nat -> (j < r_rows r * r_cols r)%nat ->
  exists v, at_uchar r j = Some v.
Proof.
  intros [Hl HF] Hc Hj. unfold at_uchar.
  destruct (nth_error (r_data r) j) as [p|] eqn:E.
  - apply nth_error_In in E. rewrite Forall_forall in HF.
    destruct (HF p E) as [Hp _]. rewrite Hc in Hp.
    destruct p as [|v p]; [discriminate Hp|]. exists v. reflexivity.
  - apply nth_error_None in E. lia.
Qed.

Lemma gray_fill_unreleased (r : Raster) :
  well_formed r -> r_channels r = 1%nat ->
  exists m,
    gray_fill (r_rows r * r_cols r) 0 r (uninitialised (r_rows r) (r_cols r)) = Some m /\
    rows m = r_rows r /\ cols m = r_cols r /\
    forall y x, (y < r_rows r)%nat -> (x < r_cols r)%nat ->
      px m y x 0 = inject_Z (sample_at r y x 0) / 255.0.
Proof.
  intros W Hc.
  destruct (gray_fill_spec (r_rows r * r_cols r) 0 r
              (uninitialised (r_rows r) (r_cols r))) as (m & Hm & Hr & Hcl & Hp).
  { intros j Hj. apply well_formed_gray_at; [assumption | assumption | lia]. }
  exists m. split; [exact Hm|]. split; [exact Hr|]. split; [exact Hcl|].
  intros y x Hy Hx. rewrite Hp. cbn [uninitialised cols].
  assert (Hi : (y * r_cols r + x < r_rows r * r_cols r)%nat) by nia.
  destruct (Nat.ltb_spec (y * r_cols r + x) (0 + r_rows r * r_cols r)); [|lia].
  destruct (Nat.ltb_spec x (r_cols r)); [|lia].
  reflexivity.
Qed.

(** ** Colour inputs through the whole of [main] *)

Section Colour.

Context {cv : CvLib}.

Lemma main_colour (a b : Raster) :
  valid_input a b -> (r_channels a = 3 \/ r_channels a = 4)%nat ->
  exists img1 img2,
    normalise a b = Buffers img1 img2 /\
    valid_buffers img1 img2 (r_channels a) /\
    main a b = Printed (final_score (snd (multi_scale img1 img2 (r_channels a)))).
Proof.
  intros (W1 & W2 & Hr & Hc & Hch & H8r & H8c & Hn) H34.
  assert (Ev : validate a b = inr (a, b))
    by (apply validate_same_channels; congruence).
  unfold main. rewrite Ev.
  destruct H34 as [E|E].
  - unfold normalise. rewrite E. cbn [Nat.eqb Nat.ltb Nat.leb].
    eexists _, _. split; [reflexivity|]. split; [|reflexivity].
    unfold valid_buffers. cbn [lab_all LUT rows cols]. repeat split; auto.
  - unfold normalise. rewrite E. cbn [Nat.eqb Nat.ltb Nat.leb].
    eexists _, _. split; [reflexivity|]. split; [|reflexivity].
    unfold valid_buffers. cbn [lab_all LUT blend_gray rows cols r_rows r_cols].
    repeat split; auto.
Qed.

(** A valid colour pair always gets a score, finite and in [0, 1]. *)
Lemma main_colour_in_range (a b : Raster) :
  valid_input a b -> (r_channels a = 3 \/ r_channels a = 4)%nat ->
  exists q, main a b = Printed (Finite q) /\ 0 <= q /\ q <= 1.
Proof.
  intros V H34. destruct (main_colour a b V H34) as (img1 & img2 & _ & VB & E).
  destruct (final_score_range (snd (multi_scale img1 img2 (r_channels a))))
    as (q & Hq & H0 & H1 & _).
  { apply multi_scale_score_max_pos, VB. }
  exists q. rewrite E, Hq. repeat split; assumption.
Qed.

(** A valid colour image compared with itself scores 0. *)
Lemma main_colour_identical (a : Raster) :
  valid_input a a -> (r_channels a = 3 \/ r_channels a = 4)%nat ->
  exists q, main a a = Printed (Finite q) /\ q == 0.
Proof.
  intros V H34.
  pose proof V as (_ & _ & _ & _ & _ & H8r & H8c & Hn).
  assert (Ev : validate a a = inr (a, a))
    by (apply validate_same_channels; auto).
  assert (E : exists img, normalise a a = Buffers img img /\
                          rows img = r_rows a /\ cols img = r_cols a).
  { unfold normalise. destruct H34 as [E|E]; rewrite E; cbn [Nat.eqb Nat.ltb Nat.leb];
      eexists; (split; [reflexivity|]); split; reflexivity. }
  destruct E as (img & En & Er & Ec).
  destruct (balanced_final (snd (multi_scale img img (r_channels a)))) as (q & Hq & Hz).
  - apply multi_scale_balanced. lia.
  - apply multi_scale_score_max_pos. unfold valid_buffers. rewrite Er, Ec. auto.
  - exists q. unfold main. rewrite Ev, En, Hq. split; [reflexivity | exact Hz].
Qed.

(** What [validate] lets through has equal dimensions of at least 8 by 8,
    and an image compared with itself is passed on unchanged. *)
Lemma validate_inr (r1 r2 t1 t2 : Raster) :
  validate r1 r2 = inr (t1, t2) ->
  (8 <= r_rows t1)%nat /\ (8 <= r_cols t1)%nat /\
  r_rows t2 = r_rows t1 /\ r_cols t2 = r_cols t1 /\
  (r1 = r2 -> t1 = r1 /\ t2 = r1).
Proof.
  unfold validate.
  destruct (Nat.eqb_spec (r_cols r1) (r_cols r2)) as [Ec|]; [|discriminate].
  destruct (Nat.eqb_spec (r_rows r1) (r_rows r2)) as [Er|]; [|discriminate].
  cbn [andb negb].
  destruct (Nat.ltb_spec (r_cols r1) 8); [discriminate|].
  destruct (Nat.ltb_spec (r_rows r1) 8); [discriminate|].
  cbn [orb].
  destruct (Nat.eqb_spec (r_channels r1) (r_channels r2)) as [Ech|Nch]; cbn [negb].
  - intros Hv. injection Hv as <- <-.
    split; [lia|]. split; [lia|]. split; [lia|]. split; [lia|].
    intros E. split; [reflexivity | symmetry; exact E].
  - destruct ((r_channels r1 <? 3) || (r_channels r2 <? 3))%nat; [discriminate|].
    intros Hv. injection Hv as <- <-.
    assert (D : forall r, r_rows (if (r_channels r =? 3)%nat then cvtColor_RGB2RGBA r else r)
                          = r_rows r /\
                          r_cols (if (r_channels r =? 3)%nat then cvtColor_RGB2RGBA r else r)
                          = r_cols r).
    { intros r. destruct (r_channels r =? 3)%nat; split; reflexivity. }
    destruct (D r1) as [D1r D1c]. destruct (D r2) as [D2r D2c].
    rewrite D1r, D1c, D2r, D2c.
    split; [lia|]. split; [lia|]. split; [lia|]. split; [lia|].
    intros E. subst r2. contradiction.
Qed.

(** Whenever [main] prints, the value is the final score of the loop run
    on a valid pair of buffers, the same buffer twice when an image is
    compared with itself. *)
Lemma main_printed (r1 r2 : Raster) (s : xdouble) :
  main r1 r2 = Printed s ->
  exists img1 img2 nChan,
    valid_buffers img1 img2 nChan /\
    s = final_score (snd (multi_scale img1 img2 nChan)) /\
    (r1 = r2 -> img1 = img2).
Proof.
  unfold main.
  destruct (validate r1 r2) as [e|[t1 t2]] eqn:Ev; [discriminate|].
  destruct (validate_inr r1 r2 t1 t2 Ev) as (H8r & H8c & Hr & Hc & Hsame).
  destruct (normalise t1 t2) as [i1 i2|e|] eqn:En; try discriminate.
  intros H. injection H as <-.
  exists i1, i2, (r_channels t1).
  unfold normalise in En.
  destruct (Nat.eqb_spec (r_channels t1) 3) as [E3|N3].
  { rewrite E3 in En. cbn [Nat.eqb Nat.ltb Nat.leb] in En. injection En as <- <-.
    split; [|split; [rewrite E3; reflexivity|]].
    - unfold valid_buffers. cbn [lab_all LUT rows cols]. repeat split; auto.
    - intros E. destruct (Hsame E) as [-> ->]. reflexivity. }
  destruct (Nat.eqb_spec (r_channels t1) 4) as [E4|N4].
  { rewrite E4 in En. cbn [Nat.eqb Nat.ltb Nat.leb] in En. injection En as <- <-.
    split; [|split; [rewrite E4; reflexivity|]].
    - unfold valid_buffers. cbn [lab_all LUT blend_gray rows cols r_rows r_cols].
      repeat split; auto.
    - intros E. destruct (Hsame E) as [-> ->]. reflexivity. }
  destruct (Nat.eqb_spec (r_channels t1) 1) as [E1|N1]; [|discriminate].
  rewrite gray_fill_released in En by nia. discriminate.
Qed.

End Colour.

(** ** What halving does to a dimension *)

Ltac divmod n :=
  pose proof (Nat.div_mod_eq n 2); pose proof (Nat.mod_upper_bound n 2 ltac:(lia));
  pose proof (Nat.div_mod_eq n 4); pose proof (Nat.mod_upper_bound n 4 ltac:(lia)).

Lemma resize_dim_half (n : nat) : resize_dim 0.5 n = half n.
Proof.
  unfold resize_dim, cvRound, of_nat, half.
  set (z := Z.of_nat n).
  assert (F : Qfloor (inject_Z z * 0.5) = (z / 2)%Z).
  { unfold Qfloor, Qmult, inject_Z. cbn [Qnum Qden].
    change (Z.pos (1 * 10)) with 10%Z.
    pose proof (Z.div_mod z 2 ltac:(lia)).
    pose proof (Z.mod_pos_bound z 2 ltac:(lia)).
    symmetry. apply Z.div_unique with (r := (5 * (z mod 2))%Z); lia. }
  rewrite F.
  pose proof (Z.div_mod z 2 ltac:(lia)) as D.
  pose proof (Z.mod_pos_bound z 2 ltac:(lia)) as B.
  assert (C : Qcompare (inject_Z z * 0.5 - inject_Z (z / 2)) (1 # 2)
              = if (z mod 2 =? 0)%Z then Lt else Eq).
  { destruct (Z.eqb_spec (z mod 2) 0) as [E|E].
    - apply (proj1 (Qlt_alt _ _)).
      assert (inject_Z z == 2 * inject_Z (z / 2)).
      { rewrite D at 1. rewrite E. rewrite Z.add_0_r, inject_Z_mult. reflexivity. }
      lra.
    - apply (proj1 (Qeq_alt _ _)).
      assert (inject_Z z == 2 * inject_Z (z / 2) + 1).
      { rewrite D at 1. replace (z mod 2)%Z with 1%Z by lia.
        rewrite inject_Z_plus, inject_Z_mult. reflexivity. }
      lra. }
  rewrite C. clear F C D B.
  pose proof (Nat.div_mod_eq n 2) as D2.
  pose proof (Nat.mod_upper_bound n 2 ltac:(lia)) as B2.
  pose proof (Nat.div_mod_eq n 4) as D4.
  pose proof (Nat.mod_upper_bound n 4 ltac:(lia)) as B4.
  set (q := (n / 4)%nat) in *. set (r := (n mod 4)%nat) in *.
  assert (Hq : exists c d,
             ((c = 0 \/ c = 1) /\ (d = 0 \/ d = 1) /\ Z.of_nat r = 2 * c + d /\
              z = 2 * (c + 2 * Z.of_nat q) + d)%Z).
  { unfold z. destruct r as [|[|[|[|r]]]]; [| | | |lia].
    - exists 0%Z, 0%Z. lia.
    - exists 0%Z, 1%Z. lia.
    - exists 1%Z, 0%Z. lia.
    - exists 1%Z, 1%Z. lia. }
  destruct Hq as (c & d & Hc & Hd & Hr & Hzz).
  assert (Ediv : (z / 2 = c + 2 * Z.of_nat q)%Z)
    by (symmetry; apply Z.div_unique with (r := d); lia).
  assert (Emod : (z mod 2 = d)%Z)
    by (symmetry; apply Z.mod_unique with (q := (c + 2 * Z.of_nat q)%Z); lia).
  rewrite Emod, Ediv, Z.even_add_mul_2.
  destruct Hc as [-> | ->]; destruct Hd as [-> | ->]; cbn [Z.eqb Z.even];
    destruct (Nat.eqb_spec r 3); lia.
Qed.

(** ** The score of a valid pair *)

Section Score.

Context {cv : CvLib}.

(** On every valid pair of buffers the final value is finite and lies in
    [0, 1].  It is [score_max / score - 1] of the accumulated sums, raised
    to 0 when negative and lowered to 1 when above 1; when [score] is zero
    the quotient is infinite and the value is the cap, 1. *)
Lemma buffers_final_score (img1 img2 : Mat) (nChan : nat) :
  valid_buffers img1 img2 nChan ->
  let a := snd (multi_scale img1 img2 nChan) in
  (exists q, final_score a = Finite q /\ 0 <= q /\ q <= 1 /\
             (score a == 0 -> q == 1) /\
             (~ score a == 0 -> q == Qmax 0 (Qmin 1 (score_max a / score a - 1)))) /\
  (forall r1 r2, valid_input r1 r2 -> (r_channels r1 = 3 \/ r_channels r1 = 4)%nat ->
     exists q, main r1 r2 = Printed (Finite q) /\ 0 <= q /\ q <= 1) /\
  (forall r1 r2 s, main r1 r2 = Printed s ->
     exists q, s = Finite q /\ 0 <= q /\ q <= 1).
Proof.
  intros V a. split; [|split].
  - apply final_score_range. apply multi_scale_score_max_pos. exact V.
  - intros r1 r2 Vr H34. apply main_colour_in_range; assumption.
  - intros r1 r2 s H.
    destruct (main_printed r1 r2 s H) as (i1 & i2 & n & Vb & -> & _).
    destruct (final_score_range (snd (multi_scale i1 i2 n)))
      as (q & Hq & H0 & H1 & _).
    { apply multi_scale_score_max_pos, Vb. }
    exists q. split; [exact Hq|]. split; assumption.
Qed.

(** For a valid pair of equal buffers: at every scale done each SSIM
    value is 1; at scale 0 the map [1 - edgediff] is 1 everywhere and the
    row and column values the grid detector selects, on both maps, are 1;
    so [score] equals [score_max], and the final value is 0. *)
Lemma equal_buffers_score_zero (img : Mat) (nChan : nat) :
  valid_buffers img img nChan ->
  let n := fst (multi_scale img img nChan) in
  let a := snd (multi_scale img img nChan) in
  let mu := GaussianBlur img ksize sigma in
  (forall s c, (s < n)%nat -> (c < nChan)%nat ->
     uniform (ssim_map (pyramid img s) (pyramid img s)) c 1) /\
  (forall c, (c < nChan)%nat -> uniform (edge_map img img mu mu) c 1) /\
  (forall c, (c < nChan)%nat ->
     opt_eqv (worst_row (edge_map img img mu mu) c) (Some 1) /\
     opt_eqv (worst_col (edge_map img img mu mu) c) (Some 1) /\
     opt_eqv (worst_row (ssim_map img img) c) (Some 1) /\
     opt_eqv (worst_col (ssim_map img img) c) (Some 1)) /\
  score a == score_max a /\
  0 < score_max a /\
  (exists q, final_score a = Finite q /\ q == 0) /\
  (forall r, valid_input r r -> (r_channels r = 3 \/ r_channels r = 4)%nat ->
     exists q, main r r = Printed (Finite q) /\ q == 0) /\
  (forall r s, main r r = Printed s -> exists q, s = Finite q /\ q == 0).
Proof.
  intros V n a mu. pose proof V as (Hr & Hc & _ & _ & Hn).
  assert (Hn4 : (nChan <= 4)%nat) by lia.
  assert (Hb : balanced a) by (apply multi_scale_balanced; exact Hn4).
  assert (Hm : 0 < score_max a) by (apply multi_scale_score_max_pos; exact V).
  split; [|split; [|split; [|split; [|split; [|split; [|split]]]]]].
  - intros s c _ Hc'. apply ssim_identical. lia.
  - intros c Hc'. apply edge_identical. lia.
  - intros c Hc'.
    assert (UE : uniform (edge_map img img mu mu) c 1) by (apply edge_identical; lia).
    assert (US : uniform (ssim_map img img) c 1) by (apply ssim_identical; lia).
    assert (Er : rows (edge_map img img mu mu) = rows img) by reflexivity.
    assert (Ec : cols (edge_map img img mu mu) = cols img) by reflexivity.
    pose proof (ssim_map_rows img img) as Sr. pose proof (ssim_map_cols img img) as Sc.
    split; [apply worst_row_uniform; [exact UE | lia | lia]|].
    split; [apply worst_col_uniform; [exact UE | lia | lia]|].
    split; [apply worst_row_uniform; [exact US | lia | lia]|].
    apply worst_col_uniform; [exact US | lia | lia].
  - exact Hb.
  - exact Hm.
  - apply balanced_final; assumption.
  - intros r Vr H34. apply main_colour_identical; assumption.
  - intros r s H.
    destruct (main_printed r r s H) as (i1 & i2 & k & Vb & -> & Hsame).
    rewrite <- (Hsame eq_refl) in *.
    apply balanced_final.
    + apply multi_scale_balanced. destruct Vb as (_ & _ & _ & _ & Hk). lia.
    + apply multi_scale_score_max_pos, Vb.
Qed.

(** On buffers of at least 8 by 8 the loop does between one and six
    iterations.  The iteration at scale [s] works on the buffers resized
    [s] times by [resize(..., 0.5, 0.5, INTER_AREA)], whose dimensions are
    still at least 8; when fewer than six iterations are done, the next
    buffers have a dimension below 8. *)
Lemma buffers_scale_loop (img1 img2 : Mat) (nChan : nat) :
  (8 <= rows img1)%nat -> (8 <= cols img1)%nat ->
  let n := fst (multi_scale img1 img2 nChan) in
  (1 <= n <= 6)%nat /\
  (forall s, (s < n)%nat ->
     (8 <= rows (pyramid img1 s))%nat /\ (8 <= cols (pyramid img1 s))%nat) /\
  ((n < 6)%nat ->
     (cols (pyramid img1 n) < 8)%nat \/ (rows (pyramid img1 n) < 8)%nat) /\
  (forall s img, pyramid img (S s) = resize (pyramid img s) 0.5 /\
     rows (pyramid img (S s)) = resize_dim 0.5 (rows (pyramid img s)) /\
     cols (pyramid img (S s)) = resize_dim 0.5 (cols (pyramid img s))) /\
  snd (multi_scale img1 img2 nChan)
  = fold_left
      (fun a s => snd (scale_iteration s (pyramid img1 s) (pyramid img2 s) nChan a))
      (seq 0 n) (mkAcc 0 0) /\
  (forall r1 r2 s, main r1 r2 = Printed s ->
     exists b1 b2 k,
       valid_buffers b1 b2 k /\ s = final_score (snd (multi_scale b1 b2 k)) /\
       (1 <= fst (multi_scale b1 b2 k) <= 6)%nat).
Proof.
  intros Hr Hc n.
  assert (En : n = scales_from 6 (rows img1) (cols img1)).
  { unfold n, multi_scale. rewrite scale_loop_fst. reflexivity. }
  destruct (scales_from_spec 6 (rows img1) (cols img1)) as [S1 S2].
  split; [|split; [|split; [|split; [|split]]]].
  - rewrite En. split; [apply scales_from_pos; assumption | apply scales_from_le].
  - intros s Hs. rewrite pyramid_rows, pyramid_cols. apply S1. rewrite <- En. exact Hs.
  - intros Hn. rewrite pyramid_rows, pyramid_cols. rewrite En. apply S2.
    rewrite <- En. exact Hn.
  - intros s img. split; [reflexivity|]. split.
    + change (pyramid img (S s)) with (resize (pyramid img s) 0.5). apply resize_rows.
    + change (pyramid img (S s)) with (resize (pyramid img s) 0.5). apply resize_cols.
  - unfold multi_scale. rewrite scale_loop_snd, <- En. reflexivity.
  - intros r1 r2 s H.
    destruct (main_printed r1 r2 s H) as (b1 & b2 & k & Vb & Hs & _).
    exists b1, b2, k. split; [exact Vb|]. split; [exact Hs|].
    destruct Vb as (Br & Bc & _).
    unfold multi_scale. rewrite scale_loop_fst. cbn [Nat.add].
    split; [apply scales_from_pos; assumption | apply scales_from_le].
Qed.

(** ** Valid pairs through the whole of [main] *)

(** A one-channel pair: lines 328-329 read the rasters that lines 315-316
    have released. *)
Lemma normalise_gray (a b : Raster) :
  r_channels a = 1%nat -> (0 < r_rows a * r_cols a)%nat ->
  normalise a b = NormUndefined.
Proof.
  intros H1 Hp. unfold normalise. rewrite H1. simpl.
  rewrite gray_fill_released by exact Hp. reflexivity.
Qed.

Lemma main_gray (a b : Raster) :
  valid_input a b -> r_channels a = 1%nat ->
  normalise a b = NormUndefined /\ main a b = Undefined /\
  forall s, main a b <> Printed s.
Proof.
  intros (W1 & W2 & Hr & Hc & Hch & H8r & H8c & _) H1.
  assert (En : normalise a b = NormUndefined) by (apply normalise_gray; [exact H1 | nia]).
  assert (Em : main a b = Undefined).
  { unfold main. rewrite validate_same_channels by congruence. rewrite En. reflexivity. }
  split; [exact En|]. split; [exact Em|]. intros s Hs. rewrite Em in Hs. discriminate Hs.
Qed.

(** A pair of three or four channels: the buffers the loop receives. *)
Lemma main_buffers (a b : Raster) :
  valid_input a b -> r_channels a <> 1%nat ->
  exists img1 img2,
    validate a b = inr (a, b) /\
    normalise a b = Buffers img1 img2 /\
    rows img1 = r_rows a /\ cols img1 = r_cols a /\
    rows img2 = r_rows a /\ cols img2 = r_cols a /\
    (a = b -> img1 = img2) /\
    valid_buffers img1 img2 (r_channels a) /\
    main a b = Printed (final_score (snd (multi_scale img1 img2 (r_channels a)))).
Proof.
  intros (W1 & W2 & Hr & Hc & Hch & H8r & H8c & Hn) N1.
  assert (Ev : validate a b = inr (a, b))
    by (apply validate_same_channels; congruence).
  assert (H34 : (r_channels a = 3 \/ r_channels a = 4)%nat) by lia.
  assert (En : exists img1 img2,
             normalise a b = Buffers img1 img2 /\
             rows img1 = r_rows a /\ cols img1 = r_cols a /\
             rows img2 = r_rows b /\ cols img2 = r_cols b /\
             (a = b -> img1 = img2)).
  { unfold normalise.
    destruct H34 as [E|E]; rewrite E; cbn [Nat.eqb Nat.ltb Nat.leb];
      eexists _, _; (split; [reflexivity|]);
      (split; [reflexivity|]); (split; [reflexivity|]);
      (split; [reflexivity|]); (split; [reflexivity|]);
      intros <-; reflexivity. }
  destruct En as (img1 & img2 & En & R1 & K1 & R2 & K2 & Hsame).
  exists img1, img2.
  split; [exact Ev|]. split; [exact En|].
  split; [exact R1|]. split; [exact K1|].
  split; [congruence|]. split; [congruence|]. split; [exact Hsame|].
  split.
  - unfold valid_buffers. rewrite R1, K1, R2, K2.
    split; [exact H8r|]. split; [exact H8c|]. split; [exact Hr|]. split; [exact Hc|].
    exact Hn.
  - unfold main. rewrite Ev, En. reflexivity.
Qed.

(** C2 fails on the code for grayscale.  For every valid pair: with one
    channel no score is returned at all, since the rasters are released
    (lines 315-316) before line 328 reads them; with three or four
    channels the value [main] prints is the final score of the sums
    [score] and [score_max] that the loop accumulates on the normalised
    pair, that is [score_max / score - 1] raised to 0 when negative and
    lowered to 1 when above 1 (the cap, 1, when [score] is zero and the
    quotient infinite), a finite value in [0, 1]. *)
Theorem valid_pair_score (r1 r2 : Raster) :
  valid_input r1 r2 ->
  (r_channels r1 = 1%nat ->
     normalise r1 r2 = NormUndefined /\ main r1 r2 = Undefined /\
     forall s, main r1 r2 <> Printed s) /\
  (r_channels r1 <> 1%nat ->
     exists img1 img2 q,
       validate r1 r2 = inr (r1, r2) /\
       normalise r1 r2 = Buffers img1 img2 /\
       let a := snd (multi_scale img1 img2 (r_channels r1)) in
       main r1 r2 = Printed (Finite q) /\
       final_score a = Finite q /\
       0 < score_max a /\
       (score a == 0 -> q == 1) /\
       (~ score a == 0 -> q == Qmax 0 (Qmin 1 (score_max a / score a - 1))) /\
       0 <= q /\ q <= 1).
Proof.
  intros V. split.
  - intros H1. apply main_gray; assumption.
  - intros N1.
    destruct (main_buffers r1 r2 V N1)
      as (img1 & img2 & Ev & En & _ & _ & _ & _ & _ & VB & Em).
    pose proof (multi_scale_score_max_pos img1 img2 (r_channels r1) VB) as Hm.
    destruct (final_score_range (snd (multi_scale img1 img2 (r_channels r1))) Hm)
      as (q & Hq & H0 & H1 & Hz & Hnz).
    exists img1, img2, q.
    split; [exact Ev|]. split; [exact En|]. cbv zeta.
    split; [rewrite Em, Hq; reflexivity|].
    split; [exact Hq|]. split; [exact Hm|]. split; [exact Hz|].
    split; [exact Hnz|]. split; [exact H0 | exact H1].
Qed.

(** C1 fails on the code for grayscale.  For every valid image compared
    with itself: with one channel [main] reads the released raster and no
    score is computed; with three or four channels both buffers are the
    same, every SSIM value of every scale done is 1, the map
    [1 - edgediff] is 1 everywhere, the values the grid detector selects
    are 1, [score] equals [score_max], and the value printed is 0. *)
Theorem identical_pair_score (r : Raster) :
  valid_input r r ->
  (r_channels r = 1%nat ->
     normalise r r = NormUndefined /\ main r r = Undefined /\
     forall s, main r r <> Printed s) /\
  (r_channels r <> 1%nat ->
     exists img q,
       normalise r r = Buffers img img /\
       main r r = Printed (Finite q) /\ q == 0 /\
       let nChan := r_channels r in
       let n := fst (multi_scale img img nChan) in
       let a := snd (multi_scale img img nChan) in
       let mu := GaussianBlur img ksize sigma in
       final_score a = Finite q /\
       (1 <= n)%nat /\
       (forall s c, (s < n)%nat -> (c < nChan)%nat ->
          uniform (ssim_map (pyramid img s) (pyramid img s)) c 1) /\
       (forall c, (c < nChan)%nat -> uniform (edge_map img img mu mu) c 1) /\
       (forall c, (c < nChan)%nat ->
          opt_eqv (worst_row (edge_map img img mu mu) c) (Some 1) /\
          opt_eqv (worst_col (edge_map img img mu mu) c) (Some 1) /\
          opt_eqv (worst_row (ssim_map img img) c) (Some 1) /\
          opt_eqv (worst_col (ssim_map img img) c) (Some 1)) /\
       score a == score_max a /\
       0 < score_max a).
Proof.
  intros V. split.
  - intros H1. apply main_gray; assumption.
  - intros N1.
    destruct (main_buffers r r V N1)
      as (img & img2 & _ & En & _ & _ & _ & _ & Hsame & VB & Em).
    rewrite <- (Hsame eq_refl) in *. clear Hsame img2.
    pose proof (equal_buffers_score_zero img (r_channels r) VB) as L.
    cbv zeta in L.
    destruct L as (Hssim & Hedge & Hgrid & Hbal & Hpos & (q & Hq & Hz) & _).
    pose proof VB as (H8r & H8c & _).
    exists img, q.
    split; [exact En|]. split; [rewrite Em, Hq; reflexivity|]. split; [exact Hz|].
    cbv zeta. split; [exact Hq|].
    pose proof (buffers_scale_loop img img (r_channels r) H8r H8c) as L'.
    cbv zeta in L'.
    split; [exact (proj1 (proj1 L'))|].
    split; [exact Hssim|]. split; [exact Hedge|]. split; [exact Hgrid|].
    split; [exact Hbal | exact Hpos].
Qed.

(** C9 fails on the code for grayscale.  For every valid pair: with one
    channel [main] stops at the read of the released raster and the loop
    is not entered; with three or four channels the loop runs on the two
    normalised buffers, which have the dimensions of the images, and does
    between one and six iterations.  The iteration at scale [s] works on
    both buffers resized [s] times by 0.5, which halves each dimension
    [d] to [d / 2], or to [d / 2 + 1] when [d mod 4 = 3] ([cvRound] of
    [d * 0.5], ties to even); while an iteration is done both dimensions
    are at least 8, and when fewer than six are done the next buffers
    have a dimension below 8. *)
Theorem valid_pair_scale_loop (r1 r2 : Raster) :
  valid_input r1 r2 ->
  (r_channels r1 = 1%nat ->
     normalise r1 r2 = NormUndefined /\ main r1 r2 = Undefined /\
     forall s, main r1 r2 <> Printed s) /\
  (r_channels r1 <> 1%nat ->
     exists img1 img2,
       normalise r1 r2 = Buffers img1 img2 /\
       rows img1 = r_rows r1 /\ cols img1 = r_cols r1 /\
       rows img2 = r_rows r1 /\ cols img2 = r_cols r1 /\
       let nChan := r_channels r1 in
       let n := fst (multi_scale img1 img2 nChan) in
       main r1 r2 = Printed (final_score (snd (multi_scale img1 img2 nChan))) /\
       (1 <= n <= 6)%nat /\
       (forall s, (s < n)%nat ->
          (8 <= rows (pyramid img1 s))%nat /\ (8 <= cols (pyramid img1 s))%nat) /\
       ((n < 6)%nat ->
          (cols (pyramid img1 n) < 8)%nat \/ (rows (pyramid img1 n) < 8)%nat) /\
       (forall s,
          pyramid img1 (S s) = resize (pyramid img1 s) 0.5 /\
          pyramid img2 (S s) = resize (pyramid img2 s) 0.5 /\
          rows (pyramid img2 s) = rows (pyramid img1 s) /\
          cols (pyramid img2 s) = cols (pyramid img1 s) /\
          (let d := rows (pyramid img1 s) in
           rows (pyramid img1 (S s))
           = if (d mod 4 =? 3)%nat then (d / 2 + 1)%nat else (d / 2)%nat) /\
          (let d := cols (pyramid img1 s) in
           cols (pyramid img1 (S s))
           = if (d mod 4 =? 3)%nat then (d / 2 + 1)%nat else (d / 2)%nat)) /\
       snd (multi_scale img1 img2 nChan)
       = fold_left
           (fun a s =>
              snd (scale_iteration s (pyramid img1 s) (pyramid img2 s) nChan a))
           (seq 0 n) (mkAcc 0 0)).
Proof.
  intros V. split.
  - intros H1. apply main_gray; assumption.
  - intros N1.
    destruct (main_buffers r1 r2 V N1)
      as (img1 & img2 & _ & En & R1 & K1 & R2 & K2 & _ & VB & Em).
    pose proof VB as (H8r & H8c & _).
    pose proof (buffers_scale_loop img1 img2 (r_channels r1) H8r H8c) as L.
    cbv zeta in L.
    destruct L as (Hn & Hdo & Hstop & Hstep & Hfold & _).
    exists img1, img2.
    split; [exact En|]. split; [exact R1|]. split; [exact K1|].
    split; [exact R2|]. split; [exact K2|]. cbv zeta.
    split; [exact Em|]. split; [exact Hn|]. split; [exact Hdo|].
    split; [exact Hstop|]. split; [|exact Hfold].
    intros s.
    destruct (Hstep s img1) as (P1 & Pr & Pc).
    destruct (Hstep s img2) as (P2 & _ & _).
    split; [exact P1|]. split; [exact P2|].
    split; [rewrite !pyramid_rows, R1, R2; reflexivity|].
    split; [rewrite !pyramid_cols, K1, K2; reflexivity|].
    split.
    + rewrite Pr, resize_dim_half. reflexivity.
    + rewrite Pc, resize_dim_half. reflexivity.
Qed.

End Score.

(** ** The model on concrete inputs *)

Example scales_for_8x8 : scales_for 8 8 = 1%nat.
Proof. vm_compute. reflexivity. Qed.

(** [cvRound] rounds 7.5 to 8: a 15 by 15 image gets a second scale. *)
Example scales_for_15x15 : scales_for 15 15 = 2%nat.
Proof. vm_compute. reflexivity. Qed.

Example scales_for_16x40 : scales_for 16 40 = 2%nat.
Proof. vm_compute. reflexivity. Qed.

Example scales_for_512x512 : scales_for 512 512 = 6%nat.
Proof. vm_compute. reflexivity. Qed.

Example scales_for_4096x4096 : scales_for 4096 4096 = 6%nat.
Proof. vm_compute. reflexivity. Qed.

Example total_weight_rgb_8x8 : total_weight 3 1 == 65709 # 10000.
Proof. vm_compute. reflexivity. Qed.

Example blend_half_transparent :
  blend_pixel [200; 100; 0; 51]%Z = [142; 122; 102; 51]%Z.
Proof. vm_compute. reflexivity. Qed.

Example final_score_zero_sum : final_score (mkAcc 0 3) = Finite 1.
Proof. vm_compute. reflexivity. Qed.

Example final_score_negative_sum : final_score (mkAcc (-2) 3) = Finite 0.
Proof. vm_compute. reflexivity. Qed.

Lemma tiled_raster_well_formed (r c : nat) (p : list Z) :
  Forall (fun s => (0 <= s < 256)%Z) p -> well_formed (tiled_raster r c p).
Proof.
  intros H. split; simpl.
  - apply repeat_length.
  - apply Forall_forall. intros q Hq. apply repeat_spec in Hq. subst q.
    split; [reflexivity | exact H].
Qed.

Lemma flat_raster_well_formed (r c ch : nat) (v : Z) :
  (0 <= v < 256)%Z -> well_formed (flat_raster r c ch v).
Proof.
  intros H. split; simpl.
  - apply repeat_length.
  - apply Forall_forall. intros q Hq. apply repeat_spec in Hq. subst q.
    split; [apply repeat_length|].
    apply Forall_forall. intros s Hs. apply repeat_spec in Hs. subst s. exact H.
Qed.

Lemma flat_raster_valid (ch : nat) :
  (ch = 1 \/ ch = 3 \/ ch = 4)%nat ->
  valid_input (flat_raster 8 8 ch 128) (flat_raster 8 8 ch 128).
Proof.
  intros H. unfold valid_input. simpl.
  repeat split; try lia; try exact H; apply flat_raster_well_formed; lia.
Qed.

Lemma flat_mat_valid (u v : Q) (nChan : nat) :
  (nChan = 1 \/ nChan = 3 \/ nChan = 4)%nat ->
  valid_buffers (flat_mat 8 8 u) (flat_mat 8 8 v) nChan.
Proof. intros H. unfold valid_buffers. simpl. repeat split; try lia. Qed.

Lemma identical_pair_score_witness :
  valid_input (flat_raster 8 8 1 128) (flat_raster 8 8 1 128) /\
  r_channels (flat_raster 8 8 1 128) = 1%nat /\
  main (cv := RefLib) (flat_raster 8 8 1 128) (flat_raster 8 8 1 128) = Undefined /\
  exists q,
    main (cv := RefLib) (flat_raster 8 8 3 128) (flat_raster 8 8 3 128)
    = Printed (Finite q) /\ q == 0.
Proof.
  assert (V1 : valid_input (flat_raster 8 8 1 128) (flat_raster 8 8 1 128))
    by (apply flat_raster_valid; lia).
  assert (V3 : valid_input (flat_raster 8 8 3 128) (flat_raster 8 8 3 128))
    by (apply flat_raster_valid; lia).
  split; [exact V1|]. split; [reflexivity|]. split.
  - exact (proj1 (proj2 (proj1 (identical_pair_score (cv := RefLib) _ V1) eq_refl))).
  - destruct (proj2 (identical_pair_score (cv := RefLib) _ V3))
      as (img & q & _ & Hp & Hq & _); [simpl; discriminate|].
    exists q. split; [exact Hp | exact Hq].
Defined.

Lemma valid_pair_score_witness :
  valid_input (flat_raster 8 8 1 128) (flat_raster 8 8 1 128) /\
  r_channels (flat_raster 8 8 1 128) = 1%nat /\
  main (cv := RefLib) (flat_raster 8 8 1 128) (flat_raster 8 8 1 128) = Undefined /\
  exists img1 img2 q,
    normalise (cv := RefLib) (flat_raster 8 8 4 128) (flat_raster 8 8 4 128)
    = Buffers img1 img2 /\
    main (cv := RefLib) (flat_raster 8 8 4 128) (flat_raster 8 8 4 128)
    = Printed (Finite q) /\
    final_score (snd (multi_scale (cv := RefLib) img1 img2 4)) = Finite q /\
    0 <= q /\ q <= 1.
Proof.
  assert (V1 : valid_input (flat_raster 8 8 1 128) (flat_raster 8 8 1 128))
    by (apply flat_raster_valid; lia).
  assert (V4 : valid_input (flat_raster 8 8 4 128) (flat_raster 8 8 4 128))
    by (apply flat_raster_valid; lia).
  split; [exact V1|]. split; [reflexivity|]. split.
  - exact (proj1 (proj2 (proj1 (valid_pair_score (cv := RefLib) _ _ V1) eq_refl))).
  - destruct (proj2 (valid_pair_score (cv := RefLib) _ _ V4))
      as (img1 & img2 & q & _ & En & Hp & Hf & _ & _ & _ & H0 & H1);
      [simpl; discriminate|].
    exists img1, img2, q.
    split; [exact En|]. split; [exact Hp|]. split; [exact Hf|].
    split; [exact H0 | exact H1].
Defined.

Lemma ssim_map_formula_witness :
  (0 < 4)%nat /\
  forall scale nChan a,
    snd (scale_iteration (cv := RefLib) scale (flat_mat 8 8 (1 # 2))
           (flat_mat 8 8 (1 # 4)) nChan a)
    = worst_ssim (ssim_map (flat_mat 8 8 (1 # 2)) (flat_mat 8 8 (1 # 4))) nChan scale
        (average_ssim (ssim_map (flat_mat 8 8 (1 # 2)) (flat_mat 8 8 (1 # 4))) nChan scale
           (if (scale =? 0)%nat
            then grid_artifacts (ssim_map (flat_mat 8 8 (1 # 2)) (flat_mat 8 8 (1 # 4)))
                   nChan
                   (edge_artifacts (flat_mat 8 8 (1 # 2)) (flat_mat 8 8 (1 # 4))
                      (GaussianBlur (flat_mat 8 8 (1 # 2)) ksize sigma)
                      (GaussianBlur (flat_mat 8 8 (1 # 4)) ksize sigma) nChan a) 0
            else a)).
Proof.
  assert (H : (0 < 4)%nat) by lia.
  split; [exact H|].
  exact (proj2 (proj2 (ssim_map_formula (cv := RefLib) (flat_mat 8 8 (1 # 2))
                         (flat_mat 8 8 (1 # 4)) 0 0 0 H))).
Defined.

Lemma edge_penalty_witness :
  exists a_e,
    score a_e == 17 # 10 /\ score_max a_e == 17 # 10 /\
    snd (scale_iteration (cv := RefLib) 0 (flat_mat 8 8 (1 # 2))
           (flat_mat 8 8 (1 # 2)) 3 (mkAcc 0 0))
    = worst_ssim (ssim_map (flat_mat 8 8 (1 # 2)) (flat_mat 8 8 (1 # 2))) 3 0
        (average_ssim (ssim_map (flat_mat 8 8 (1 # 2)) (flat_mat 8 8 (1 # 2))) 3 0
           (grid_artifacts (ssim_map (flat_mat 8 8 (1 # 2)) (flat_mat 8 8 (1 # 2))) 3
              (grid_artifacts
                 (edge_map (flat_mat 8 8 (1 # 2)) (flat_mat 8 8 (1 # 2))
                    (@GaussianBlur RefLib (flat_mat 8 8 (1 # 2)) ksize sigma)
                    (@GaussianBlur RefLib (flat_mat 8 8 (1 # 2)) ksize sigma))
                 3 a_e 1) 0)).
Proof.
  pose proof (edge_penalty (cv := RefLib) (flat_mat 8 8 (1 # 2)) (flat_mat 8 8 (1 # 2))
                3 (mkAcc 0 0)) as L.
  cbv zeta in L.
  destruct L as (_ & _ & _ & Hmean & (a_e & _ & Hs & Hm & _ & Hit) & _).
  exists a_e.
  assert (A : forall i, (i < 3)%nat ->
            sumQ (rows (flat_mat 8 8 (1 # 2)))
              (fun y => sumQ (cols (flat_mat 8 8 (1 # 2)))
                 (fun x => px (edge_map (flat_mat 8 8 (1 # 2)) (flat_mat 8 8 (1 # 2))
                                 (@GaussianBlur RefLib (flat_mat 8 8 (1 # 2)) ksize sigma)
                                 (@GaussianBlur RefLib (flat_mat 8 8 (1 # 2)) ksize sigma))
                              y x i))
            / of_nat (rows (flat_mat 8 8 (1 # 2)) * cols (flat_mat 8 8 (1 # 2))) == 1).
  { intros i Hi. rewrite <- Hmean.
    apply mean_uniform; [apply edge_identical; lia | simpl; lia | simpl; lia]. }
  split; [|split; [|exact Hit]].
  - rewrite Hs. cbn [sumQ score]. rewrite (A 0%nat), (A 1%nat), (A 2%nat) by lia.
    reflexivity.
  - rewrite Hm. reflexivity.
Defined.

Lemma rejected_inputs_witness :
  main (cv := RefLib) (flat_raster 8 8 3 128) (flat_raster 8 9 3 128)
    = Rejected DimensionMismatch /\
  main (cv := RefLib) (flat_raster 4 4 3 128) (flat_raster 4 4 3 128)
    = Rejected ImageTooSmall /\
  main (cv := RefLib) (flat_raster 8 8 1 128) (flat_raster 8 8 3 128)
    = Rejected ChannelMismatch /\
  main (cv := RefLib) (flat_raster 8 8 2 128) (flat_raster 8 8 2 128)
    = Rejected UnsupportedChannelCount.
Proof.
  split; [|split; [|split]].
  - refine (proj2 (proj1 (rejected_inputs (cv := RefLib)
                            (flat_raster 8 8 3 128) (flat_raster 8 9 3 128)) _)).
    simpl. lia.
  - refine (proj2 (proj1 (proj2 (rejected_inputs (cv := RefLib)
                                   (flat_raster 4 4 3 128) (flat_raster 4 4 3 128)))
                     _ _ _)); simpl; lia.
  - refine (proj2 (proj1 (proj2 (proj2 (rejected_inputs (cv := RefLib)
                                          (flat_raster 8 8 1 128) (flat_raster 8 8 3 128))))
                     _ _ _ _ _ _)); simpl; lia.
  - refine (proj2 (proj1 (proj2 (proj2 (proj2 (rejected_inputs (cv := RefLib)
                                                 (flat_raster 8 8 2 128)
                                                 (flat_raster 8 8 2 128)))))
                     _ _ _ _ _ _ _ _)); simpl; lia.
Defined.

Lemma grayscale_reads_released_buffer_witness :
  valid_input (flat_raster 8 8 1 128) (flat_raster 8 8 1 128) /\
  r_channels (flat_raster 8 8 1 128) = 1%nat /\
  main (cv := RefLib) (flat_raster 8 8 1 128) (flat_raster 8 8 1 128) = Undefined.
Proof.
  assert (V : valid_input (flat_raster 8 8 1 128) (flat_raster 8 8 1 128))
    by (apply flat_raster_valid; lia).
  split; [exact V|]. split; [reflexivity|].
  exact (proj2 (grayscale_reads_released_buffer (cv := RefLib) _ _ V eq_refl)).
Defined.

Lemma alpha_blend_witness :
  well_formed (tiled_raster 8 8 [200; 100; 0; 51]%Z) /\
  nth_error (r_data (blend_gray (tiled_raster 8 8 [200; 100; 0; 51]%Z) (8 * 8))) 5
  = Some [142; 122; 102; 51]%Z.
Proof.
  assert (W : well_formed (tiled_raster 8 8 [200; 100; 0; 51]%Z)).
  { apply tiled_raster_well_formed. repeat constructor; lia. }
  split; [exact W|].
  destruct (proj2 (alpha_blend (cv := RefLib) (tiled_raster 8 8 [200; 100; 0; 51]%Z)
                     (tiled_raster 8 8 [200; 100; 0; 51]%Z)
                     W W eq_refl eq_refl eq_refl eq_refl)
                  (tiled_raster 8 8 [200; 100; 0; 51]%Z) (or_introl eq_refl)
                  5%nat [200; 100; 0; 51]%Z eq_refl)
    as (c0 & c1 & c2 & alpha & Hp & Hb & _).
  injection Hp as <- <- <- <-. exact Hb.
Defined.

Lemma valid_pair_scale_loop_witness :
  valid_input (flat_raster 8 8 1 128) (flat_raster 8 8 1 128) /\
  r_channels (flat_raster 8 8 1 128) = 1%nat /\
  main (cv := RefLib) (flat_raster 8 8 1 128) (flat_raster 8 8 1 128) = Undefined /\
  exists img1 img2,
    normalise (cv := RefLib) (flat_raster 8 8 3 128) (flat_raster 8 8 3 128)
    = Buffers img1 img2 /\
    (1 <= fst (multi_scale (cv := RefLib) img1 img2 3) <= 6)%nat /\
    rows (@pyramid RefLib img1 1) = 4%nat.
Proof.
  assert (V1 : valid_input (flat_raster 8 8 1 128) (flat_raster 8 8 1 128))
    by (apply flat_raster_valid; lia).
  assert (V3 : valid_input (flat_raster 8 8 3 128) (flat_raster 8 8 3 128))
    by (apply flat_raster_valid; lia).
  split; [exact V1|]. split; [reflexivity|]. split.
  - exact (proj1 (proj2 (proj1 (valid_pair_scale_loop (cv := RefLib) _ _ V1) eq_refl))).
  - destruct (proj2 (valid_pair_scale_loop (cv := RefLib) _ _ V3))
      as (img1 & img2 & En & R1 & _ & _ & _ & _ & Hn & _ & _ & Hstep & _);
      [simpl; discriminate|].
    exists img1, img2. split; [exact En|]. split; [exact Hn|].
    destruct (Hstep 0%nat) as (_ & _ & _ & _ & Hr & _).
    cbv zeta in Hr. rewrite Hr.
    change (pyramid img1 0) with img1. rewrite R1. reflexivity.
Defined.

Lemma score_max_depends_on_shape_witness :
  rows (flat_mat 8 8 (1 # 4)) = rows (flat_mat 8 8 (1 # 2)) /\
  cols (flat_mat 8 8 (1 # 4)) = cols (flat_mat 8 8 (1 # 2)) /\
  score_max (snd (multi_scale (cv := RefLib) (flat_mat 8 8 (1 # 4))
                    (flat_mat 8 8 (3 # 4)) 3))
  == score_max (snd (multi_scale (cv := RefLib) (flat_mat 8 8 (1 # 2))
                       (flat_mat 8 8 (1 # 2)) 3)).
Proof.
  split; [reflexivity|]. split; [reflexivity|].
  exact (proj2 (proj2 (score_max_depends_on_shape (cv := RefLib)
                         (flat_mat 8 8 (1 # 2)) (flat_mat 8 8 (1 # 2))
                         (flat_mat 8 8 (1 # 4)) (flat_mat 8 8 (3 # 4)) 3
                         eq_refl eq_refl))).
Defined.

(** * Further properties of the code

    What follows covers the parts of [ssimx.cpp] around the scoring loop:
    the normalisation (blend, look-up table, Lab conversion, promotion),
    the outcome of [main] as a whole, the selection of [grid_artifacts],
    the range of the SSIM map and of the accumulated sums, the roles of the
    two images, the number of scales, and the choice of the decoder from
    the file name. *)

(** ** Where the final normalisation saturates (lines 459-461) *)

Lemma ratio_minus_one (s m : Q) : ~ s == 0 -> m / s - 1 == (m - s) / s.
Proof. intros H. field. exact H. Qed.

Lemma clamped_ratio_cases (a : Acc) :
  0 < score_max a -> ~ score a == 0 ->
  (score a < 0 -> clamped_ratio a == 0) /\
  (0 < score a -> 2 * score a <= score_max a -> clamped_ratio a == 1) /\
  (0 < score a -> score_max a <= score a -> clamped_ratio a == 0) /\
  (score_max a < 2 * score a -> score a < score_max a ->
   clamped_ratio a == score_max a / score a - 1 /\
   0 < score_max a / score a - 1 /\ score_max a / score a - 1 < 1).
Proof.
  intros Hm Hs. unfold clamped_ratio.
  pose proof (ratio_minus_one (score a) (score_max a) Hs) as E.
  set (r := score_max a / score a - 1) in *.
  split; [|split; [|split]].
  - intros Hneg.
    assert (Hr : r <= 0).
    { rewrite E. setoid_replace ((score_max a - score a) / score a)
        with (- ((score_max a - score a) / - score a)) by (field; exact Hs).
      assert (0 <= (score_max a - score a) / - score a)
        by (apply Qle_shift_div_l; lra).
      lra. }
    rewrite (Q.min_r 1 r) by lra. apply Q.max_l. exact Hr.
  - intros Hpos H2.
    assert (Hr : 1 <= r) by (rewrite E; apply Qle_shift_div_l; lra).
    rewrite (Q.min_l 1 r Hr). apply Q.max_r. lra.
  - intros Hpos Hge.
    assert (Hr : r <= 0) by (rewrite E; apply Qle_shift_div_r; lra).
    rewrite (Q.min_r 1 r) by lra. apply Q.max_l. exact Hr.
  - intros H2 Hlt.
    assert (Hpos : 0 < score a) by lra.
    assert (Hr0 : 0 < r).
    { rewrite E. apply Qlt_shift_div_l; lra. }
    assert (Hr1 : r < 1).
    { rewrite E. apply Qlt_shift_div_r; lra. }
    split; [|split; assumption].
    rewrite (Q.min_r 1 r) by lra. apply Q.max_r. lra.
Qed.

(** X1.  With a positive [score_max]: a negative [score] prints 0, as an
    identical pair does; a [score] from 0 to half of [score_max] prints 1;
    a [score] of [score_max] or more prints 0; in between the value is
    [score_max / score - 1], strictly between 0 and 1. *)
Theorem final_score_saturation (a : Acc) :
  0 < score_max a ->
  (score a < 0 -> prints a 0) /\
  (0 <= score a -> 2 * score a <= score_max a -> prints a 1) /\
  (score_max a <= score a -> prints a 0) /\
  (score_max a < 2 * score a -> score a < score_max a ->
   prints a (score_max a / score a - 1) /\
   0 < score_max a / score a - 1 /\ score_max a / score a - 1 < 1).
Proof.
  intros Hm.
  destruct (final_score_range a Hm) as (q & Hq & _ & _ & Hz & Hc).
  split; [|split; [|split]].
  - intros Hneg. exists q. split; [exact Hq|].
    assert (Hs : ~ score a == 0) by (intros E; rewrite E in Hneg; lra).
    rewrite (Hc Hs). exact (proj1 (clamped_ratio_cases a Hm Hs) Hneg).
  - intros H0 H2. exists q. split; [exact Hq|].
    destruct (Qeq_dec (score a) 0) as [E|Hs]; [apply Hz, E|].
    rewrite (Hc Hs).
    apply (proj1 (proj2 (clamped_ratio_cases a Hm Hs))); [|exact H2].
    destruct (Qlt_le_dec 0 (score a)) as [Hp|Hn]; [exact Hp|].
    exfalso. apply Hs. lra.
  - intros Hge. exists q. split; [exact Hq|].
    assert (Hs : ~ score a == 0) by (intros E; rewrite E in Hge; lra).
    rewrite (Hc Hs).
    apply (proj1 (proj2 (proj2 (clamped_ratio_cases a Hm Hs)))); lra.
  - intros H2 Hlt.
    assert (Hs : ~ score a == 0) by (intros E; rewrite E in H2; lra).
    destruct (proj2 (proj2 (proj2 (clamped_ratio_cases a Hm Hs))) H2 Hlt)
      as (Ec & Hr0 & Hr1).
    split; [|split; assumption].
    exists q. split; [exact Hq|]. rewrite (Hc Hs). exact Ec.
Qed.

Lemma final_score_saturation_witness :
  0 < score_max (mkAcc (-2) 3) /\
  prints (mkAcc (-2) 3) 0 /\ prints (mkAcc 1 3) 1 /\ prints (mkAcc 4 3) 0 /\
  prints (mkAcc 2 3) ((3 # 1) / (2 # 1) - 1).
Proof.
  assert (H : forall s, 0 < score_max (mkAcc s 3)) by (intros; reflexivity).
  split; [exact (H (-2))|]. split; [|split; [|split]].
  - apply (proj1 (final_score_saturation (mkAcc (-2) 3) (H (-2)))). reflexivity.
  - apply (proj1 (proj2 (final_score_saturation (mkAcc 1 3) (H 1)))); simpl; lra.
  - apply (proj1 (proj2 (proj2 (final_score_saturation (mkAcc 4 3) (H 4))))).
    simpl. lra.
  - apply (proj2 (proj2 (proj2 (final_score_saturation (mkAcc 2 3) (H 2)))));
      simpl; lra.
Defined.

(** ** The blend moves a sample towards 128 (lines 283-297) *)

(** X2.  For bytes [alpha] and [c] the blended sample lies between [c] and 128,
    grows with [c], is 128 for a transparent pixel and [c] for an opaque
    one. *)
Theorem blend_sample_between (alpha c c' : Z) :
  (0 <= alpha < 256)%Z -> (0 <= c < 256)%Z -> (0 <= c' < 256)%Z ->
  (Z.min c 128 <= blend_sample alpha c <= Z.max c 128)%Z /\
  (c <= c' -> blend_sample alpha c <= blend_sample alpha c')%Z /\
  blend_sample 0 c = 128%Z /\
  blend_sample 255 c = c.
Proof.
  intros Ha Hc Hc'.
  destruct (blend_sample_exact alpha c Ha Hc) as [E _].
  destruct (blend_sample_exact alpha c' Ha Hc') as [E' _].
  split; [|split; [|split]].
  - rewrite E. split.
    + apply Z.div_le_lower_bound; [lia|].
      destruct (Z.min_spec c 128) as [[? ->]|[? ->]]; nia.
    + apply Z.div_le_upper_bound; [lia|].
      destruct (Z.max_spec c 128) as [[? ->]|[? ->]]; nia.
  - intros Hle. rewrite E, E'. apply Z.div_le_mono; [lia | nia].
  - destruct (blend_sample_exact 0 c) as [E0 _]; [lia | exact Hc |].
    rewrite E0. reflexivity.
  - apply blend_sample_opaque, Hc.
Qed.

Lemma blend_sample_between_witness :
  (0 <= 51 < 256)%Z /\ (0 <= 200 < 256)%Z /\
  (Z.min 200 128 <= blend_sample 51 200 <= Z.max 200 128)%Z.
Proof.
  assert (Ha : (0 <= 51 < 256)%Z) by lia.
  assert (Hc : (0 <= 200 < 256)%Z) by lia.
  split; [exact Ha|]. split; [exact Hc|].
  exact (proj1 (blend_sample_between 51 200 200 Ha Hc Hc)).
Defined.

(** ** The two branches of the gamma table (lines 300-305) *)

Lemma inject_Z_le_const (i k : Z) : (i <= k)%Z -> inject_Z i <= inject_Z k.
Proof. intros H. rewrite <- Zle_Qle. exact H. Qed.

Section Gamma.

Context {cv : CvLib}.

(** Up to 10 the test [c <= 0.04045] of line 304 holds. *)
Lemma sRGB_gamma_LUT_linear (k : Z) :
  (0 <= k <= 10)%Z -> sRGB_gamma_LUT k = inject_Z k / 255.0 / 12.92.
Proof.
  intros Hk. unfold sRGB_gamma_LUT. cbv zeta.
  assert (L : Qle_bool (inject_Z k / 255.0) 0.04045 = true).
  { apply Qle_bool_iff. apply Qle_shift_div_r; [reflexivity|].
    pose proof (inject_Z_le_const k 10 (proj2 Hk)) as H.
    change (inject_Z 10) with 10 in H. lra. }
  rewrite L. reflexivity.
Qed.

(** X3.  For a byte [i]: the entries 0 to 10 are the linear ones, [i / 255 /
    12.92], and [pow] is not called for them; the entries 11 to 255 are
    [pow((i / 255 + 0.055) / 1.055, 2.4)].  The linear entries start at 0
    and grow with [i]. *)
Theorem sRGB_gamma_LUT_branches (i j : Z) :
  (0 <= i <= 255)%Z ->
  ((i <= 10)%Z -> sRGB_gamma_LUT i = inject_Z i / 255.0 / 12.92) /\
  ((11 <= i)%Z ->
   sRGB_gamma_LUT i = libm_pow ((inject_Z i / 255.0 + 0.055) / 1.055) 2.4) /\
  sRGB_gamma_LUT 0 == 0 /\
  ((i < j <= 10)%Z -> sRGB_gamma_LUT i < sRGB_gamma_LUT j).
Proof.
  intros Hi.
  pose proof sRGB_gamma_LUT_linear as Lin.
  split; [|split; [|split]].
  - intros H10. apply Lin. lia.
  - intros H11. unfold sRGB_gamma_LUT. cbv zeta.
    assert (L : Qle_bool (inject_Z i / 255.0) 0.04045 = false).
    { destruct (Qle_bool (inject_Z i / 255.0) 0.04045) eqn:E; [|reflexivity].
      apply Qle_bool_iff in E. exfalso.
      pose proof (inject_Z_le_const 11 i H11) as H.
      change (inject_Z 11) with 11 in H.
      assert (F : 11 / 255.0 <= inject_Z i / 255.0).
      { apply Qle_shift_div_l; [reflexivity|].
        setoid_replace (11 / 255.0 * 255.0) with 11 by field. exact H. }
      assert (G : 0.04045 < 11 / 255.0) by reflexivity. lra. }
    rewrite L. reflexivity.
  - rewrite (Lin 0%Z) by lia. reflexivity.
  - intros Hij. rewrite (Lin i), (Lin j) by lia.
    assert (H : inject_Z i < inject_Z j) by (rewrite <- Zlt_Qlt; lia).
    apply Qlt_shift_div_l; [reflexivity|].
    setoid_replace (inject_Z i / 255.0 / 12.92 * 12.92) with (inject_Z i / 255.0)
      by field.
    apply Qlt_shift_div_l; [reflexivity|].
    setoid_replace (inject_Z i / 255.0 * 255.0) with (inject_Z i) by field.
    exact H.
Qed.

End Gamma.

Lemma sRGB_gamma_LUT_branches_witness :
  (0 <= 10 <= 255)%Z /\
  sRGB_gamma_LUT (cv := RefLib) 10 = inject_Z 10 / 255.0 / 12.92.
Proof.
  assert (H : (0 <= 10 <= 255)%Z) by lia.
  split; [exact H|].
  apply (proj1 (sRGB_gamma_LUT_branches (cv := RefLib) 10 10 H)). lia.
Defined.

(** ** Dark pixels stay on the linear branches (lines 140-157 and 302-305) *)

Lemma linear_entry (s : Z) :
  (0 <= s <= 10)%Z ->
  let l := inject_Z s / 255.0 / 12.92 in
  0 <= l /\ l <= 0.00304 /\ (l == 0 -> s = 0%Z).
Proof.
  intros Hs l. unfold l.
  assert (E : inject_Z s / 255.0 / 12.92 == inject_Z s * (10 # 32946)) by field.
  pose proof (inject_Z_le_const 0 s (proj1 Hs)) as H0.
  pose proof (inject_Z_le_const s 10 (proj2 Hs)) as H1.
  change (inject_Z 0) with 0 in H0. change (inject_Z 10) with 10 in H1.
  rewrite E. split; [lra|]. split; [lra|].
  intros Z0. assert (Z1 : inject_Z s == inject_Z 0) by (change (inject_Z 0) with 0; lra).
  exact (proj1 (inject_Z_injective s 0) Z1).
Qed.

Section Dark.

Context {cv : CvLib}.

(** X14.  A pixel whose three colour bytes are at most 10 is converted
    without a call of [pow]: the table entries are the linear ones, all of
    [fx], [fy] and [fz] stay below [epsilon], and the Lab values are the
    linear expressions in the bytes, with the single-precision constants
    of [rgb2lab].  Its lightness is not negative and is zero for the black
    pixel only. *)
Theorem dark_pixel_lab (r : Raster) (y x : nat) :
  (forall c, (c < 3)%nat -> (0 <= sample_at r y x c <= 10)%Z) ->
  let lin := fun c => inject_Z (sample_at r y x c) / 255.0 / 12.92 in
  let fx := lin 2%nat * (3640121 # 8388608) + lin 1%nat * (12623103 # 33554432)
            + lin 0%nat * (3184891 # 16777216) in
  let fy := lin 2%nat * (14272237 # 67108864) + lin 1%nat * (11998263 # 16777216)
            + lin 0%nat * (9687165 # 134217728) in
  let fz := lin 2%nat * (9531505 # 536870912) + lin 1%nat * (14690247 # 134217728)
            + lin 0%nat * (14640457 # 16777216) in
  let k := (2041325 # 262144) in
  let lab := lab_all (LUT r sRGB_gamma_LUT) in
  px lab y x 0 = k * fy * (9730785 # 8388608) /\
  px lab y x 1 = (13147237 # 33554432) + (9532509 # 4194304) * (k * fx - k * fy) /\
  px lab y x 2 = (4114231 # 8388608) + (15252015 # 16777216) * (k * fy - k * fz) /\
  0 <= px lab y x 0 /\
  (px lab y x 0 == 0 <-> forall c, (c < 3)%nat -> sample_at r y x c = 0%Z).
Proof.
  intros H lin fx fy fz k lab.
  pose proof (linear_entry _ (H 0%nat ltac:(lia))) as (A0 & B0 & Z0).
  pose proof (linear_entry _ (H 1%nat ltac:(lia))) as (A1 & B1 & Z1).
  pose proof (linear_entry _ (H 2%nat ltac:(lia))) as (A2 & B2 & Z2).
  assert (E : rgb2lab (sRGB_gamma_LUT (sample_at r y x 0),
                       sRGB_gamma_LUT (sample_at r y x 1),
                       sRGB_gamma_LUT (sample_at r y x 2))
              = (k * fy * (9730785 # 8388608),
                 (13147237 # 33554432) + (9532509 # 4194304) * (k * fx - k * fy),
                 (4114231 # 8388608) + (15252015 # 16777216) * (k * fy - k * fz))).
  { rewrite !sRGB_gamma_LUT_linear by (apply H; lia).
    unfold rgb2lab. cbv zeta.
    repeat match goal with
           | |- context [Qle_bool ?e ?t] =>
               let L := fresh "L" in
               assert (L : Qle_bool e t = true) by (apply Qle_bool_iff; lra);
               rewrite L; clear L
           end.
    reflexivity. }
  assert (P0 : px lab y x 0 = k * fy * (9730785 # 8388608))
    by (unfold lab; cbn [lab_all LUT px]; rewrite E; reflexivity).
  split; [exact P0|].
  split; [unfold lab; cbn [lab_all LUT px]; rewrite E; reflexivity|].
  split; [unfold lab; cbn [lab_all LUT px]; rewrite E; reflexivity|].
  rewrite P0. unfold k, fy, lin. split; [lra|]. split.
  - intros L c Hc.
    destruct c as [|[|[|c]]]; [apply Z0 | apply Z1 | apply Z2 | lia]; lra.
  - intros Hz. rewrite !Hz by lia. reflexivity.
Qed.

End Dark.

Lemma dark_pixel_lab_witness :
  0 <= px (lab_all (LUT (flat_raster 8 8 3 5) (sRGB_gamma_LUT (cv := RefLib)))) 0 0 0.
Proof.
  refine (proj1 (proj2 (proj2 (proj2
            (dark_pixel_lab (cv := RefLib) (flat_raster 8 8 3 5) 0 0 _))))).
  intros c Hc. destruct c as [|[|[|c]]]; [| | |lia]; vm_compute; split; discriminate.
Defined.

(** ** How a run can end (lines 250-334 and 459-463) *)

Section Outcome.

Context {cv : CvLib}.

Lemma validate_cases (r1 r2 : Raster) :
  (validate r1 r2 = inl DimensionMismatch /\
   (r_cols r1 <> r_cols r2 \/ r_rows r1 <> r_rows r2)) \/
  (validate r1 r2 = inl ImageTooSmall /\
   r_cols r1 = r_cols r2 /\ r_rows r1 = r_rows r2 /\
   ((r_cols r1 < 8)%nat \/ (r_rows r1 < 8)%nat)) \/
  (validate r1 r2 = inl ChannelMismatch /\
   r_cols r1 = r_cols r2 /\ r_rows r1 = r_rows r2 /\
   (8 <= r_cols r1)%nat /\ (8 <= r_rows r1)%nat /\
   r_channels r1 <> r_channels r2 /\
   ((r_channels r1 < 3)%nat \/ (r_channels r2 < 3)%nat)) \/
  (exists t1 t2, validate r1 r2 = inr (t1, t2) /\ accepted r1 r2 /\
                 r_channels t1 = final_channels r1 r2).
Proof.
  unfold validate, accepted, final_channels.
  destruct (Nat.eqb_spec (r_cols r1) (r_cols r2)) as [Ec|Nc];
    [|left; split; [reflexivity | left; exact Nc]].
  destruct (Nat.eqb_spec (r_rows r1) (r_rows r2)) as [Er|Nr];
    [|left; split; [reflexivity | right; exact Nr]].
  cbn [andb negb].
  destruct (Nat.ltb_spec (r_cols r1) 8) as [Sc|Bc];
    [right; left; cbn [orb]; repeat split; auto|].
  destruct (Nat.ltb_spec (r_rows r1) 8) as [Sr|Br];
    [right; left; cbn [orb]; repeat split; auto|].
  cbn [orb].
  destruct (Nat.eqb_spec (r_channels r1) (r_channels r2)) as [Ech|Nch]; cbn [negb andb].
  { right; right; right. eexists _, _. split; [reflexivity|].
    split; [|reflexivity]. repeat split; auto. }
  destruct (Nat.ltb_spec (r_channels r1) 3) as [L1|G1]; cbn [orb].
  { right; right; left. repeat split; auto. }
  destruct (Nat.ltb_spec (r_channels r2) 3) as [L2|G2].
  { right; right; left. repeat split; auto. }
  right; right; right. eexists _, _. split; [reflexivity|].
  split; [repeat split; auto|].
  destruct (Nat.eqb_spec (r_channels r1) 3); reflexivity.
Qed.

(** X4.  The outcome of [main] is decided by the dimensions and the channel
    counts alone, and each outcome has exactly one cause: a rejection names
    the first check that failed; an accepted pair whose channel count is 1
    ends in the read through the released buffer; one whose count is 3 or 4
    gets a score, which lies in [0, 1]; any other count is rejected as
    unsupported. *)
Theorem main_outcome (r1 r2 : Raster) :
  match main r1 r2 with
  | Rejected DimensionMismatch =>
      r_cols r1 <> r_cols r2 \/ r_rows r1 <> r_rows r2
  | Rejected ImageTooSmall =>
      r_cols r1 = r_cols r2 /\ r_rows r1 = r_rows r2 /\
      ((r_cols r1 < 8)%nat \/ (r_rows r1 < 8)%nat)
  | Rejected ChannelMismatch =>
      r_cols r1 = r_cols r2 /\ r_rows r1 = r_rows r2 /\
      (8 <= r_cols r1)%nat /\ (8 <= r_rows r1)%nat /\
      r_channels r1 <> r_channels r2 /\
      ((r_channels r1 < 3)%nat \/ (r_channels r2 < 3)%nat)
  | Rejected UnsupportedChannelCount =>
      accepted r1 r2 /\ final_channels r1 r2 <> 1%nat /\
      final_channels r1 r2 <> 3%nat /\ final_channels r1 r2 <> 4%nat
  | Undefined => accepted r1 r2 /\ final_channels r1 r2 = 1%nat
  | Printed s =>
      accepted r1 r2 /\
      (final_channels r1 r2 = 3 \/ final_channels r1 r2 = 4)%nat /\
      exists q, s = Finite q /\ 0 <= q /\ q <= 1
  end.
Proof.
  destruct (validate_cases r1 r2)
    as [[E H]|[[E H]|[[E H]|(t1 & t2 & E & Ha & Hch)]]];
    unfold main; rewrite E; try exact H.
  pose proof (validate_inr r1 r2 t1 t2 E) as (H8r & H8c & _).
  destruct (normalise t1 t2) as [i1 i2|e|] eqn:En.
  - assert (Hp : main r1 r2 = Printed (final_score (snd (multi_scale i1 i2 (r_channels t1))))).
    { unfold main. rewrite E, En. reflexivity. }
    split; [exact Ha|]. split.
    + unfold normalise in En. rewrite <- Hch.
      destruct (Nat.eqb_spec (r_channels t1) 3) as [E3|N3]; [left; exact E3|].
      destruct (Nat.eqb_spec (r_channels t1) 4) as [E4|N4]; [right; exact E4|].
      destruct (Nat.eqb_spec (r_channels t1) 1) as [E1|N1]; [|discriminate En].
      rewrite gray_fill_released in En by nia. discriminate En.
    + destruct (main_printed r1 r2 _ Hp) as (b1 & b2 & k & Vb & Hs & _).
      destruct (final_score_range (snd (multi_scale b1 b2 k))) as (q & Hq & H0 & H1 & _).
      { apply multi_scale_score_max_pos, Vb. }
      exists q. rewrite Hs. split; [exact Hq|]. split; assumption.
  - unfold normalise in En. rewrite <- Hch.
    destruct (Nat.eqb_spec (r_channels t1) 3) as [E3|N3]; [discriminate En|].
    destruct (Nat.eqb_spec (r_channels t1) 4) as [E4|N4]; [discriminate En|].
    destruct (Nat.eqb_spec (r_channels t1) 1) as [E1|N1].
    + destruct (gray_fill _ 0 _ _); [destruct (gray_fill _ 0 _ _)|]; discriminate En.
    + injection En as <-.
      split; [exact Ha|]. split; [exact N1|]. split; [exact N3 | exact N4].
  - unfold normalise in En. rewrite <- Hch.
    destruct (Nat.eqb_spec (r_channels t1) 3) as [E3|N3]; [discriminate En|].
    destruct (Nat.eqb_spec (r_channels t1) 4) as [E4|N4]; [discriminate En|].
    destruct (Nat.eqb_spec (r_channels t1) 1) as [E1|N1]; [|discriminate En].
    split; assumption.
Qed.

(** X5.  When both rasters have 1, 3 or 4 channels, an accepted pair works
    with 1, 3 or 4 channels on both sides: the rejection of lines 331-334
    cannot happen. *)
Theorem decoded_inputs_are_supported (r1 r2 : Raster) :
  (r_channels r1 = 1 \/ r_channels r1 = 3 \/ r_channels r1 = 4)%nat ->
  (r_channels r2 = 1 \/ r_channels r2 = 3 \/ r_channels r2 = 4)%nat ->
  main r1 r2 <> Rejected UnsupportedChannelCount /\
  (forall t1 t2, validate r1 r2 = inr (t1, t2) ->
     r_channels t1 = r_channels t2 /\
     (r_channels t1 = 1 \/ r_channels t1 = 3 \/ r_channels t1 = 4)%nat).
Proof.
  intros H1 H2. split.
  - intros E.
    destruct (validate_cases r1 r2)
      as [[Ev _]|[[Ev _]|[[Ev _]|(t1 & t2 & Ev & _ & Hch)]]];
      unfold main in E; rewrite Ev in E; try discriminate E.
    assert (Ht : (r_channels t1 = 1 \/ r_channels t1 = 3 \/ r_channels t1 = 4)%nat).
    { rewrite Hch. unfold final_channels.
      destruct (negb (r_channels r1 =? r_channels r2) && (r_channels r1 =? 3))%nat;
        [right; right; reflexivity | exact H1]. }
    unfold normalise in E.
    destruct Ht as [Ht|[Ht|Ht]]; rewrite Ht in E; cbn [Nat.eqb] in E;
      try discriminate E.
    destruct (gray_fill _ 0 _ _); [destruct (gray_fill _ 0 _ _)|]; discriminate E.
  - intros t1 t2. unfold validate.
    destruct ((r_cols r1 =? r_cols r2) && (r_rows r1 =? r_rows r2))%nat;
      [|discriminate].
    cbn [negb].
    destruct ((r_cols r1 <? 8) || (r_rows r1 <? 8))%nat; [discriminate|].
    destruct (Nat.eqb_spec (r_channels r1) (r_channels r2)) as [Ech|Nch]; cbn [negb].
    + intros Hv. injection Hv as <- <-. split; [exact Ech | exact H1].
    + destruct (Nat.ltb_spec (r_channels r1) 3); [discriminate|].
      destruct (Nat.ltb_spec (r_channels r2) 3); [discriminate|]. cbn [orb].
      intros Hv. injection Hv as <- <-.
      destruct (Nat.eqb_spec (r_channels r1) 3) as [E3|N3];
        destruct (Nat.eqb_spec (r_channels r2) 3) as [F3|M3];
        cbn [cvtColor_RGB2RGBA r_channels]; split; try lia.
Qed.

End Outcome.

Lemma decoded_inputs_are_supported_witness :
  (r_channels (flat_raster 8 8 3 128) = 1 \/ r_channels (flat_raster 8 8 3 128) = 3
   \/ r_channels (flat_raster 8 8 3 128) = 4)%nat /\
  (r_channels (flat_raster 8 8 4 128) = 1 \/ r_channels (flat_raster 8 8 4 128) = 3
   \/ r_channels (flat_raster 8 8 4 128) = 4)%nat /\
  main (cv := RefLib) (flat_raster 8 8 3 128) (flat_raster 8 8 4 128)
  <> Rejected UnsupportedChannelCount.
Proof.
  assert (H1 : (r_channels (flat_raster 8 8 3 128) = 1
                \/ r_channels (flat_raster 8 8 3 128) = 3
                \/ r_channels (flat_raster 8 8 3 128) = 4)%nat)
    by (right; left; reflexivity).
  assert (H2 : (r_channels (flat_raster 8 8 4 128) = 1
                \/ r_channels (flat_raster 8 8 4 128) = 3
                \/ r_channels (flat_raster 8 8 4 128) = 4)%nat)
    by (right; right; reflexivity).
  split; [exact H1|]. split; [exact H2|].
  exact (proj1 (decoded_inputs_are_supported (cv := RefLib) _ _ H1 H2)).
Defined.

(** ** Promotion of a three-channel image (lines 272-277, 283-297, 308-325) *)

Lemma cvtColor_well_formed (r : Raster) :
  well_formed r -> r_channels r = 3%nat -> well_formed (cvtColor_RGB2RGBA r).
Proof.
  intros [Hl HF] Hc. split; simpl.
  - rewrite length_map. exact Hl.
  - apply Forall_map. rewrite Forall_forall in *. intros p Hp.
    destruct (HF p Hp) as [Hlen Hs]. split.
    + rewrite length_app, Hlen, Hc. reflexivity.
    + apply Forall_app. split; [exact Hs|]. constructor; [lia | constructor].
Qed.

Lemma blend_pixel_opaque (p : list Z) :
  length p = 3%nat -> Forall (fun s => (0 <= s < 256)%Z) p ->
  blend_pixel (p ++ [255%Z]) = p ++ [255%Z].
Proof.
  intros Hl Hs. destruct p as [|c0 [|c1 [|c2 [|? ?]]]]; try discriminate Hl.
  inversion Hs as [|? ? H0 Hs1]; subst.
  inversion Hs1 as [|? ? H1 Hs2]; subst.
  inversion Hs2 as [|? ? H2 _]; subst.
  cbn [app blend_pixel]. rewrite !blend_sample_opaque by assumption. reflexivity.
Qed.

(** Blending leaves a promoted image as it is. *)
Lemma blend_promoted (r : Raster) :
  well_formed r -> r_channels r = 3%nat ->
  r_data (blend_gray (cvtColor_RGB2RGBA r) (r_rows r * r_cols r))
  = r_data (cvtColor_RGB2RGBA r).
Proof.
  intros W Hc.
  pose proof (blend_gray_data _ (cvtColor_well_formed r W Hc)) as E.
  cbn [cvtColor_RGB2RGBA r_rows r_cols] in E. rewrite E.
  cbn [cvtColor_RGB2RGBA r_data]. rewrite map_map.
  apply map_ext_in. intros p Hp. destruct W as [_ HF].
  rewrite Forall_forall in HF. destruct (HF p Hp) as [Hl Hs].
  apply blend_pixel_opaque; [rewrite Hl; exact Hc | exact Hs].
Qed.

Lemma promoted_sample (r : Raster) (y x c : nat) :
  well_formed r -> r_channels r = 3%nat ->
  (y < r_rows r)%nat -> (x < r_cols r)%nat ->
  sample_at (blend_gray (cvtColor_RGB2RGBA r) (r_rows r * r_cols r)) y x c
  = if (c <? 3)%nat then sample_at r y x c
    else if (c =? 3)%nat then 255%Z else 0%Z.
Proof.
  intros W Hc Hy Hx. unfold sample_at.
  rewrite (blend_promoted r W Hc).
  cbn [blend_gray cvtColor_RGB2RGBA r_cols r_data].
  pose proof W as [Hlen HF].
  assert (Hi : (y * r_cols r + x < length (r_data r))%nat) by (rewrite Hlen; nia).
  rewrite (nth_indep _ [] ([] ++ [255%Z]))
    by (rewrite length_map; exact Hi).
  rewrite (map_nth (fun p => p ++ [255%Z])).
  set (p := nth (y * r_cols r + x) (r_data r) []).
  assert (Hp : length p = 3%nat).
  { rewrite Forall_forall in HF. rewrite <- Hc. apply HF, nth_In, Hi. }
  destruct (Nat.ltb_spec c 3) as [L|G].
  - apply app_nth1. lia.
  - rewrite app_nth2 by lia. rewrite Hp.
    destruct (Nat.eqb_spec c 3) as [->|N]; [reflexivity|].
    destruct (c - 3)%nat as [|[|k]] eqn:K; try lia; reflexivity.
Qed.

Section Promotion.

Context {cv : CvLib}.

(** X6.  Comparing a three-channel image with a four-channel one: the first is
    given an alpha of 255, the blend leaves it untouched, and the first
    three channels of its buffer are those it has when it is compared as a
    three-channel image; the fourth is the table entry of 255 everywhere. *)
Theorem promotion_is_lossless (a b a' : Raster) :
  well_formed a -> r_channels a = 3%nat -> r_channels b = 4%nat ->
  r_cols a = r_cols b -> r_rows a = r_rows b ->
  (8 <= r_cols a)%nat -> (8 <= r_rows a)%nat ->
  validate a b = inr (cvtColor_RGB2RGBA a, b) /\
  exists img1 img2 img2',
    normalise (cvtColor_RGB2RGBA a) b = Buffers img1 img2 /\
    normalise a a' = Buffers (lab_all (LUT a sRGB_gamma_LUT)) img2' /\
    rows img1 = r_rows a /\ cols img1 = r_cols a /\
    forall y x, (y < r_rows a)%nat -> (x < r_cols a)%nat ->
      (forall c, (c < 3)%nat ->
         px img1 y x c = px (lab_all (LUT a sRGB_gamma_LUT)) y x c) /\
      px img1 y x 3 = sRGB_gamma_LUT 255.
Proof.
  intros W Ha Hb Hc Hr H8c H8r. split.
  - unfold validate. rewrite Hc, Hr, !Nat.eqb_refl. cbn [andb negb].
    rewrite <- Hc, <- Hr.
    destruct (Nat.ltb_spec (r_cols a) 8); [lia|].
    destruct (Nat.ltb_spec (r_rows a) 8); [lia|]. cbn [orb].
    rewrite Ha, Hb. reflexivity.
  - eexists _, _, _. split; [|split].
    + unfold normalise. cbn [cvtColor_RGB2RGBA r_channels r_rows r_cols Nat.eqb Nat.ltb Nat.leb].
      reflexivity.
    + unfold normalise. rewrite Ha. cbn [Nat.eqb Nat.ltb Nat.leb]. reflexivity.
    + split; [reflexivity|]. split; [reflexivity|].
      intros y x Hy Hx.
      pose proof (fun c => promoted_sample a y x c W Ha Hy Hx) as S.
      split.
      * intros c Hc3. cbn [lab_all LUT px].
        rewrite (S 0%nat), (S 1%nat), (S 2%nat). cbn [Nat.ltb Nat.leb].
        destruct c as [|[|[|c]]]; try reflexivity. lia.
      * cbn [lab_all LUT px].
        rewrite (S 0%nat), (S 1%nat), (S 2%nat), (S 3%nat). cbn [Nat.ltb Nat.leb Nat.eqb].
        destruct (rgb2lab _) as [[l u] v]. reflexivity.
Qed.

End Promotion.

Lemma promotion_is_lossless_witness :
  well_formed (flat_raster 8 8 3 128) /\
  validate (flat_raster 8 8 3 128) (flat_raster 8 8 4 128)
  = inr (cvtColor_RGB2RGBA (flat_raster 8 8 3 128), flat_raster 8 8 4 128).
Proof.
  assert (W : well_formed (flat_raster 8 8 3 128))
    by (apply flat_raster_well_formed; lia).
  split; [exact W|].
  refine (proj1 (promotion_is_lossless (cv := RefLib) (flat_raster 8 8 3 128)
                   (flat_raster 8 8 4 128) (flat_raster 8 8 3 128)
                   W eq_refl eq_refl eq_refl eq_refl _ _)); simpl; lia.
Defined.

(** ** What [grid_artifacts] skips and what it keeps (lines 163-186) *)

Lemma sorted_split (l : list Q) (k : nat) :
  Sorted Qle l -> (k < length l)%nat ->
  exists l1 v l2,
    l = l1 ++ v :: l2 /\ length l1 = k /\ nth k l 0 = v /\
    Forall (fun u => u <= v) l1 /\ Forall (fun u => v <= u) l2.
Proof.
  intros HS. apply Sorted_StronglySorted in HS; [|exact Qle_trans].
  revert k. induction HS as [|h t HSt IH Hh]; intros k Hk; simpl in Hk; [lia|].
  destruct k as [|k].
  - exists [], h, t. repeat split; auto.
  - destruct (IH k) as (l1 & v & l2 & E & Hl & Hn & F1 & F2); [lia|].
    exists (h :: l1), v, l2. subst t. repeat split; simpl; auto.
    constructor; [|exact F1].
    rewrite Forall_forall in Hh. apply Hh. apply in_or_app. right. left. reflexivity.
Qed.

(** The scan of one multiset of [n] averages ([n] at least 1) skips exactly
    [n / 50] of them, none larger than the one it stops at, and every
    average it leaves behind is at least as large; the value it stops at is
    one of the averages, and the smallest of all when [n] is below 50. *)
Lemma scan_selection (means : list Q) :
  (0 < length means)%nat ->
  exists l1 v l2,
    ms_of means = l1 ++ v :: l2 /\
    stop_at 0 (length means / 50) (ms_of means) = Some v /\
    length l1 = (length means / 50)%nat /\
    Forall (fun u => u <= v) l1 /\ Forall (fun u => v <= u) l2 /\
    In v means /\
    ((length means < 50)%nat -> forall u, In u means -> v <= u).
Proof.
  intros Hn.
  assert (Hk : (length means / 50 < length (ms_of means))%nat)
    by (rewrite ms_of_length; apply div50_lt, Hn).
  destruct (sorted_split (ms_of means) (length means / 50) (ms_of_sorted means) Hk)
    as (l1 & v & l2 & E & Hl & Hnth & F1 & F2).
  exists l1, v, l2. split; [exact E|]. split.
  { rewrite stop_at_0, (nth_error_nth' _ 0 Hk), Hnth. reflexivity. }
  split; [exact Hl|]. split; [exact F1|]. split; [exact F2|]. split.
  - apply (Permutation_in v (ms_of_perm means)). rewrite E.
    apply in_or_app. right. left. reflexivity.
  - intros H50 u Hu.
    assert (Hz : (length means / 50 = 0)%nat) by (apply Nat.div_small; exact H50).
    rewrite Hz in Hl. destruct l1; [|discriminate Hl].
    apply (Permutation_in u (Permutation_sym (ms_of_perm means))) in Hu.
    rewrite E in Hu. destruct Hu as [<-|Hu]; [apply Qle_refl|].
    rewrite Forall_forall in F2. apply F2, Hu.
Qed.

(** X7.  The value [grid_artifacts] weighs for the rows of channel [i] is one of
    the row averages; exactly [rows / 50] averages are skipped before it,
    none larger, and none of the others is smaller; with fewer than 50 rows
    it is the smallest row average.  The same holds for the columns. *)
Theorem grid_selection (errormap : Mat) (i : nat) :
  (0 < rows errormap)%nat -> (0 < cols errormap)%nat ->
  (exists l1 v l2,
     ms_of (row_means errormap i) = l1 ++ v :: l2 /\
     worst_row errormap i = Some v /\
     length l1 = (rows errormap / 50)%nat /\
     Forall (fun u => u <= v) l1 /\ Forall (fun u => v <= u) l2 /\
     In v (row_means errormap i) /\
     ((rows errormap < 50)%nat -> forall u, In u (row_means errormap i) -> v <= u)) /\
  (exists l1 v l2,
     ms_of (col_means errormap i) = l1 ++ v :: l2 /\
     worst_col errormap i = Some v /\
     length l1 = (cols errormap / 50)%nat /\
     Forall (fun u => u <= v) l1 /\ Forall (fun u => v <= u) l2 /\
     In v (col_means errormap i) /\
     ((cols errormap < 50)%nat -> forall u, In u (col_means errormap i) -> v <= u)).
Proof.
  intros Hr Hc. split.
  - pose proof (scan_selection (row_means errormap i)) as H.
    rewrite row_means_length in H. apply H, Hr.
  - pose proof (scan_selection (col_means errormap i)) as H.
    rewrite col_means_length in H. apply H, Hc.
Qed.

Lemma grid_selection_witness :
  (0 < rows ramp_50x8)%nat /\ (0 < cols ramp_50x8)%nat /\
  exists l1 v l2,
    ms_of (col_means ramp_50x8 0) = l1 ++ v :: l2 /\
    worst_col ramp_50x8 0 = Some v /\
    length l1 = (cols ramp_50x8 / 50)%nat /\
    Forall (fun u => u <= v) l1 /\ Forall (fun u => v <= u) l2 /\
    In v (col_means ramp_50x8 0) /\
    ((cols ramp_50x8 < 50)%nat -> forall u, In u (col_means ramp_50x8 0) -> v <= u).
Proof.
  assert (Hr : (0 < rows ramp_50x8)%nat) by (simpl; lia).
  assert (Hc : (0 < cols ramp_50x8)%nat) by (simpl; lia).
  split; [exact Hr|]. split; [exact Hc|].
  exact (proj2 (grid_selection ramp_50x8 0 Hr Hc)).
Defined.

(** ** The range of the SSIM map and of the accumulated sums *)

Lemma prod_bound (a a' b b' : Q) :
  - a' <= a -> a <= a' -> - b' <= b -> b <= b' ->
  a * b <= a' * b' /\ - (a' * b') <= a * b.
Proof.
  intros.
  assert (0 <= (a' - a) * (b' + b)) by (apply Qmult_le_0_compat; lra).
  assert (0 <= (a' + a) * (b' - b)) by (apply Qmult_le_0_compat; lra).
  assert (0 <= (a' - a) * (b' - b)) by (apply Qmult_le_0_compat; lra).
  assert (0 <= (a' + a) * (b' + b)) by (apply Qmult_le_0_compat; lra).
  split; lra.
Qed.

Lemma sumQ_le (n : nat) (f : nat -> Q) (v : Q) :
  (forall i, (i < n)%nat -> f i <= v) -> sumQ n f <= of_nat n * v.
Proof.
  induction n as [|n IH]; intros H.
  - simpl. change (of_nat 0) with 0. lra.
  - simpl sumQ. rewrite of_nat_S.
    assert (sumQ n f <= of_nat n * v) by (apply IH; intros; apply H; lia).
    assert (f n <= v) by (apply H; lia). lra.
Qed.

Lemma mean_le (m : Mat) (c : nat) (v : Q) :
  at_most m c v -> (0 < rows m)%nat -> (0 < cols m)%nat -> mean m c <= v.
Proof.
  intros U Hr Hc. unfold mean.
  assert (P : 0 < of_nat (rows m * cols m)) by (apply of_nat_pos; nia).
  apply Qle_shift_div_r; [exact P|].
  rewrite of_nat_mult.
  assert (S : sumQ (rows m) (fun y => sumQ (cols m) (fun x => px m y x c))
              <= of_nat (rows m) * (of_nat (cols m) * v)).
  { apply sumQ_le. intros y Hy. apply sumQ_le. intros x Hx. apply U; assumption. }
  lra.
Qed.

Lemma fold_min_le (l : list Q) (v0 : Q) : fold_left Qmin l v0 <= v0.
Proof.
  revert v0. induction l as [|u l IH]; intros v0; simpl.
  - apply Qle_refl.
  - eapply Qle_trans; [apply IH | apply Q.le_min_l].
Qed.

Lemma minVal_le (m : Mat) (c : nat) (v : Q) :
  at_most m c v -> (0 < rows m)%nat -> (0 < cols m)%nat -> minVal m c <= v.
Proof.
  intros U Hr Hc. unfold minVal.
  assert (F : Forall (fun u => u <= v) (samples m c)).
  { unfold samples. apply Forall_flat_map, Forall_forall.
    intros y Hy. apply in_seq in Hy. apply Forall_map, Forall_forall.
    intros x Hx. apply in_seq in Hx. apply U; lia. }
  pose proof (samples_nonempty m c Hr Hc) as N.
  destruct (samples m c) as [|u l]; [congruence|].
  inversion F as [|? ? Hu _]; subst.
  eapply Qle_trans; [apply fold_min_le | exact Hu].
Qed.

Lemma idx1_nonneg (t : list Q) (i : nat) :
  Forall (fun w => 0 <= w) t -> 0 <= idx1 t i.
Proof.
  intros H. unfold idx1. destruct (Nat.ltb_spec i (length t)) as [L|G].
  - rewrite Forall_forall in H. apply H, nth_In, L.
  - rewrite nth_overflow by exact G. apply Qle_refl.
Qed.

Lemma idx2_nonneg (t : list (list Q)) (i j : nat) :
  Forall (Forall (fun w => 0 <= w)) t -> 0 <= idx2 t i j.
Proof.
  intros H. unfold idx2. destruct (Nat.ltb_spec i (length t)) as [L|G].
  - apply (idx1_nonneg (nth i t []) j).
    rewrite Forall_forall in H. apply H, nth_In, L.
  - rewrite (nth_overflow t) by exact G. destruct j; apply Qle_refl.
Qed.

Lemma forallb_nonneg (t : list Q) :
  forallb (Qle_bool 0) t = true -> Forall (fun w => 0 <= w) t.
Proof.
  intros H. apply Forall_forall. intros w Hw.
  rewrite forallb_forall in H. apply Qle_bool_iff, H, Hw.
Qed.

Lemma forallb_nonneg2 (t : list (list Q)) :
  forallb (forallb (Qle_bool 0)) t = true -> Forall (Forall (fun w => 0 <= w)) t.
Proof.
  intros H. apply Forall_forall. intros r Hr.
  rewrite forallb_forall in H. apply forallb_nonneg, H, Hr.
Qed.

Ltac table_nonneg :=
  first [apply forallb_nonneg | apply forallb_nonneg2]; vm_compute; reflexivity.

(** No weight of the tables is negative. *)
Lemma extra_edges_weight_nonneg (i : nat) : 0 <= idx1 extra_edges_weight i.
Proof. apply idx1_nonneg; table_nonneg. Qed.

Lemma min_weight_nonneg (i : nat) : 0 <= idx1 min_weight i.
Proof. apply idx1_nonneg; table_nonneg. Qed.

Lemma worst_grid_weight_nonneg (i j : nat) : 0 <= idx2 worst_grid_weight i j.
Proof. apply idx2_nonneg; table_nonneg. Qed.

Lemma scale_weights_nonneg (i j : nat) : 0 <= idx2 scale_weights i j.
Proof. apply idx2_nonneg; table_nonneg. Qed.

Lemma mscale_weights_nonneg (i j : nat) : 0 <= idx2 mscale_weights i j.
Proof. apply idx2_nonneg; table_nonneg. Qed.

Lemma bounded_step (a : Acc) (w v : Q) :
  bounded a -> 0 <= w -> v <= 1 -> score a + w * v <= score_max a + w.
Proof.
  unfold bounded. intros Ha Hw Hv.
  assert (0 <= w * (1 - v)) by (apply Qmult_le_0_compat; lra). lra.
Qed.

Lemma row_means_le (m : Mat) (i : nat) :
  at_most m i 1 -> (0 < cols m)%nat -> Forall (fun v => v <= 1) (row_means m i).
Proof.
  intros U Hc. unfold row_means. apply Forall_map, Forall_forall.
  intros y Hy. apply in_seq in Hy. apply mean_le; simpl; try lia.
  intros y' x' Hy' Hx'. simpl in *. apply U; lia.
Qed.

Lemma col_means_le (m : Mat) (i : nat) :
  at_most m i 1 -> (0 < rows m)%nat -> Forall (fun v => v <= 1) (col_means m i).
Proof.
  intros U Hr. unfold col_means. apply Forall_map, Forall_forall.
  intros x Hx. apply in_seq in Hx. apply mean_le; simpl; try lia.
  intros y' x' Hy' Hx'. simpl in *. apply U; lia.
Qed.

Lemma grid_channel_bounded (twice n : nat) (set : list Q) (i : nat) (a : Acc) :
  Forall (fun v => v <= 1) set -> (n / 50 < length set)%nat ->
  bounded a -> bounded (grid_channel twice n set i a).
Proof.
  intros HF Hn Ha. destruct (grid_channel_spec twice n set i a Hn) as [Hs Hm].
  unfold bounded. rewrite Hs, Hm.
  apply bounded_step; [exact Ha | apply worst_grid_weight_nonneg | apply nth_Forall; assumption].
Qed.

Lemma grid_artifacts_bounded (m : Mat) (nChan : nat) (a : Acc) (twice : nat) :
  (forall i, (i < nChan)%nat -> at_most m i 1) ->
  (0 < rows m)%nat -> (0 < cols m)%nat ->
  bounded a -> bounded (grid_artifacts m nChan a twice).
Proof.
  intros U Hr Hc Ha. unfold grid_artifacts.
  apply for_chan_inv.
  - intros i b Hi Hb. apply grid_channel_bounded; [| |exact Hb].
    + apply ms_of_Forall, col_means_le; [apply U, Hi | exact Hr].
    + rewrite ms_of_length, col_means_length. apply div50_lt, Hc.
  - apply for_chan_inv; [|exact Ha].
    intros i b Hi Hb. apply grid_channel_bounded; [| |exact Hb].
    + apply ms_of_Forall, row_means_le; [apply U, Hi | exact Hc].
    + rewrite ms_of_length, row_means_length. apply div50_lt, Hr.
Qed.

Section Range.

Context {cv : CvLib} {av : CvAverage cv}.

(** The blur of [(img1 + sign img2)^2], for [sign] 1 or -1. *)
Lemma blur_of_square (img1 img2 : Mat) (sign : Q) (y x c : nat) :
  rows img2 = rows img1 -> cols img2 = cols img1 ->
  (y < rows img1)%nat -> (x < cols img1)%nat ->
  (1 * px (GaussianBlur img1 ksize sigma) y x c
   + sign * px (GaussianBlur img2 ksize sigma) y x c) ^ 2
  <= px (GaussianBlur (cv_pow2 img1) ksize sigma) y x c
     + sign ^ 2 * px (GaussianBlur (cv_pow2 img2) ksize sigma) y x c
     + 2 * sign * px (GaussianBlur (multiply img1 img2 1) ksize sigma) y x c.
Proof.
  intros Hr Hc Hy Hx.
  set (d := addWeighted img1 1 img2 sign 0).
  set (e := addWeighted
              (addWeighted (cv_pow2 img1) 1 (cv_pow2 img2) (sign ^ 2) 0) 1
              (multiply img1 img2 1) (2 * sign) 0).
  pose proof (GaussianBlur_sq d ksize sigma y x c Hy Hx) as J.
  assert (E : mat_eqv (cv_pow2 d) e).
  { split; [reflexivity|]. split; [reflexivity|].
    intros y' x' c' _ _. simpl. ring. }
  destruct (GaussianBlur_ext _ _ ksize sigma E) as (_ & _ & Hext).
  rewrite (Hext y x c) in J
    by (rewrite ?GaussianBlur_rows, ?GaussianBlur_cols; simpl; assumption).
  unfold d in J at 1.
  rewrite (GaussianBlur_linear img1 img2 1 sign ksize sigma y x c Hr Hc Hy Hx) in J.
  unfold e in J.
  rewrite (GaussianBlur_linear _ (multiply img1 img2 1) 1 (2 * sign) ksize sigma y x c)
    in J by (simpl; auto).
  rewrite (GaussianBlur_linear (cv_pow2 img1) (cv_pow2 img2) 1 (sign ^ 2) ksize sigma y x c)
    in J by (simpl; auto).
  lra.
Qed.

(** [mu1^2 <= blur(img1^2)], the same for [img2], and the same for their
    sum and their difference. *)
Lemma ssim_blur_facts (img1 img2 : Mat) (y x c : nat) :
  rows img2 = rows img1 -> cols img2 = cols img1 ->
  (y < rows img1)%nat -> (x < cols img1)%nat ->
  let blur := fun m => px (GaussianBlur m ksize sigma) y x c in
  blur img1 ^ 2 <= blur (cv_pow2 img1) /\
  blur img2 ^ 2 <= blur (cv_pow2 img2) /\
  (blur img1 + blur img2) ^ 2
  <= blur (cv_pow2 img1) + blur (cv_pow2 img2) + 2 * blur (multiply img1 img2 1) /\
  (blur img1 - blur img2) ^ 2
  <= blur (cv_pow2 img1) + blur (cv_pow2 img2) - 2 * blur (multiply img1 img2 1).
Proof.
  intros Hr Hc Hy Hx blur. unfold blur.
  pose proof (blur_of_square img1 img2 1 y x c Hr Hc Hy Hx) as Jp.
  pose proof (blur_of_square img1 img2 (-1) y x c Hr Hc Hy Hx) as Jm.
  pose proof (GaussianBlur_sq img1 ksize sigma y x c Hy Hx) as J1.
  assert (Hy2 : (y < rows img2)%nat) by (rewrite Hr; exact Hy).
  assert (Hx2 : (x < cols img2)%nat) by (rewrite Hc; exact Hx).
  pose proof (GaussianBlur_sq img2 ksize sigma y x c Hy2 Hx2) as J2.
  split; [exact J1|]. split; [exact J2|]. split; lra.
Qed.

(** With those four facts the two factors of the denominator are positive
    and bound the two factors of the numerator in absolute value. *)
Lemma ssim_quotient_range (m1 m2 b11 b22 b12 : Q) :
  m1 ^ 2 <= b11 -> m2 ^ 2 <= b22 ->
  (m1 + m2) ^ 2 <= b11 + b22 + 2 * b12 ->
  (m1 - m2) ^ 2 <= b11 + b22 - 2 * b12 ->
  let num := (2 * m1 * m2 + C1) * (2 * b12 - 2 * m1 * m2 + C2) in
  let den := (m1 ^ 2 + m2 ^ 2 + C1) * (b11 + b22 - (m1 ^ 2 + m2 ^ 2) + C2) in
  0 < den /\ -1 <= num / den /\ num / den <= 1.
Proof.
  intros J1 J2 Jp Jm num den. unfold num, den.
  pose proof (sq_nonneg m1) as N1. pose proof (sq_nonneg m2) as N2.
  pose proof (sq_nonneg (m1 - m2)) as Nm. pose proof (sq_nonneg (m1 + m2)) as Np.
  unfold C1, C2 in *.
  assert (PA : 0 < m1 ^ 2 + m2 ^ 2 + 0.0001) by lra.
  assert (PB : 0 < b11 + b22 - (m1 ^ 2 + m2 ^ 2) + 0.0004) by lra.
  assert (PD : 0 < (m1 ^ 2 + m2 ^ 2 + 0.0001)
                   * (b11 + b22 - (m1 ^ 2 + m2 ^ 2) + 0.0004))
    by (apply Qmult_lt_0_compat; assumption).
  destruct (prod_bound (2 * m1 * m2 + 0.0001) (m1 ^ 2 + m2 ^ 2 + 0.0001)
              (2 * b12 - 2 * m1 * m2 + 0.0004)
              (b11 + b22 - (m1 ^ 2 + m2 ^ 2) + 0.0004)) as [Hu Hl]; try lra.
  split; [exact PD|]. split.
  - apply Qle_shift_div_l; [exact PD|]. lra.
  - apply Qle_shift_div_r; [exact PD|]. lra.
Qed.

(** What [mu1] holds when line 415 divides by it. *)
Lemma ssim_denominator_px (img1 img2 : Mat) (y x c : nat) :
  (c < 4)%nat ->
  let blur := fun m => px (GaussianBlur m ksize sigma) y x c in
  px (ssim_denominator img1 img2 (GaussianBlur img1 ksize sigma)
        (GaussianBlur img2 ksize sigma)) y x c
  == (blur img1 ^ 2 + blur img2 ^ 2 + C1)
     * (blur (cv_pow2 img1) + blur (cv_pow2 img2)
        - (blur img1 ^ 2 + blur img2 ^ 2) + C2).
Proof.
  intros Hc4 blur. unfold blur.
  unfold ssim_denominator, multiply, addWeighted, add_scalar, mat_add, cv_pow2.
  cbn [px rows cols]. rewrite (sC1_below_4 c Hc4). ring.
Qed.

(** X8.  Every value of the SSIM map lies between -1 and 1, and its denominator
    is positive: the division of line 415 never divides by zero. *)
Theorem ssim_map_range (img1 img2 : Mat) (y x c : nat) :
  rows img2 = rows img1 -> cols img2 = cols img1 ->
  (y < rows img1)%nat -> (x < cols img1)%nat -> (c < 4)%nat ->
  0 < px (ssim_denominator img1 img2 (GaussianBlur img1 ksize sigma)
            (GaussianBlur img2 ksize sigma)) y x c /\
  -1 <= px (ssim_map img1 img2) y x c /\ px (ssim_map img1 img2) y x c <= 1.
Proof.
  intros Hr Hc Hy Hx Hc4.
  destruct (ssim_blur_facts img1 img2 y x c Hr Hc Hy Hx) as (J1 & J2 & Jp & Jm).
  rewrite (ssim_map_px img1 img2 y x c Hc4), (ssim_denominator_px img1 img2 y x c Hc4).
  exact (ssim_quotient_range _ _ _ _ _ J1 J2 Jp Jm).
Qed.

Lemma ssim_at_most (img1 img2 : Mat) (c : nat) :
  rows img2 = rows img1 -> cols img2 = cols img1 -> (c < 4)%nat ->
  at_most (ssim_map img1 img2) c 1.
Proof.
  intros Hr Hc Hc4 y x Hy Hx. rewrite ssim_map_rows in Hy. rewrite ssim_map_cols in Hx.
  destruct (ssim_blur_facts img1 img2 y x c Hr Hc Hy Hx) as (J1 & J2 & Jp & Jm).
  rewrite (ssim_map_px img1 img2 y x c Hc4).
  exact (proj2 (proj2 (ssim_quotient_range _ _ _ _ _ J1 J2 Jp Jm))).
Qed.

Lemma edge_at_most (img1 img2 mu1 mu2 : Mat) (c : nat) :
  (c < 4)%nat -> at_most (edge_map img1 img2 mu1 mu2) c 1.
Proof.
  intros Hc4 y x _ _. unfold edge_map, scalar_sub, mat_max, mat_sub, mat_abs.
  cbn [px rows cols]. rewrite (ones_below_4 c Hc4).
  pose proof (Q.le_max_r (Qabs (px img2 y x c - px mu2 y x c)
                          - Qabs (px img1 y x c - px mu1 y x c)) 0). lra.
Qed.

Lemma iteration_bounded (scale : nat) (img1 img2 : Mat) (nChan : nat) (a : Acc) :
  (8 <= rows img1)%nat -> (8 <= cols img1)%nat ->
  rows img2 = rows img1 -> cols img2 = cols img1 -> (nChan <= 4)%nat ->
  bounded a -> bounded (snd (scale_iteration scale img1 img2 nChan a)).
Proof.
  intros Hr Hc Er Ec Hn Ha. rewrite scale_iteration_acc.
  assert (Sr : rows (ssim_map img1 img2) = rows img1) by apply ssim_map_rows.
  assert (Sc : cols (ssim_map img1 img2) = cols img1) by apply ssim_map_cols.
  assert (U : forall i, (i < nChan)%nat -> at_most (ssim_map img1 img2) i 1)
    by (intros i Hi; apply ssim_at_most; auto; lia).
  unfold worst_ssim. apply for_chan_inv.
  { intros i b Hi Hb. unfold bounded. simpl.
    setoid_replace (idx1 min_weight i * minVal (resize (ssim_map img1 img2) 0.25) i
                    * idx2 mscale_weights i scale)
      with (idx1 min_weight i * idx2 mscale_weights i scale
            * minVal (resize (ssim_map img1 img2) 0.25) i) by ring.
    apply bounded_step; [exact Hb | |].
    - apply Qmult_le_0_compat; [apply min_weight_nonneg | apply mscale_weights_nonneg].
    - apply minVal_le.
      + intros y x Hy Hx. apply (resize_le _ 0.25 i 1 (U i Hi)); assumption.
      + rewrite resize_rows, Sr. pose proof (resize_dim_quarter _ Hr). lia.
      + rewrite resize_cols, Sc. pose proof (resize_dim_quarter _ Hc). lia. }
  unfold average_ssim. apply for_chan_inv.
  { intros i b Hi Hb. unfold bounded. simpl.
    set (cw := if (0 <? i)%nat then chroma_weight else 1.0).
    setoid_replace (cw * mean (ssim_map img1 img2) i * idx2 scale_weights i scale)
      with (cw * idx2 scale_weights i scale * mean (ssim_map img1 img2) i) by ring.
    apply bounded_step; [exact Hb | |].
    - apply Qmult_le_0_compat; [|apply scale_weights_nonneg].
      unfold cw. destruct (0 <? i)%nat; discriminate.
    - apply mean_le; [apply U, Hi | lia | lia]. }
  destruct (scale =? 0)%nat; [|exact Ha].
  apply grid_artifacts_bounded; [exact U | lia | lia |].
  unfold edge_artifacts.
  assert (UE : forall i, (i < nChan)%nat ->
             at_most (edge_map img1 img2 (GaussianBlur img1 ksize sigma)
                        (GaussianBlur img2 ksize sigma)) i 1)
    by (intros i Hi; apply edge_at_most; lia).
  apply grid_artifacts_bounded; [exact UE | simpl; lia | simpl; lia |].
  apply for_chan_inv; [|exact Ha].
  intros i b Hi Hb. unfold bounded, accumulate. simpl.
  apply bounded_step; [exact Hb | apply extra_edges_weight_nonneg |].
  apply mean_le; [apply UE, Hi | simpl; lia | simpl; lia].
Qed.

(** X9.  For every valid pair of buffers the accumulated [score] is at most
    [score_max]; so whenever [score] is positive, [score_max / score - 1]
    is not negative and the floor of line 460 ("should not happen") is not
    taken: it is taken only for a negative [score]. *)
Theorem score_at_most_score_max (img1 img2 : Mat) (nChan : nat) :
  valid_buffers img1 img2 nChan ->
  let a := snd (multi_scale img1 img2 nChan) in
  score a <= score_max a /\
  (0 < score a ->
   0 <= score_max a / score a - 1 /\
   prints a (Qmin 1 (score_max a / score a - 1))).
Proof.
  intros (Hr & Hc & Er & Ec & Hn) a.
  assert (B : bounded a).
  { unfold a, multi_scale. rewrite scale_loop_snd.
    destruct (scales_from_spec 6 (rows img1) (cols img1)) as [S1 _].
    apply fold_left_inv; [|unfold bounded; simpl; lra].
    intros b k Hk Hb. apply in_seq in Hk.
    destruct (S1 k) as [Hkr Hkc]; [lia|].
    apply iteration_bounded; try assumption;
      rewrite ?pyramid_rows, ?pyramid_cols, ?Er, ?Ec; try assumption; try reflexivity.
    lia. }
  split; [exact B|]. intros Hpos.
  assert (Hm : 0 < score_max a) by (unfold bounded in B; lra).
  assert (Hs : ~ score a == 0) by (intros E; rewrite E in Hpos; lra).
  assert (R : 0 <= score_max a / score a - 1).
  { rewrite (ratio_minus_one _ _ Hs). apply Qle_shift_div_l; [exact Hpos|].
    unfold bounded in B. lra. }
  split; [exact R|].
  destruct (final_score_range a Hm) as (q & Hq & _ & _ & _ & Hcl).
  exists q. split; [exact Hq|]. rewrite (Hcl Hs). unfold clamped_ratio.
  apply Q.max_r. apply Q.min_glb; lra.
Qed.

End Range.

(** The reference primitives are averages. *)

Lemma filter_linear (t : list (Q * (Z * Z))) (a b : Mat) (alpha beta : Q) (y x c : nat) :
  rows b = rows a -> cols b = cols a ->
  Ref.filter t (addWeighted a alpha b beta 0) y x c
  == alpha * Ref.filter t a y x c + beta * Ref.filter t b y x c.
Proof.
  intros Hr Hc. induction t as [|[w [dy dx]] t IH].
  - simpl. ring.
  - unfold Ref.filter in *. cbn [fold_right]. rewrite IH.
    cbn [addWeighted rows cols px]. rewrite Hr, Hc. ring.
Qed.

Lemma area_le (m : Mat) (f : Q) (c : nat) (v : Q) :
  at_most m c v -> at_most (Ref.area m f) c v.
Proof.
  intros U y x Hy Hx. unfold Ref.area in *. cbn [px rows cols] in *.
  assert (Hr : (0 < rows m)%nat).
  { destruct (rows m); [rewrite resize_dim_0 in Hy; lia | lia]. }
  assert (Hc : (0 < cols m)%nat).
  { destruct (cols m); [rewrite resize_dim_0 in Hx; lia | lia]. }
  assert (Hk : (0 < Ref.block f)%nat) by (unfold Ref.block; lia).
  assert (P : 0 < of_nat (Ref.block f * Ref.block f)) by (apply of_nat_pos; nia).
  apply Qle_shift_div_r; [exact P|]. rewrite of_nat_mult.
  set (k := Ref.block f) in *.
  assert (S : sumQ k (fun dy => sumQ k (fun dx =>
                px m (Nat.min (y * k + dy) (rows m - 1))
                     (Nat.min (x * k + dx) (cols m - 1)) c))
              <= of_nat k * (of_nat k * v)).
  { apply sumQ_le. intros dy _. apply sumQ_le. intros dx _. apply U; lia. }
  lra.
Qed.

#[export] Instance RefAverage : CvAverage RefLib := {|
  GaussianBlur_linear := fun a b alpha beta k s y x c Hr Hc _ _ =>
                           filter_linear Ref.taps a b alpha beta y x c Hr Hc;
  resize_le := area_le
|}.

Lemma ssim_map_range_witness :
  0 < px (ssim_denominator (flat_mat 8 8 (1 # 2)) (flat_mat 8 8 (1 # 4))
            (GaussianBlur (flat_mat 8 8 (1 # 2)) ksize sigma)
            (GaussianBlur (flat_mat 8 8 (1 # 4)) ksize sigma)) 0 0 0 /\
  -1 <= px (ssim_map (cv := RefLib) (flat_mat 8 8 (1 # 2)) (flat_mat 8 8 (1 # 4))) 0 0 0 /\
  px (ssim_map (cv := RefLib) (flat_mat 8 8 (1 # 2)) (flat_mat 8 8 (1 # 4))) 0 0 0 <= 1.
Proof.
  apply (ssim_map_range (cv := RefLib) (flat_mat 8 8 (1 # 2)) (flat_mat 8 8 (1 # 4)) 0 0 0);
    simpl; lia.
Defined.

Lemma score_at_most_score_max_witness :
  valid_buffers (flat_mat 8 8 (1 # 2)) (flat_mat 8 8 (1 # 4)) 3 /\
  score (snd (multi_scale (cv := RefLib) (flat_mat 8 8 (1 # 2)) (flat_mat 8 8 (1 # 4)) 3))
  <= score_max (snd (multi_scale (cv := RefLib) (flat_mat 8 8 (1 # 2))
                       (flat_mat 8 8 (1 # 4)) 3)).
Proof.
  assert (V : valid_buffers (flat_mat 8 8 (1 # 2)) (flat_mat 8 8 (1 # 4)) 3)
    by (apply flat_mat_valid; lia).
  split; [exact V|].
  exact (proj1 (score_at_most_score_max (cv := RefLib) _ _ _ V)).
Defined.

(** ** What the comparison does with the order of the two images

    The SSIM map treats the two images alike; the edge map of line 359 does
    not: it takes away only where the second image has more local contrast
    than the first ("no penalty for smoothing away edges"). *)

Section Order.

Context {cv : CvLib}.

Lemma blur_product_comm (img1 img2 : Mat) (y x c : nat) :
  rows img2 = rows img1 -> cols img2 = cols img1 ->
  (y < rows img1)%nat -> (x < cols img1)%nat ->
  px (GaussianBlur (multiply img1 img2 1) ksize sigma) y x c
  == px (GaussianBlur (multiply img2 img1 1) ksize sigma) y x c.
Proof.
  intros Hr Hc Hy Hx.
  assert (E : mat_eqv (multiply img1 img2 1) (multiply img2 img1 1)).
  { split; [simpl; congruence|]. split; [simpl; congruence|].
    intros y' x' c' _ _. simpl. ring. }
  destruct (GaussianBlur_ext _ _ ksize sigma E) as (_ & _ & Hext).
  apply Hext; rewrite ?GaussianBlur_rows, ?GaussianBlur_cols; simpl; assumption.
Qed.

(** X10.  Lines 345-355 and 390-416: exchanging the original and the distorted
    image leaves every sample of the SSIM map as it is. *)
Theorem ssim_map_symmetric (img1 img2 : Mat) (y x c : nat) :
  rows img2 = rows img1 -> cols img2 = cols img1 ->
  (y < rows img1)%nat -> (x < cols img1)%nat -> (c < 4)%nat ->
  px (ssim_map img1 img2) y x c == px (ssim_map img2 img1) y x c.
Proof.
  intros Hr Hc Hy Hx Hc4.
  rewrite (ssim_map_px img1 img2 y x c Hc4), (ssim_map_px img2 img1 y x c Hc4).
  cbv zeta. rewrite (blur_product_comm img1 img2 y x c Hr Hc Hy Hx).
  apply Qdiv_comp; ring.
Qed.

(** X11.  Lines 359 and 380: where the distorted image [img2] is no further from
    its local mean than the original [img1], the edge map is 1 and nothing
    is taken from the score; elsewhere it is 1 less the excess, below 1. *)
Theorem edge_map_one_sided (img1 img2 mu1 mu2 : Mat) (y x c : nat) :
  (c < 4)%nat ->
  let d1 := Qabs (px img1 y x c - px mu1 y x c) in
  let d2 := Qabs (px img2 y x c - px mu2 y x c) in
  (d2 <= d1 -> px (edge_map img1 img2 mu1 mu2) y x c == 1) /\
  (d1 < d2 -> px (edge_map img1 img2 mu1 mu2) y x c == 1 - (d2 - d1) /\
              px (edge_map img1 img2 mu1 mu2) y x c < 1).
Proof.
  intros Hc4 d1 d2.
  assert (E : px (edge_map img1 img2 mu1 mu2) y x c == 1 - Qmax (d2 - d1) 0).
  { unfold edge_map, scalar_sub, mat_max, mat_sub, mat_abs.
    cbn [px rows cols]. rewrite (ones_below_4 c Hc4). reflexivity. }
  split.
  - intros H. rewrite E, Q.max_r by lra. ring.
  - intros H. rewrite E, Q.max_l by lra. split; [reflexivity | lra].
Qed.

End Order.

Lemma ssim_map_symmetric_witness :
  px (ssim_map (cv := RefLib) (flat_mat 8 8 (1 # 2)) (flat_mat 8 8 (1 # 4))) 0 0 0
  == px (ssim_map (cv := RefLib) (flat_mat 8 8 (1 # 4)) (flat_mat 8 8 (1 # 2))) 0 0 0.
Proof.
  apply (ssim_map_symmetric (cv := RefLib) (flat_mat 8 8 (1 # 2)) (flat_mat 8 8 (1 # 4)) 0 0 0);
    simpl; lia.
Defined.

Lemma edge_map_one_sided_witness :
  px (edge_map (flat_mat 8 8 (3 # 4)) (flat_mat 8 8 (1 # 2))
               (flat_mat 8 8 (1 # 4)) (flat_mat 8 8 (1 # 4))) 0 0 0 == 1.
Proof.
  apply (proj1 (edge_map_one_sided (flat_mat 8 8 (3 # 4)) (flat_mat 8 8 (1 # 2))
                  (flat_mat 8 8 (1 # 4)) (flat_mat 8 8 (1 # 4)) 0 0 0 ltac:(lia))).
  vm_compute. discriminate.
Defined.

(** ** The number of scales as a function of the smaller dimension

    The loop of lines 338-457 halves both dimensions with [cvRound], which
    rounds a half to the even neighbour, and stops below 8.  The number of
    iterations is therefore fixed by the smaller dimension alone, with the
    thresholds 8, 15, 30, 59, 118 and 235. *)


Lemma half_mono (a b : nat) : (a <= b)%nat -> (half a <= half b)%nat.
Proof.
  intros H. unfold half. divmod a. divmod b.
  destruct (Nat.eqb_spec (a mod 4) 3); destruct (Nat.eqb_spec (b mod 4) 3); lia.
Qed.

Lemma half_min (a b : nat) : half (Nat.min a b) = Nat.min (half a) (half b).
Proof.
  destruct (Nat.le_ge_cases a b) as [H|H]; pose proof (half_mono _ _ H).
  - rewrite !Nat.min_l; auto.
  - rewrite !Nat.min_r; auto.
Qed.

Lemma half_threshold (n : nat) :
  ((half n <? 8) = (n <? 15) /\ (half n <? 15) = (n <? 30) /\
   (half n <? 30) = (n <? 59) /\ (half n <? 59) = (n <? 118) /\
   (half n <? 118) = (n <? 235))%nat.
Proof.
  unfold half. divmod n. destruct (Nat.eqb_spec (n mod 4) 3);
  repeat split;
  match goal with |- (?a <? ?b)%nat = (?c <? ?d)%nat =>
    destruct (Nat.ltb_spec a b); destruct (Nat.ltb_spec c d); try reflexivity; lia end.
Qed.

Lemma scales_from_min (left r c : nat) :
  scales_from left r c = count_halvings left (Nat.min r c).
Proof.
  revert r c. induction left as [|left IH]; intros r c; cbn [scales_from count_halvings].
  - reflexivity.
  - rewrite IH, !resize_dim_half, half_min.
    destruct (Nat.ltb_spec c 8); destruct (Nat.ltb_spec r 8);
      destruct (Nat.ltb_spec (Nat.min r c) 8); cbn [orb]; try reflexivity; lia.
Qed.

Lemma count_halvings_thresholds (n : nat) : count_halvings 6 n = scales_of n.
Proof.
  unfold scales_of, thresholds. cbn [count_halvings filter].
  destruct (half_threshold n) as (T1 & T2 & T3 & T4 & T5).
  destruct (half_threshold (half n)) as (U1 & U2 & U3 & U4 & _).
  destruct (half_threshold (half (half n))) as (V1 & V2 & V3 & _).
  destruct (half_threshold (half (half (half n)))) as (W1 & W2 & _).
  destruct (half_threshold (half (half (half (half n))))) as (X1 & _).
  rewrite X1, W1, W2, V1, V2, V3, U1, U2, U3, U4, T1, T2, T3, T4, T5.
  destruct (Nat.ltb_spec n 8); destruct (Nat.leb_spec 8 n); try lia;
  destruct (Nat.ltb_spec n 15); destruct (Nat.leb_spec 15 n); try lia;
  destruct (Nat.ltb_spec n 30); destruct (Nat.leb_spec 30 n); try lia;
  destruct (Nat.ltb_spec n 59); destruct (Nat.leb_spec 59 n); try lia;
  destruct (Nat.ltb_spec n 118); destruct (Nat.leb_spec 118 n); try lia;
  destruct (Nat.ltb_spec n 235); destruct (Nat.leb_spec 235 n); try lia;
  reflexivity.
Qed.

Lemma scales_of_mono (n n' : nat) : (n <= n')%nat -> (scales_of n <= scales_of n')%nat.
Proof.
  intros H. unfold scales_of. induction thresholds as [|t l IH]; cbn [filter length].
  - lia.
  - destruct (Nat.leb_spec t n); destruct (Nat.leb_spec t n'); cbn [length]; lia.
Qed.

Section Scales.

Context {cv : CvLib}.

(** X12.  Lines 338-342 and 394-395: the loop runs once for every threshold
    among 8, 15, 30, 59, 118 and 235 that the smaller of the two dimensions
    reaches, whatever the samples and the channel count; and the number
    never goes down when the image grows. *)
Theorem scales_by_smaller_dimension (img1 img2 : Mat) (nChan : nat) (img1' img2' : Mat) :
  fst (multi_scale img1 img2 nChan) = scales_of (Nat.min (rows img1) (cols img1)) /\
  ((rows img1 <= rows img1')%nat -> (cols img1 <= cols img1')%nat ->
   (fst (multi_scale img1 img2 nChan) <= fst (multi_scale img1' img2' nChan))%nat).
Proof.
  assert (E : forall a b, fst (multi_scale a b nChan)
                          = scales_of (Nat.min (rows a) (cols a))).
  { intros a b. unfold multi_scale. rewrite scale_loop_fst, scales_from_min.
    apply count_halvings_thresholds. }
  split; [apply E|]. intros Hr Hc. rewrite !E.
  apply scales_of_mono. lia.
Qed.

End Scales.

(** ** The choice of the decoder (lines 238-248) *)

Section Decoder.

Import Ascii String.
Local Open Scope string_scope.

Lemma has_middle (ch : ascii) (p e : string) : has ch (p ++ String ch e) = true.
Proof.
  induction p as [|a p IH]; simpl.
  - rewrite Ascii.eqb_refl. reflexivity.
  - rewrite IH. apply orb_true_r.
Qed.

Lemma length_middle (ch : ascii) (p e : string) :
  length (p ++ String ch e) = (length p + S (length e))%nat.
Proof. induction p as [|a p IH]; simpl; [reflexivity | rewrite IH; reflexivity]. Qed.

Lemma drop_middle (ch : ascii) (p e : string) :
  drop (S (length p)) (p ++ String ch e) = e.
Proof. induction p as [|a p IH]; simpl; [reflexivity | exact IH]. Qed.

Lemma last_index_spec (s : string) (ch : ascii) :
  match last_index s ch with
  | None => has ch s = false
  | Some i => exists p e, s = p ++ String ch e /\ length p = i /\ has ch e = false
  end.
Proof.
  induction s as [|a r IH]; simpl.
  - reflexivity.
  - destruct (last_index r ch) as [i|].
    + destruct IH as (p & e & -> & Hl & He).
      exists (String a p), e. simpl. rewrite Hl. auto.
    + destruct (Ascii.eqb_spec a ch) as [->|N].
      * exists EmptyString, r. auto.
      * simpl. exact IH.
Qed.

(** The part after the last [ch] is determined by the string. *)
Lemma after_last_unique (ch : ascii) (p p' e e' : string) :
  p ++ String ch e = p' ++ String ch e' ->
  has ch e = false -> has ch e' = false -> e = e'.
Proof.
  revert p'. induction p as [|a p IH]; intros [|a' p'] E He He'; simpl in E.
  - congruence.
  - injection E as _ E. rewrite E, has_middle in He. discriminate.
  - injection E as _ E. rewrite <- E, has_middle in He'. discriminate.
  - injection E as _ E. exact (IH p' E He He').
Qed.

(** X13.  Lines 241-248: for every path (shorter than [size_t] can count)
    [substr] does not throw; the extension is the part of the path after
    its last dot, or the whole path when it has none, and holds no dot;
    and [readAvif] is chosen exactly when the path ends in [.avif], in
    lower case, or is the bare name [avif]. *)
Theorem decoder_by_extension (path : string) :
  (Z.of_nat (length path) < 2 ^ 64)%Z ->
  exists e,
    extension path = Some e /\
    (exists stem, path = stem ++ e) /\
    has "." e = false /\
    (has "." path = false -> e = path) /\
    (reader_for path = Some ReadAvif <->
     path = "avif" \/ exists stem, path = stem ++ ".avif") /\
    (reader_for path <> Some ReadAvif -> reader_for path = Some Imread).
Proof.
  intros Hlen. unfold reader_for, extension, find_last_of.
  pose proof (last_index_spec path ".") as S.
  destruct (last_index path ".") as [i|].
  - destruct S as (p & e & Hp & Hl & He).
    assert (Hi : (Z.of_nat i + 1 <= Z.of_nat (length path))%Z)
      by (rewrite Hp, length_middle; lia).
    assert (Ew : size_t (Z.of_nat i + 1) = Z.of_nat (S i)).
    { unfold size_t. rewrite Z.mod_small; lia. }
    assert (Es : substr path (size_t (Z.of_nat i + 1)) = Some e).
    { unfold substr. rewrite Ew.
      destruct (Z.ltb_spec (Z.of_nat (length path)) (Z.of_nat (S i))); [lia|].
      rewrite Nat2Z.id, Hp, <- Hl, drop_middle. reflexivity. }
    rewrite Es. exists e. split; [reflexivity|].
    split; [exists (p ++ "."); rewrite Hp; clear; induction p; simpl; congruence|].
    split; [exact He|].
    split; [intros N; rewrite Hp, has_middle in N; discriminate|].
    split.
    + split.
      * intros R. right. exists p.
        destruct (String.eqb_spec e "avif") as [->|]; [exact Hp | discriminate R].
      * intros [A | (stem & A)].
        -- rewrite A in Hp. destruct p as [|? [|? [|? [|? [|? p]]]]]; discriminate Hp.
        -- assert (e = "avif") as ->; [|reflexivity].
           apply (after_last_unique "." p stem); [congruence | exact He | reflexivity].
    + destruct (String.eqb e "avif"); [intros N; contradiction N|]; reflexivity.
  - assert (Es : substr path (size_t (npos + 1)) = Some path).
    { unfold substr. change (size_t (npos + 1)) with 0%Z.
      destruct (Z.ltb_spec (Z.of_nat (length path)) 0); [lia | reflexivity]. }
    rewrite Es. exists path. split; [reflexivity|].
    split; [exists ""; reflexivity|].
    split; [exact S|].
    split; [reflexivity|].
    split.
    + split.
      * intros R. left.
        destruct (String.eqb_spec path "avif") as [->|]; [reflexivity | discriminate R].
      * intros [-> | (stem & A)]; [reflexivity|].
        rewrite A, has_middle in S. discriminate.
    + destruct (String.eqb path "avif"); [intros N; contradiction N|]; reflexivity.
Qed.

Lemma decoder_by_extension_witness :
  (Z.of_nat (length "photo.v2.avif") < 2 ^ 64)%Z /\
  extension "photo.v2.avif" = Some "avif" /\
  reader_for "photo.v2.avif" = Some ReadAvif /\
  reader_for "avif.png" = Some Imread.
Proof.
  assert (L : (Z.of_nat (length "photo.v2.avif") < 2 ^ 64)%Z) by (vm_compute; reflexivity).
  split; [exact L|].
  destruct (decoder_by_extension "photo.v2.avif" L) as (e & He & _ & _ & _ & Hr & _).
  split; [vm_compute; reflexivity|].
  split; [apply Hr; right; exists "photo.v2"; reflexivity | vm_compute; reflexivity].
Defined.

End Decoder.
